(** * Subtitle segmentation engine of [src/lib/videoRenderer.ts]

    A shallow embedding of the transcript segmentation code
    ([splitSubtitles], [checkShouldSplit], [createSegment],
    [mergeShortSegments], [splitTextByDuration], [splitIntoSentences],
    [splitLongSentence], [splitByWordCount], [recalculateTimings]) together
    with the parts of the JavaScript runtime this code relies on (strings as
    sequences of UTF-16 code units, numbers, regular expressions with
    [test] and [split]).

    Conventions of the embedding.
    - A JavaScript string is the list of its UTF-16 code units ([jsstring]).
    - A JavaScript number is an IEEE 754 double ([JSNum]): the arithmetic
      rounds as the source's does, and [NaN], the infinities and the two
      zeros are there.  A literal is written as the fraction it is read
      from.
    - [generateId] reads the clock and a random source; it is modelled by an
      oracle [id_of_call] giving the identifier returned by the n-th call,
      and every function threads the number of calls made so far.
    - A thrown [TypeError] and a loop that never ends are outcomes of their
      own ([Throws], [OutOfFuel]). *)

From Stdlib Require Import List Bool Arith NArith ZArith QArith Qround Lia Lqa.
From Stdlib Require Import Floats.SpecFloat.
From Stdlib Require String Ascii.
Import String.StringSyntax.
Import ListNotations.

Close Scope Q_scope.

(** [o ?? d]-like reading of a value that may be absent. *)
Definition or_default {A : Type} (o : option A) (d : A) : A :=
  match o with Some a => a | None => d end.

(* ================================================================== *)
(** ** JavaScript strings *)
(* ================================================================== *)

(** A string is the sequence of its UTF-16 code units. *)
Definition jsstring := list N.

(** Code units of an ASCII literal. *)
Definition js (s : String.string) : jsstring :=
  map Ascii.N_of_ascii (String.list_ascii_of_string s).
Arguments js s%_string_scope.

(** The characters matched by [\s] (and removed by [trim]): the WhiteSpace
    and LineTerminator code points of ECMAScript. *)
Definition is_ws (c : N) : bool :=
  ((0x09 <=? c) && (c <=? 0x0D) || (c =? 0x20) || (c =? 0xA0) ||
   (c =? 0x1680) || (0x2000 <=? c) && (c <=? 0x200A) ||
   (c =? 0x2028) || (c =? 0x2029) || (c =? 0x202F) || (c =? 0x205F) ||
   (c =? 0x3000) || (c =? 0xFEFF))%N.

(** [s.replace(/\s/g, '')] *)
Definition strip_ws (s : jsstring) : jsstring :=
  filter (fun c => negb (is_ws c)) s.

Fixpoint trim_start (s : jsstring) : jsstring :=
  match s with
  | c :: t => if is_ws c then trim_start t else s
  | [] => []
  end.

(** [s.trim()] *)
Definition trim (s : jsstring) : jsstring :=
  rev (trim_start (rev (trim_start s))).

(** [parts.join(sep)] *)
Fixpoint join (sep : jsstring) (parts : list jsstring) : jsstring :=
  match parts with
  | [] => []
  | [p] => p
  | p :: rest => p ++ sep ++ join sep rest
  end.

Definition space : jsstring := [0x20%N].

(** [s.substring(i, j)] for [i <= j]. *)
Definition substring (i j : nat) (s : jsstring) : jsstring :=
  firstn (j - i) (skipn i s).

Fixpoint str_eqb (a b : jsstring) : bool :=
  match a, b with
  | [], [] => true
  | x :: a', y :: b' => (x =? y)%N && str_eqb a' b'
  | _, _ => false
  end.

(** Does [w] occur in [s] at index [i]? *)
Definition occurs_at (w s : jsstring) (i : nat) : bool :=
  str_eqb (firstn (length w) (skipn i s)) w.

(* ================================================================== *)
(** ** JavaScript numbers *)
(* ================================================================== *)

(** A number is an IEEE 754 binary64 value: a signed zero, a signed
    infinity, [NaN], or a finite [(-1)^s * m * 2^e].  The operations are
    those of the Standard Library's specification of floating-point
    arithmetic at 53 bits of precision, rounding to nearest, ties to
    even. *)
Definition JSNum : Type := spec_float.

Definition prec : Z := 53.
Definition emax : Z := 1024.

Definition PInf : JSNum := S754_infinity false.
Definition NInf : JSNum := S754_infinity true.
Definition NaN : JSNum := S754_nan.

(** The double nearest to an integer: the integer itself up to [2^53]. *)
Definition num_of_Z (z : Z) : JSNum := binary_normalize prec emax z 0 false.
Definition num_of_nat (n : nat) : JSNum := num_of_Z (Z.of_nat n).
Definition num_zero : JSNum := S754_zero false.

Definition num_add (a b : JSNum) : JSNum := SFadd prec emax a b.
Definition num_sub (a b : JSNum) : JSNum := SFsub prec emax a b.
Definition num_mul (a b : JSNum) : JSNum := SFmul prec emax a b.
Definition num_div (a b : JSNum) : JSNum := SFdiv prec emax a b.

(** A decimal literal of the source, written as a fraction: the double
    nearest to it (the correctly rounded quotient of two integers below
    [2^53]). *)
Definition Fin (q : Q) : JSNum :=
  num_div (num_of_Z (Qnum q)) (num_of_Z (Zpos (Qden q))).

(** Comparison; [None] when an operand is [NaN]. *)
Definition num_cmp (a b : JSNum) : option comparison := SFcompare a b.

Definition num_lt (a b : JSNum) : bool :=
  match num_cmp a b with Some Lt => true | _ => false end.
Definition num_le (a b : JSNum) : bool :=
  match num_cmp a b with Some Lt | Some Eq => true | _ => false end.
Definition num_gt (a b : JSNum) : bool :=
  match num_cmp a b with Some Gt => true | _ => false end.
Definition num_ge (a b : JSNum) : bool :=
  match num_cmp a b with Some Gt | Some Eq => true | _ => false end.

(** [a === b] on numbers: [NaN] is not equal to itself, [+0] is equal to
    [-0]. *)
Definition num_eqb (a b : JSNum) : bool :=
  match num_cmp a b with Some Eq => true | _ => false end.

(** The integer part of the magnitude [m * 2^e], and whether something was
    cut off. *)
Definition magnitude_floor (m : positive) (e : Z) : Z :=
  match e with
  | Zneg p => Z.shiftr (Zpos m) (Zpos p)
  | _ => Z.shiftl (Zpos m) e
  end.
Definition magnitude_whole (m : positive) (e : Z) : bool :=
  match e with
  | Zneg p => (Z.shiftl (Z.shiftr (Zpos m) (Zpos p)) (Zpos p) =? Zpos m)%Z
  | _ => true
  end.

(** [Math.ceil] *)
Definition num_ceil (a : JSNum) : JSNum :=
  match a with
  | S754_finite s m (Zneg p) =>
      let fl := magnitude_floor m (Zneg p) in
      let z :=
        if s then (- fl)%Z
        else if magnitude_whole m (Zneg p) then fl else (fl + 1)%Z in
      binary_normalize prec emax z 0 s
  | _ => a
  end.

(** Truncation toward zero of a finite number (the finite case of
    ToIntegerOrInfinity). *)
Definition num_trunc (a : JSNum) : Z :=
  match a with
  | S754_finite s m e =>
      if s then (- magnitude_floor m e)%Z else magnitude_floor m e
  | _ => 0%Z
  end.

Definition is_finite (a : JSNum) : bool :=
  match a with S754_finite _ _ _ | S754_zero _ => true | _ => false end.

(** The number of binary digits of [p]. *)
Definition dig (p : positive) : Z := Zpos (digits2_pos p).

(** The double of a whole number [p] below [2^53]: its 53-digit mantissa
    and its exponent. *)
Definition whole (p : positive) : JSNum :=
  S754_finite false (Z.to_pos (Zpos p * 2 ^ (53 - dig p))%Z) (dig p - 53)%Z.

Arguments num_of_Z : simpl never.
Arguments num_of_nat : simpl never.
Arguments num_add : simpl never.
Arguments num_sub : simpl never.
Arguments num_mul : simpl never.
Arguments num_div : simpl never.
Arguments num_cmp : simpl never.
Arguments num_ceil : simpl never.
Arguments Fin : simpl never.

Declare Scope jsnum_scope.
Delimit Scope jsnum_scope with js.
Infix "+" := num_add : jsnum_scope.
Infix "-" := num_sub : jsnum_scope.
Infix "*" := num_mul : jsnum_scope.
Infix "/" := num_div : jsnum_scope.
Infix "<?" := num_lt : jsnum_scope.
Infix "<=?" := num_le : jsnum_scope.
Infix ">?" := num_gt : jsnum_scope.
Infix ">=?" := num_ge : jsnum_scope.

(* ================================================================== *)
(** ** Regular expressions *)
(* ================================================================== *)

(** The fragment of ECMAScript patterns the code uses, without flags (so
    [test] and [split] do not depend on [lastIndex]). *)
Inductive regex : Type :=
| RClass (p : N -> bool)          (* a character class, [\s] *)
| RLit (w : jsstring)             (* a literal run of characters *)
| RSeq (r1 r2 : regex)
| RAlt (r1 r2 : regex)            (* r1|r2, r1 tried first *)
| RStar (r : regex)               (* greedy r* *)
| RGroup (idx : nat) (r : regex)  (* capturing group number idx+1 *)
| RBehind (p : N -> bool)         (* (?<=[...]) *)
| RStart                          (* ^ *)
| REnd                            (* $ *)
| RFail.                          (* the empty alternation *)

Definition RPlus (r : regex) : regex := RSeq r (RStar r).

(** [w1|w2|...|wn] *)
Fixpoint RWords (ws : list jsstring) : regex :=
  match ws with
  | [] => RFail
  | [w] => RLit w
  | w :: rest => RAlt (RLit w) (RWords rest)
  end.

Definition in_class (cs : jsstring) (c : N) : bool :=
  existsb (N.eqb c) cs.

(** A value of a capture: [None] is [undefined]. *)
Definition captures := list (option jsstring).

Fixpoint set_capture (idx : nat) (v : jsstring) (c : captures) : captures :=
  match idx, c with
  | O, _ :: t => Some v :: t
  | S i, x :: t => x :: set_capture i v t
  | _, [] => []
  end.

Definition match_result := option (nat * captures).

(** The iterations of [r*], greedy: [step] matches [r] once; an iteration
    that consumes nothing is rejected, as in ECMAScript's RepeatMatcher.
    Every iteration consumes a character, so [fuel] above the length of the
    string is never used up. *)
Fixpoint star_loop
    (step : nat -> captures -> (nat -> captures -> match_result) -> match_result)
    (k : nat -> captures -> match_result)
    (fuel : nat) (i : nat) (c : captures) : match_result :=
  match fuel with
  | O => k i c
  | S fuel' =>
      match step i c
              (fun j c' => if i <? j then star_loop step k fuel' j c' else None)
      with
      | Some z => Some z
      | None => k i c
      end
  end.

(** Backtracking matcher in continuation-passing style: [rmatch r s i c k]
    matches [r] in [s] from index [i] with captures [c], and hands the end
    index and the captures to [k]; [k] failing makes the matcher try its next
    choice. *)
Fixpoint rmatch (r : regex) (s : jsstring) (i : nat) (c : captures)
    (k : nat -> captures -> match_result) {struct r} : match_result :=
  match r with
  | RClass p =>
      match nth_error s i with
      | Some ch => if p ch then k (S i) c else None
      | None => None
      end
  | RLit w => if occurs_at w s i then k (i + length w) c else None
  | RSeq r1 r2 => rmatch r1 s i c (fun j c' => rmatch r2 s j c' k)
  | RAlt r1 r2 =>
      match rmatch r1 s i c k with
      | Some z => Some z
      | None => rmatch r2 s i c k
      end
  | RStar r1 => star_loop (rmatch r1 s) k (S (length s)) i c
  | RGroup idx r1 =>
      rmatch r1 s i c (fun j c' => k j (set_capture idx (substring i j s) c'))
  | RBehind p =>
      match i with
      | O => None
      | S i' =>
          match nth_error s i' with
          | Some ch => if p ch then k i c else None
          | None => None
          end
      end
  | RStart => if i =? 0 then k i c else None
  | REnd => if i =? length s then k i c else None
  | RFail => None
  end.

(** A RegExp object: its pattern and its number of capturing groups. *)
Record RegExp : Type := mkRegExp {
  pattern : regex;
  ngroups : nat
}.

(** One attempt of the pattern at index [q] (the sticky matcher of
    ECMAScript): the end index and the captures. *)
Definition exec_at (re : RegExp) (s : jsstring) (q : nat) : match_result :=
  rmatch (pattern re) s q (repeat None (ngroups re)) (fun e c => Some (e, c)).

(** [re.test(s)]: is there a match starting at some index [0..length s]? *)
Definition regexp_test (re : RegExp) (s : jsstring) : bool :=
  existsb (fun q => match exec_at re s q with Some _ => true | None => false end)
          (seq 0 (S (length s))).

(** The loop of [RegExp.prototype[Symbol.split]] (no limit): [p] is the end
    of the last separator, [q] the index tried next, [acc] the pieces so far.
    [None] when the fuel runs out. *)
Fixpoint split_loop (fuel : nat) (re : RegExp) (s : jsstring) (p q : nat)
    (acc : list (option jsstring)) : option (list (option jsstring)) :=
  match fuel with
  | O => None
  | S fuel' =>
      if q <? length s then
        match exec_at re s q with
        | None => split_loop fuel' re s p (S q) acc
        | Some (e0, caps) =>
            let e := Nat.min e0 (length s) in
            if e =? p then split_loop fuel' re s p (S q) acc
            else split_loop fuel' re s e e
                   (acc ++ Some (substring p q s) :: caps)
        end
      else Some (acc ++ [Some (substring p (length s) s)])
  end.

(** [s.split(re)]: the pieces and, after each separator, its captures. *)
Definition regexp_split (re : RegExp) (s : jsstring)
    : option (list (option jsstring)) :=
  match s with
  | [] => match exec_at re s 0 with
          | Some _ => Some []
          | None => Some [Some s]
          end
  | _ => split_loop (2 * length s + 2) re s 0 0 []
  end.

(** *** The patterns of the source *)

Definition ws_class : regex := RClass is_ws.

(** [/[.?!。？！]/] *)
Definition sentence_marks : jsstring :=
  [0x002E; 0x003F; 0x0021; 0x3002; 0xFF1F; 0xFF01]%N.
Definition DEFAULT_sentenceDelimiters : RegExp :=
  mkRegExp (RClass (in_class sentence_marks)) 0.

(** [/[,，、:;]|\s+(그리고|그래서|하지만|그러나|그런데|또한|그리고는|그래서는|근데|아니면|또는)\s+/] *)
Definition break_marks : jsstring :=
  [0x002C; 0xFF0C; 0x3001; 0x003A; 0x003B]%N.
Definition conjunctions : list jsstring :=
  [ [0xADF8; 0xB9AC; 0xACE0]; [0xADF8; 0xB798; 0xC11C];
    [0xD558; 0xC9C0; 0xB9CC]; [0xADF8; 0xB7EC; 0xB098];
    [0xADF8; 0xB7F0; 0xB370]; [0xB610; 0xD55C];
    [0xADF8; 0xB9AC; 0xACE0; 0xB294]; [0xADF8; 0xB798; 0xC11C; 0xB294];
    [0xADFC; 0xB370]; [0xC544; 0xB2C8; 0xBA74]; [0xB610; 0xB294] ]%N.
Definition DEFAULT_naturalBreakPattern : RegExp :=
  mkRegExp
    (RAlt (RClass (in_class break_marks))
          (RSeq (RPlus ws_class)
                (RSeq (RGroup 0 (RWords conjunctions)) (RPlus ws_class))))
    1.

(** [/(?:다|요|죠|네|나|까|지|고|며|면서|는데|니까|거든|잖아|래|세요|습니다|합니다|입니다|됩니다|니다)[\s]*$/] *)
Definition sentence_endings : list jsstring :=
  [ [0xB2E4]; [0xC694]; [0xC8E0]; [0xB124]; [0xB098]; [0xAE4C]; [0xC9C0];
    [0xACE0]; [0xBA70]; [0xBA74; 0xC11C]; [0xB294; 0xB370];
    [0xB2C8; 0xAE4C]; [0xAC70; 0xB4E0]; [0xC796; 0xC544]; [0xB798];
    [0xC138; 0xC694]; [0xC2B5; 0xB2C8; 0xB2E4]; [0xD569; 0xB2C8; 0xB2E4];
    [0xC785; 0xB2C8; 0xB2E4]; [0xB429; 0xB2C8; 0xB2E4]; [0xB2C8; 0xB2E4] ]%N.
Definition KOREAN_SENTENCE_ENDINGS : RegExp :=
  mkRegExp (RSeq (RWords sentence_endings) (RSeq (RStar ws_class) REnd)) 0.

(** [/^(그리고|그래서|하지만|그러나|그런데|또한|근데|아니면|또는|그럼|자|이제|그때)/] *)
Definition clause_starters : list jsstring :=
  [ [0xADF8; 0xB9AC; 0xACE0]; [0xADF8; 0xB798; 0xC11C];
    [0xD558; 0xC9C0; 0xB9CC]; [0xADF8; 0xB7EC; 0xB098];
    [0xADF8; 0xB7F0; 0xB370]; [0xB610; 0xD55C]; [0xADFC; 0xB370];
    [0xC544; 0xB2C8; 0xBA74]; [0xB610; 0xB294]; [0xADF8; 0xB7FC]; [0xC790];
    [0xC774; 0xC81C]; [0xADF8; 0xB54C] ]%N.
Definition CLAUSE_START : RegExp :=
  mkRegExp (RSeq RStart (RGroup 0 (RWords clause_starters))) 1.

(** [/(?<=[.?!。？！])\s*/] *)
Definition SENTENCE_SPLIT : RegExp :=
  mkRegExp (RSeq (RBehind (in_class sentence_marks)) (RStar ws_class)) 0.

(** [/\s+/] *)
Definition WHITESPACE_RUN : RegExp := mkRegExp (RPlus ws_class) 0.

(** *** What a match is

    [matches s r i j]: the pattern [r] can match [s] from index [i] to index
    [j].  The matcher above explores these matches in the order of
    ECMAScript; the relation forgets the order and the captures. *)
Inductive matches (s : jsstring) : regex -> nat -> nat -> Prop :=
| MClass : forall p i ch,
    nth_error s i = Some ch -> p ch = true -> matches s (RClass p) i (S i)
| MLit : forall w i,
    occurs_at w s i = true -> matches s (RLit w) i (i + length w)
| MSeq : forall r1 r2 i j k,
    matches s r1 i j -> matches s r2 j k -> matches s (RSeq r1 r2) i k
| MAltL : forall r1 r2 i j, matches s r1 i j -> matches s (RAlt r1 r2) i j
| MAltR : forall r1 r2 i j, matches s r2 i j -> matches s (RAlt r1 r2) i j
| MStarStop : forall r i, matches s (RStar r) i i
| MStarStep : forall r i j k,
    matches s r i j -> i < j -> matches s (RStar r) j k ->
    matches s (RStar r) i k
| MGroup : forall idx r i j, matches s r i j -> matches s (RGroup idx r) i j
| MBehind : forall p i ch,
    nth_error s i = Some ch -> p ch = true ->
    matches s (RBehind p) (S i) (S i)
| MStart : matches s RStart 0 0
| MEnd : matches s REnd (length s) (length s).

(** The characters of [s] from [i] to [j] are white space. *)
Definition blank_between (s : jsstring) (i j : nat) : Prop :=
  strip_ws (substring i j s) = [].

(** [undefined] joins as the empty string. *)
Definition piece_text (o : option jsstring) : jsstring := or_default o [].

(* ================================================================== *)
(** ** Outcomes and the identifier supply *)
(* ================================================================== *)

Inductive JSError : Type := TypeError.

(** What a call does: return a value, throw, or never return (the model's
    fuel ran out). *)
Inductive outcome (A : Type) : Type :=
| Ok (a : A)
| Throws (e : JSError)
| OutOfFuel.
Arguments Ok {A} a.
Arguments Throws {A} e.
Arguments OutOfFuel {A}.

(** A computation that may call [generateId]: it receives the number of
    calls made so far and returns the new count with its value. *)
Definition M (A : Type) : Type := nat -> outcome (A * nat).

Definition ret {A : Type} (a : A) : M A := fun n => Ok (a, n).
Definition throw {A : Type} (e : JSError) : M A := fun _ => Throws e.
Definition diverge {A : Type} : M A := fun _ => OutOfFuel.
Definition bind {A B : Type} (m : M A) (f : A -> M B) : M B :=
  fun n =>
    match m n with
    | Ok (a, n') => f a n'
    | Throws e => Throws e
    | OutOfFuel => OutOfFuel
    end.

Notation "x <- m ;; k" := (bind m (fun x => k))
  (at level 61, m at next level, right associativity).

(* ================================================================== *)
(** ** Data model *)
(* ================================================================== *)

Module Word.
Record WordTimestamp : Type := mk {
  word : jsstring;
  startTime : JSNum;
  endTime : JSNum;
  confidence : option JSNum
}.
End Word.
Abbreviation WordTimestamp := Word.WordTimestamp.

Module STT.
Record STTResult : Type := mk {
  fullText : jsstring;
  words : list WordTimestamp;
  duration : JSNum;
  language : option jsstring
}.
End STT.
Abbreviation STTResult := STT.STTResult.

Module Seg.
Record SubtitleSegment : Type := mk {
  id : jsstring;
  text : jsstring;
  startTime : JSNum;
  endTime : JSNum;
  words : list WordTimestamp;
  duration : JSNum
}.
End Seg.
Abbreviation SubtitleSegment := Seg.SubtitleSegment.

(** [SplitterOptions]: every field may be absent. *)
Module Partial.
Record SplitterOptions : Type := mk {
  minDuration : option JSNum;
  targetDuration : option JSNum;
  maxDuration : option JSNum;
  maxCharacters : option JSNum;
  sentenceDelimiters : option RegExp;
  naturalBreakPattern : option RegExp
}.
(** [{}], the default value of the [options] argument. *)
Definition empty : SplitterOptions := mk None None None None None None.
End Partial.
Abbreviation SplitterOptions := Partial.SplitterOptions.

(** [Required<SplitterOptions>] *)
Module Opts.
Record RequiredOptions : Type := mk {
  minDuration : JSNum;
  targetDuration : JSNum;
  maxDuration : JSNum;
  maxCharacters : JSNum;
  sentenceDelimiters : RegExp;
  naturalBreakPattern : RegExp
}.
End Opts.
Abbreviation RequiredOptions := Opts.RequiredOptions.

Definition DEFAULT_OPTIONS : RequiredOptions :=
  Opts.mk (Fin (3 # 2)) (Fin (5 # 2)) (Fin (7 # 2)) (Fin 50)
          DEFAULT_sentenceDelimiters DEFAULT_naturalBreakPattern.

(** [{ ...DEFAULT_OPTIONS, ...options }], for an [options] object in which a
    field is either absent or holds a value. *)
Definition with_defaults (options : SplitterOptions) : RequiredOptions :=
  Opts.mk
    (or_default (Partial.minDuration options) (Opts.minDuration DEFAULT_OPTIONS))
    (or_default (Partial.targetDuration options) (Opts.targetDuration DEFAULT_OPTIONS))
    (or_default (Partial.maxDuration options) (Opts.maxDuration DEFAULT_OPTIONS))
    (or_default (Partial.maxCharacters options) (Opts.maxCharacters DEFAULT_OPTIONS))
    (or_default (Partial.sentenceDelimiters options)
                (Opts.sentenceDelimiters DEFAULT_OPTIONS))
    (or_default (Partial.naturalBreakPattern options)
                (Opts.naturalBreakPattern DEFAULT_OPTIONS)).

(** The argument object of [checkShouldSplit]. *)
Module Params.
Record SplitCheckParams : Type := mk {
  currentDuration : JSNum;
  currentCharCount : JSNum;
  currentText : jsstring;
  word : WordTimestamp;
  nextWord : option WordTimestamp;
  opts : RequiredOptions
}.
End Params.
Abbreviation SplitCheckParams := Params.SplitCheckParams.

(* ================================================================== *)
(** ** The word-stream segmenter *)
(* ================================================================== *)

Definition checkShouldSplit (p : SplitCheckParams) : bool :=
  let currentDuration := Params.currentDuration p in
  let opts := Params.opts p in
  let word := Params.word p in
  match Params.nextWord p with
  | None => true
  | Some nextWord =>
      let nextGap := (Word.startTime nextWord - Word.endTime word)%js in
      if (currentDuration >=? Opts.maxDuration opts)%js then true
      else if (Params.currentCharCount p >=? Opts.maxCharacters opts)%js then true
      else
        let isSentenceEnd :=
          regexp_test (Opts.sentenceDelimiters opts) (Word.word word)
          || regexp_test KOREAN_SENTENCE_ENDINGS (Word.word word) in
        if isSentenceEnd && (currentDuration >=? Opts.minDuration opts)%js then true
        else
          let isNaturalBreak :=
            regexp_test (Opts.naturalBreakPattern opts) (Params.currentText p) in
          if isNaturalBreak && (currentDuration >=? Opts.targetDuration opts)%js
          then true
          else if (nextGap >=? Fin (1 # 2))%js
                  && (currentDuration >=? Opts.minDuration opts)%js then true
          else if (currentDuration >=? Opts.targetDuration opts)%js then
            let startsNewClause :=
              regexp_test CLAUSE_START (Word.word nextWord) in
            if startsNewClause then true else false
          else false
  end.

Section WithIds.

(** [id_of_call n] is what the call number [n] of [generateId] returns. *)
Variable id_of_call : nat -> jsstring.

Definition generateId : M jsstring := fun n => Ok (id_of_call n, S n).

(** [words.map(w => w.word).join(' ')] *)
Definition words_text (ws : list WordTimestamp) : jsstring :=
  join space (map Word.word ws).

Definition createSegment (words : list WordTimestamp) (startTime : JSNum)
    : M SubtitleSegment :=
  let text := trim (words_text words) in
  match nth_error words (length words - 1) with
  | None => throw TypeError          (* words[-1] is undefined *)
  | Some lastWord =>
      let endTime := Word.endTime lastWord in
      id <- generateId ;;
      ret (Seg.mk id text startTime endTime words (endTime - startTime)%js)
  end.

(** *** [mergeShortSegments] *)

Definition merged_segment (id : jsstring) (current next : SubtitleSegment)
    : SubtitleSegment :=
  Seg.mk id
         (trim (Seg.text current ++ space ++ Seg.text next))
         (Seg.startTime current)
         (Seg.endTime next)
         (Seg.words current ++ Seg.words next)
         (Seg.endTime next - Seg.startTime current)%js.

(** The test of the [if] in the loop, for a [next] that exists. *)
Definition should_merge (opts : RequiredOptions)
    (current next : SubtitleSegment) : bool :=
  (Seg.duration current <? Opts.minDuration opts)%js
  && (Seg.duration current + Seg.duration next <=? Opts.maxDuration opts)%js.

(** The [while (i < segments.length)] loop; one unit of fuel per test of the
    loop condition. *)
Fixpoint merge_loop (fuel : nat) (segments : list SubtitleSegment)
    (opts : RequiredOptions) (i : nat) (result : list SubtitleSegment)
    : M (list SubtitleSegment) :=
  match fuel with
  | O => diverge
  | S fuel' =>
      match nth_error segments i with
      | None => ret result                      (* i >= segments.length *)
      | Some current =>
          match nth_error segments (i + 1) with
          | Some next =>
              if should_merge opts current next then
                id <- generateId ;;
                merge_loop fuel' segments opts (i + 2)
                           (result ++ [merged_segment id current next])
              else merge_loop fuel' segments opts (i + 1) (result ++ [current])
          | None => merge_loop fuel' segments opts (i + 1) (result ++ [current])
          end
      end
  end.

Definition mergeShortSegments (segments : list SubtitleSegment)
    (opts : RequiredOptions) : M (list SubtitleSegment) :=
  if length segments <=? 1 then ret segments
  else merge_loop (S (length segments)) segments opts 0 [].

(** *** [splitSubtitles] *)

(** The variables the [for] loop updates. *)
Record ScanState : Type := mkScan {
  segments : list SubtitleSegment;
  currentWords : list WordTimestamp;
  currentStartTime : JSNum
}.

(** The argument of [checkShouldSplit] at a word, once the word is pushed on
    the buffer. *)
Definition split_params (opts : RequiredOptions)
    (currentWords : list WordTimestamp) (currentStartTime : JSNum)
    (word : WordTimestamp) (nextWord : option WordTimestamp)
    : SplitCheckParams :=
  let currentText := words_text currentWords in
  Params.mk (Word.endTime word - currentStartTime)%js
            (num_of_nat (length (strip_ws currentText)))
            currentText word nextWord opts.

(** The body of the loop at index [i]. *)
Definition scan_step (opts : RequiredOptions) (words : list WordTimestamp)
    (i : nat) (word : WordTimestamp) (st : ScanState) : M ScanState :=
  let nextWord := nth_error words (i + 1) in
  let currentWords := currentWords st ++ [word] in
  let shouldSplit :=
    checkShouldSplit
      (split_params opts currentWords (currentStartTime st) word nextWord) in
  if shouldSplit then
    seg <- createSegment currentWords (currentStartTime st) ;;
    ret (mkScan (segments st ++ [seg]) []
                (match nextWord with
                 | Some nw => Word.startTime nw
                 | None => currentStartTime st
                 end))
  else ret (mkScan (segments st) currentWords (currentStartTime st)).

(** [for (let i = 0; i < words.length; i++)], with [n] the number of
    iterations left. *)
Fixpoint scan_loop (n : nat) (opts : RequiredOptions)
    (words : list WordTimestamp) (i : nat) (st : ScanState) : M ScanState :=
  match n with
  | O => ret st
  | S n' =>
      match nth_error words i with
      | None => ret st                          (* i >= words.length *)
      | Some word =>
          st' <- scan_step opts words i word st ;;
          scan_loop n' opts words (S i) st'
      end
  end.

(** The segments before the merge pass: the loop and the final flush. *)
Definition scanWords (words : list WordTimestamp) (opts : RequiredOptions)
    : M (list SubtitleSegment) :=
  match nth_error words 0 with
  | None => throw TypeError                     (* words[0] is undefined *)
  | Some first =>
      st <- scan_loop (length words) opts words 0
                      (mkScan [] [] (Word.startTime first)) ;;
      if 0 <? length (currentWords st) then
        seg <- createSegment (currentWords st) (currentStartTime st) ;;
        ret (segments st ++ [seg])
      else ret (segments st)
  end.

Definition splitSubtitles (sttResult : STTResult) (options : SplitterOptions)
    : M (list SubtitleSegment) :=
  let opts := with_defaults options in
  let words := STT.words sttResult in
  if length words =? 0 then ret []
  else
    segments <- scanWords words opts ;;
    mergeShortSegments segments opts.

(** *** The duration-based path *)

Definition of_option {A : Type} (o : option A) : M A :=
  match o with Some a => ret a | None => diverge end.

(** [.map(s => s.trim())] on the result of a [split]; reading [trim] of
    [undefined] throws. *)
Fixpoint trim_all (l : list (option jsstring)) : M (list jsstring) :=
  match l with
  | [] => ret []
  | None :: _ => throw TypeError
  | Some p :: rest => r <- trim_all rest ;; ret (trim p :: r)
  end.

Definition splitIntoSentences (text : jsstring) : M (list jsstring) :=
  pieces <- of_option (regexp_split SENTENCE_SPLIT text) ;;
  trimmed <- trim_all pieces ;;
  ret (filter (fun s => 0 <? length s) trimmed).

(** [.filter(p => p.trim().length > 0)] on the result of a [split]. *)
Fixpoint filter_nonblank (l : list (option jsstring)) : M (list jsstring) :=
  match l with
  | [] => ret []
  | None :: _ => throw TypeError
  | Some p :: rest =>
      r <- filter_nonblank rest ;;
      ret (if 0 <? length (trim p) then p :: r else r)
  end.

(** [s.split(/\s+/)], as the array of strings [join] sees. *)
Definition split_words (s : jsstring) : M (list jsstring) :=
  pieces <- of_option (regexp_split WHITESPACE_RUN s) ;;
  ret (map (fun o => or_default o []) pieces).

(** ToIntegerOrInfinity followed by the clamping of a relative index of
    [Array.prototype.slice]. *)
Definition slice_index (len : nat) (a : JSNum) : nat :=
  match a with
  | S754_nan | S754_zero _ | S754_infinity true => 0
  | S754_infinity false => len
  | S754_finite _ _ _ =>
      let z := num_trunc a in
      if (z <? 0)%Z then Z.to_nat (Z.of_nat len + z)
      else Z.to_nat (Z.min z (Z.of_nat len))
  end.

(** [a.slice(from, to)] *)
Definition js_slice {A : Type} (a : list A) (from to : JSNum) : list A :=
  let k := slice_index (length a) from in
  let final := slice_index (length a) to in
  firstn (final - k) (skipn k a).

Definition untimed_segment (id text : jsstring) (startTime duration : JSNum)
    : SubtitleSegment :=
  Seg.mk id text startTime (startTime + duration)%js [] duration.

(** The loop of [splitByWordCount]; one unit of fuel per test of the loop
    condition. *)
Fixpoint word_count_loop (fuel : nat) (words : list jsstring)
    (durationPerWord wordsPerSegment : JSNum) (i currentTime : JSNum)
    (segments : list SubtitleSegment) : M (list SubtitleSegment) :=
  match fuel with
  | O => diverge
  | S fuel' =>
      if (i <? num_of_nat (length words))%js then
        let segmentWords := js_slice words i (i + wordsPerSegment)%js in
        let segmentDuration :=
          (num_of_nat (length segmentWords) * durationPerWord)%js in
        id <- generateId ;;
        word_count_loop fuel' words durationPerWord wordsPerSegment
          (i + wordsPerSegment)%js (currentTime + segmentDuration)%js
          (segments ++ [untimed_segment id (trim (join space segmentWords))
                                        currentTime segmentDuration])
      else ret segments
  end.

Definition splitByWordCount (words : list jsstring)
    (startTime totalDuration : JSNum) (opts : RequiredOptions)
    : M (list SubtitleSegment) :=
  let totalWords := num_of_nat (length words) in
  let durationPerWord := (totalDuration / totalWords)%js in
  let wordsPerSegment :=
    num_ceil (Opts.targetDuration opts / durationPerWord)%js in
  word_count_loop (S (length words)) words durationPerWord wordsPerSegment
                  num_zero startTime [].

(** [for (const part of parts)] in [splitLongSentence]. *)
Fixpoint long_sentence_loop (parts : list jsstring)
    (totalChars totalDuration : JSNum) (opts : RequiredOptions)
    (currentTime : JSNum) (segments : list SubtitleSegment)
    : M (list SubtitleSegment) :=
  match parts with
  | [] => ret segments
  | part :: rest =>
      let partChars := num_of_nat (length (strip_ws part)) in
      let partDuration := ((partChars / totalChars) * totalDuration)%js in
      segments' <-
        (if (partDuration >? Opts.maxDuration opts)%js then
           words <- split_words part ;;
           subSegments <- splitByWordCount words currentTime partDuration opts ;;
           ret (segments ++ subSegments)
         else
           id <- generateId ;;
           ret (segments ++ [untimed_segment id (trim part) currentTime
                                             partDuration])) ;;
      long_sentence_loop rest totalChars totalDuration opts
                         (currentTime + partDuration)%js segments'
  end.

(** [sentence.split(opts.naturalBreakPattern).filter(p => p.trim().length > 0)] *)
Definition natural_parts (sentence : jsstring) (opts : RequiredOptions)
    : M (list jsstring) :=
  pieces <- of_option (regexp_split (Opts.naturalBreakPattern opts) sentence) ;;
  filter_nonblank pieces.

Definition splitLongSentence (sentence : jsstring)
    (startTime totalDuration : JSNum) (opts : RequiredOptions)
    : M (list SubtitleSegment) :=
  parts <- natural_parts sentence opts ;;
  if length parts <=? 1 then
    words <- split_words sentence ;;
    splitByWordCount words startTime totalDuration opts
  else
    let totalChars := num_of_nat (length (strip_ws sentence)) in
    long_sentence_loop parts totalChars totalDuration opts startTime [].

(** [for (const sentence of sentences)] in [splitTextByDuration]. *)
Fixpoint sentence_loop (sentences : list jsstring) (charPerSecond : JSNum)
    (opts : RequiredOptions) (currentTime : JSNum)
    (segments : list SubtitleSegment) : M (list SubtitleSegment) :=
  match sentences with
  | [] => ret segments
  | sentence :: rest =>
      let sentenceChars := num_of_nat (length (strip_ws sentence)) in
      let estimatedDuration := (sentenceChars / charPerSecond)%js in
      segments' <-
        (if (estimatedDuration >? Opts.maxDuration opts)%js then
           subSegments <-
             splitLongSentence sentence currentTime estimatedDuration opts ;;
           ret (segments ++ subSegments)
         else
           id <- generateId ;;
           ret (segments ++ [untimed_segment id (trim sentence) currentTime
                                             estimatedDuration])) ;;
      sentence_loop rest charPerSecond opts
                    (currentTime + estimatedDuration)%js segments'
  end.

Definition splitTextByDuration (text : jsstring) (totalDuration : JSNum)
    (options : SplitterOptions) : M (list SubtitleSegment) :=
  let opts := with_defaults options in
  sentences <- splitIntoSentences text ;;
  if length sentences =? 0 then ret []
  else
    let totalChars := num_of_nat (length (strip_ws text)) in
    let charPerSecond := (totalChars / totalDuration)%js in
    segments <- sentence_loop sentences charPerSecond opts num_zero [] ;;
    mergeShortSegments segments opts.

End WithIds.

(* ================================================================== *)
(** ** Timing re-normalisation *)
(* ================================================================== *)

(** [seg.text.replace(/\s/g, '').length] *)
Definition segment_chars (seg : SubtitleSegment) : JSNum :=
  num_of_nat (length (strip_ws (Seg.text seg))).

(** The callback of [segments.map] with the captured [currentTime] made
    explicit. *)
Fixpoint retime (segments : list SubtitleSegment)
    (totalChars totalDuration currentTime : JSNum) : list SubtitleSegment :=
  match segments with
  | [] => []
  | segment :: rest =>
      let segmentChars := segment_chars segment in
      let segmentDuration := ((segmentChars / totalChars) * totalDuration)%js in
      let updated :=
        Seg.mk (Seg.id segment) (Seg.text segment) currentTime
               (currentTime + segmentDuration)%js (Seg.words segment)
               segmentDuration in
      updated :: retime rest totalChars totalDuration
                        (currentTime + segmentDuration)%js
  end.

Definition recalculateTimings (segments : list SubtitleSegment)
    (totalDuration : JSNum) : list SubtitleSegment :=
  if length segments =? 0 then []
  else
    let totalChars :=
      fold_left (fun sum seg => (sum + segment_chars seg)%js) segments num_zero in
    retime segments totalChars totalDuration num_zero.

(* ================================================================== *)
(** ** What the claims say *)
(* ================================================================== *)

(** *** The merger *)

(** The pass of section 4.2 written over the remaining segments: the pair at
    the head is fused by [fuse] when [should_merge] holds and the pass goes
    on after the pair, otherwise the head is kept and the pass goes on with
    the next segment.  [n] counts the identifiers drawn. *)
Section GreedyPass.

Variable id_of_call : nat -> jsstring.
Variable fuse : jsstring -> SubtitleSegment -> SubtitleSegment -> SubtitleSegment.
Variable opts : RequiredOptions.

Fixpoint greedy_pass (segs : list SubtitleSegment) (n : nat)
    : list SubtitleSegment * nat :=
  match segs with
  | [] => ([], n)
  | current :: tl =>
      match tl with
      | [] => ([current], n)
      | next :: rest =>
          if should_merge opts current next then
            let (r, n') := greedy_pass rest (S n) in
            (fuse (id_of_call n) current next :: r, n')
          else
            let (r, n') := greedy_pass tl n in
            (current :: r, n')
      end
  end.

End GreedyPass.

(** The fused segment as section 4.2 words it: the two texts joined by one
    space, the outer times, both word lists, a fresh identifier. *)
Definition spec_merged_segment (id : jsstring) (current next : SubtitleSegment)
    : SubtitleSegment :=
  Seg.mk id
         (Seg.text current ++ space ++ Seg.text next)
         (Seg.startTime current)
         (Seg.endTime next)
         (Seg.words current ++ Seg.words next)
         (Seg.endTime next - Seg.startTime current)%js.

(** The merger as section 4.2 words it. *)
Definition spec_mergeShort (id_of_call : nat -> jsstring)
    (segs : list SubtitleSegment) (opts : RequiredOptions) (n : nat)
    : list SubtitleSegment * nat :=
  if length segs <=? 1 then (segs, n)
  else greedy_pass id_of_call spec_merged_segment opts segs n.

(** The same wording with the text of a fused segment trimmed. *)
Definition trimmed_merged_segment (id : jsstring)
    (current next : SubtitleSegment) : SubtitleSegment :=
  let m := spec_merged_segment id current next in
  Seg.mk (Seg.id m) (trim (Seg.text m)) (Seg.startTime m) (Seg.endTime m)
         (Seg.words m) (Seg.duration m).

Definition trimmed_mergeShort (id_of_call : nat -> jsstring)
    (segs : list SubtitleSegment) (opts : RequiredOptions) (n : nat)
    : list SubtitleSegment * nat :=
  if length segs <=? 1 then (segs, n)
  else greedy_pass id_of_call trimmed_merged_segment opts segs n.

(** From the start of a segment to the end of the next one there is not
    more than the sum of their two durations, as the code computes both: no
    silence between the two that their durations do not count, and no
    excess by rounding. *)
Fixpoint spans_within_sums (segs : list SubtitleSegment) : Prop :=
  match segs with
  | a :: tl =>
      match tl with
      | b :: _ =>
          (Seg.endTime b - Seg.startTime a <=? Seg.duration a + Seg.duration b)%js
            = true /\
          spans_within_sums tl
      | [] => True
      end
  | [] => True
  end.

Definition under_ceiling (opts : RequiredOptions) (s : SubtitleSegment) : Prop :=
  (Seg.duration s <=? Opts.maxDuration opts)%js = true.

(** The merger keeps every output segment under [maxDuration]. *)
Definition merge_respects_ceiling (id_of_call : nat -> jsstring)
    (segs : list SubtitleSegment) (opts : RequiredOptions) : Prop :=
  forall n out n',
    mergeShortSegments id_of_call segs opts n = Ok (out, n') ->
    Forall (under_ceiling opts) out.

(** *** The word-stream segmenter *)

(** The conditions of the split policy at the word of index [i], with
    [buffered] the buffer once the word is pushed and [start] the start of
    the current segment. *)
Definition split_conditions (opts : RequiredOptions)
    (words : list WordTimestamp) (i : nat) (word : WordTimestamp)
    (buffered : list WordTimestamp) (start : JSNum) : Prop :=
  let elapsed := (Word.endTime word - start)%js in
  let text := words_text buffered in
  (* the word is the last in the stream *)
  S i = length words
  \/ (elapsed >=? Opts.maxDuration opts)%js = true
  \/ (num_of_nat (length (strip_ws text)) >=? Opts.maxCharacters opts)%js = true
  \/ ((regexp_test (Opts.sentenceDelimiters opts) (Word.word word) = true \/
       regexp_test KOREAN_SENTENCE_ENDINGS (Word.word word) = true) /\
      (elapsed >=? Opts.minDuration opts)%js = true)
  \/ (regexp_test (Opts.naturalBreakPattern opts) text = true /\
      (elapsed >=? Opts.targetDuration opts)%js = true)
  \/ (exists next, nth_error words (S i) = Some next /\
        (Word.startTime next - Word.endTime word >=? Fin (1 # 2))%js = true /\
        (elapsed >=? Opts.minDuration opts)%js = true)
  \/ ((elapsed >=? Opts.targetDuration opts)%js = true /\
      (* the next word begins with a clause-starting word *)
      exists next, nth_error words (S i) = Some next /\
        existsb (fun c => occurs_at c (Word.word next) 0) clause_starters
        = true).

(** The segment has at most [maxDuration] seconds and at most
    [maxCharacters] characters other than white space. *)
Definition within_ceilings (opts : RequiredOptions) (seg : SubtitleSegment)
    : Prop :=
  (Seg.duration seg <=? Opts.maxDuration opts)%js = true /\
  (num_of_nat (length (strip_ws (Seg.text seg))) <=?
     Opts.maxCharacters opts)%js = true.

(** The last word of the segment lasts longer than [maxDuration]. *)
Definition overlong_last_word (opts : RequiredOptions) (seg : SubtitleSegment)
    : Prop :=
  exists pre w,
    Seg.words seg = pre ++ [w] /\
    (Word.endTime w - Word.startTime w >? Opts.maxDuration opts)%js = true.

(** Every segment before the merge pass is within the ceilings, unless it
    holds a single word, ends on a word that is itself over [maxDuration],
    or is the final segment. *)
Definition hard_ceilings_pre_merge (id_of_call : nat -> jsstring)
    (words : list WordTimestamp) (opts : RequiredOptions) : Prop :=
  forall n segs n',
    scanWords id_of_call words opts n = Ok (segs, n') ->
    forall k seg,
      nth_error segs k = Some seg ->
      within_ceilings opts seg \/
      length (Seg.words seg) = 1 \/
      overlong_last_word opts seg \/
      S k = length segs.

(** The ceilings are not reached at word [w], the last word of the
    buffer [buf] of a segment started at [start]. *)
Definition below_ceilings (opts : RequiredOptions) (start : JSNum)
    (buf : list WordTimestamp) (w : WordTimestamp) : Prop :=
  (Word.endTime w - start >=? Opts.maxDuration opts)%js = false /\
  (num_of_nat (length (strip_ws (words_text buf))) >=?
     Opts.maxCharacters opts)%js = false.

(** No word of the segment other than its last reaches a ceiling. *)
Definition ceilings_before_last (opts : RequiredOptions)
    (seg : SubtitleSegment) : Prop :=
  forall pre w rest,
    Seg.words seg = pre ++ w :: rest -> rest <> [] ->
    below_ceilings opts (Seg.startTime seg) (pre ++ [w]) w.

(** No word of the buffer reaches a ceiling. *)
Definition buffer_below (opts : RequiredOptions) (start : JSNum)
    (buf : list WordTimestamp) : Prop :=
  forall pre w rest,
    buf = pre ++ w :: rest -> below_ceilings opts start (pre ++ [w]) w.

(** The two invariants of the scan: the words of the closed segments
    followed by the buffer are the first [i] words; the closed segments and
    the buffer reach a ceiling at their last word only. *)
Definition covers (words : list WordTimestamp) (i : nat) (st : ScanState)
    : Prop :=
  concat (map Seg.words (segments st)) ++ currentWords st = firstn i words.

Definition ceilings_inv (opts : RequiredOptions) (st : ScanState) : Prop :=
  Forall (ceilings_before_last opts) (segments st) /\
  buffer_below opts (currentStartTime st) (currentWords st).

(** *** Timing re-normalisation *)

(** Characters other than white space in the text of a segment, and in the
    texts of a list of segments. *)
Definition chars_of (s : SubtitleSegment) : nat :=
  length (strip_ws (Seg.text s)).
Definition total_chars (segs : list SubtitleSegment) : nat :=
  list_sum (map chars_of segs).

Definition nat_Q (n : nat) : Q := inject_Z (Z.of_nat n).







(** *** The duration-based path *)

(** The sentences [splitIntoSentences] finds in a text. *)
Definition sentences_of (text : jsstring) : list jsstring :=
  match regexp_split SENTENCE_SPLIT text with
  | Some pieces =>
      filter (fun s => 0 <? length s)
             (map (fun o => trim (piece_text o)) pieces)
  | None => []
  end.

(** The duration [splitTextByDuration] estimates for a sentence. *)
Definition estimated_duration (text : jsstring) (totalDuration : JSNum)
    (sentence : jsstring) : JSNum :=
  (num_of_nat (length (strip_ws sentence))
   / (num_of_nat (length (strip_ws text)) / totalDuration))%js.

Definition sum_durations (segs : list SubtitleSegment) : JSNum :=
  fold_right (fun s acc => (Seg.duration s + acc)%js) num_zero segs.



(** The exact value of a finite number. *)
Definition exact_value (a : JSNum) : option Q :=
  match a with
  | S754_zero _ => Some 0%Q
  | S754_finite s m e =>
      let v := Qred (inject_Z (Zpos m) * 2 ^ e)%Q in
      Some (if s then (- v)%Q else v)
  | _ => None
  end.

(** [mirrors D d x q]: [x] is computed in double arithmetic the way [q] is
    computed in exact arithmetic, both from the total duration ([D] as a
    double, [d] exactly) and from whole numbers.  What the two differ by is
    the rounding of the operations. *)
Inductive mirrors (D : JSNum) (d : Q) : JSNum -> Q -> Prop :=
| mirrors_total : mirrors D d D d
| mirrors_count : forall n, mirrors D d (num_of_nat n) (nat_Q n)
| mirrors_add : forall x y p q,
    mirrors D d x p -> mirrors D d y q -> mirrors D d (x + y)%js (p + q)%Q
| mirrors_sub : forall x y p q,
    mirrors D d x p -> mirrors D d y q -> mirrors D d (x - y)%js (p - q)%Q
| mirrors_mul : forall x y p q,
    mirrors D d x p -> mirrors D d y q -> mirrors D d (x * y)%js (p * q)%Q
| mirrors_div : forall x y p q,
    mirrors D d x p -> mirrors D d y q -> ~ (q == 0)%Q ->
    mirrors D d (x / y)%js (p / q)%Q
| mirrors_eq : forall x p q,
    mirrors D d x p -> (p == q)%Q -> mirrors D d x q.

(** The durations of the segments returned add up to the total duration up
    to the rounding of the operations: their sum in double arithmetic
    mirrors a sum that is exactly the total duration. *)
Definition durations_mirror_total (id_of_call : nat -> jsstring)
    (text : jsstring) (totalDuration : JSNum) (options : SplitterOptions)
    : Prop :=
  forall n, exists segs n' d,
    splitTextByDuration id_of_call text totalDuration options n = Ok (segs, n')
    /\ exact_value totalDuration = Some d
    /\ mirrors totalDuration d (sum_durations segs) d.

(** The segments follow one another from time [t0] to time [t1]: each
    starts where the one before it ends and ends at its start plus its
    duration, up to rounding. *)
Fixpoint chain (D : JSNum) (d : Q) (t0 : Q) (segs : list SubtitleSegment)
    (t1 : Q) : Prop :=
  match segs with
  | [] => (t0 == t1)%Q
  | s :: rest =>
      exists b dur : Q,
        mirrors D d (Seg.startTime s) t0 /\
        mirrors D d (Seg.endTime s) b /\
        mirrors D d (Seg.duration s) dur /\
        (b == t0 + dur)%Q /\ chain D d b rest t1
  end.

(** Every match of the pattern in [s] spans white space only. *)
Definition blank_matches (re : RegExp) (s : jsstring) : Prop :=
  forall q e, matches s (pattern re) q e -> blank_between s q e.

(** Characters other than white space in a list of strings. *)
Definition chars_sum (l : list jsstring) : nat :=
  list_sum (map (fun s => length (strip_ws s)) l).

(** The estimated durations of the sentences, added up, at [cps]
    characters per second. *)
Definition est_sum (cps : Q) (sentences : list jsstring) : Q :=
  fold_right (fun s acc => (nat_Q (length (strip_ws s)) / cps + acc)%Q) 0%Q
             sentences.

(** The words [split_words] finds in a string. *)
Definition words_of (s : jsstring) : list jsstring :=
  match regexp_split WHITESPACE_RUN s with
  | Some pieces => map piece_text pieces
  | None => []
  end.

(** The cut by word count of [words] over [duration] advances by a whole
    number of words, at least one: [wordsPerSegment], as the code computes
    it, is the double of a natural number from 1 on (and the indices stay
    below [2^53]). *)
Definition whole_steps (opts : RequiredOptions) (words : list jsstring)
    (duration : JSNum) : Prop :=
  exists w,
    1 <= w /\ (Z.of_nat (length words + w) < 2 ^ 53)%Z /\
    num_ceil (Opts.targetDuration opts
              / (duration / num_of_nat (length words)))%js
    = num_of_nat w.

(** The share of a part of a sentence, as [splitLongSentence] computes
    it. *)
Definition part_duration (sentence : jsstring) (totalDuration : JSNum)
    (part : jsstring) : JSNum :=
  (num_of_nat (length (strip_ws part))
   / num_of_nat (length (strip_ws sentence)) * totalDuration)%js.

(** The cut of a long sentence keeps its time: the parts found at the
    natural breaks hold every character of the sentence other than white
    space (none is lost with a separator, no part is [undefined]), and every
    cut by word count advances by whole steps. *)
Definition cut_keeps_time (opts : RequiredOptions) (sentence : jsstring)
    (totalDuration : JSNum) : Prop :=
  exists parts,
    (forall n, natural_parts sentence opts n = Ok (parts, n)) /\
    if length parts <=? 1
    then whole_steps opts (words_of sentence) totalDuration
    else
      chars_sum parts = length (strip_ws sentence) /\
      forall part, In part parts ->
        0 < length (trim part) /\
        ((part_duration sentence totalDuration part
          >? Opts.maxDuration opts)%js = true ->
         whole_steps opts (words_of part)
                     (part_duration sentence totalDuration part)).

(** *** Concrete inputs *)

(** An identifier supply: ["seg_0"], ["seg_1"], ... *)
Definition demo_ids (n : nat) : jsstring := js "seg_" ++ [N.of_nat (48 + n)].

Definition demo_word (w : String.string) (startTime endTime : Q)
    : WordTimestamp :=
  Word.mk (js w) (Fin startTime) (Fin endTime) None.
Arguments demo_word w%_string_scope (startTime endTime)%_Q_scope.

Definition demo_segment (text : String.string) (startTime endTime : Q)
    : SubtitleSegment :=
  Seg.mk (js "in") (js text) (Fin startTime) (Fin endTime) []
         (Fin (endTime - startTime)%Q).
Arguments demo_segment text%_string_scope (startTime endTime)%_Q_scope.

(** Three words, a silence of four seconds after the first. *)
Definition words_with_silence : list WordTimestamp :=
  [demo_word "a" 0 1; demo_word "b" 5 6; demo_word "c" 6 7].

(** A word of fifty characters, then a word after two seconds of silence. *)
Definition words_long_token : list WordTimestamp :=
  [demo_word "aaaaaaaaaaaaaaaaaaaaaaaaaaaaaaaaaaaaaaaaaaaaaaaaaa" 0 1;
   demo_word "b" 3 5].

(** The words of the first scenario of section 8. *)
Definition words_hi_there : list WordTimestamp :=
  [demo_word "hi" 0 (3 # 10); demo_word "there" (3 # 10) (6 # 10);
   demo_word "how" (7 # 10) 1; demo_word "are" 1 (13 # 10);
   demo_word "you" (13 # 10) (16 # 10); demo_word "doing" (16 # 10) (32 # 10)].

(** A segment of six seconds followed by one of one second: what the
    segmenter hands to the merger for [words_with_silence]. *)
Definition segs_long_first : list SubtitleSegment :=
  [demo_segment "a b" 0 6; demo_segment "c" 6 7].

(** Two short segments that touch, 0.8 s and 0.9 s: the merger scenario of
    section 8. *)
Definition segs_short_pair : list SubtitleSegment :=
  [demo_segment "a" 0 (8 # 10); demo_segment "b" (8 # 10) (17 # 10)].

(** Two segments that touch, 0.57-0.7 s and 0.7-4.07 s, with the durations
    the segmenter gives them: end minus start. *)
Definition timed_segment (text : String.string) (startTime endTime : Q)
    : SubtitleSegment :=
  Seg.mk (js "in") (js text) (Fin startTime) (Fin endTime) []
         (Fin endTime - Fin startTime)%js.
Arguments timed_segment text%_string_scope (startTime endTime)%_Q_scope.
Definition segs_rounding : list SubtitleSegment :=
  [timed_segment "a" (57 # 100) (7 # 10);
   timed_segment "b" (7 # 10) (407 # 100)].

(** Two short segments two seconds apart. *)
Definition segs_with_gap : list SubtitleSegment :=
  [demo_segment "a" 0 1; demo_segment "b" 3 5].

(** A segment without text followed by a short one. *)
Definition segs_empty_text : list SubtitleSegment :=
  [demo_segment "" 0 1; demo_segment "b" 1 2].

(** Segments edited down to nothing: one empty text, one blank text. *)
Definition segs_blank : list SubtitleSegment :=
  [demo_segment "" 0 2; demo_segment " " 2 4].

(** Three segments of two, two and one characters. *)
Definition segs_edited : list SubtitleSegment :=
  [demo_segment "ab" 0 1; demo_segment "c d" 1 2; demo_segment "e" 2 3].


(** A comma as [naturalBreakPattern]: [/,/]. *)
Definition COMMA : RegExp := mkRegExp (RLit (js ",")) 0.
Definition comma_options : SplitterOptions :=
  Partial.mk None None None None None (Some COMMA).

Definition text_with_comma : jsstring := js "aaaa,bbbb".
Definition text_two_sentences : jsstring :=
  [0xC548; 0xB155; 0xD558; 0xC138; 0xC694; 0x002E; 0x0020;
   0xBC18; 0xAC11; 0xC2B5; 0xB2C8; 0xB2E4; 0x002E]%N.

(** Two words joined by the conjunction "그리고". *)
Definition text_with_conjunction : jsstring :=
  js "aaaa " ++ [0xADF8; 0xB9AC; 0xACE0]%N ++ js " bbbb".

(** Two sentences of seventeen characters, the first with a comma. *)
Definition text_two_halves : jsstring :=
  js "aaaaaaaa,bbbbbbb. cccccccccccccccc.".

(* ================================================================== *)
(** ** What the further properties say *)

(** The segment holds at least one word, starts when its first word starts,
    ends when its last word ends, and lasts the difference. *)
Definition spans_its_words (seg : SubtitleSegment) : Prop :=
  exists first last,
    nth_error (Seg.words seg) 0 = Some first /\
    nth_error (Seg.words seg) (length (Seg.words seg) - 1) = Some last /\
    Seg.startTime seg = Word.startTime first /\
    Seg.endTime seg = Word.endTime last /\
    Seg.duration seg = (Seg.endTime seg - Seg.startTime seg)%js.

(** The start of the segment being built is the start of its first word:
    of the first word of the buffer, or, for an empty buffer, of the word of
    index [i]. *)
Definition start_inv (words : list WordTimestamp) (i : nat) (st : ScanState)
    : Prop :=
  Forall spans_its_words (segments st) /\
  match currentWords st with
  | [] => forall w, nth_error words i = Some w ->
                    currentStartTime st = Word.startTime w
  | first :: _ => currentStartTime st = Word.startTime first
  end.

(** No word ends before it starts or starts before the word before it
    ends. *)
Fixpoint chronological (ws : list WordTimestamp) : Prop :=
  match ws with
  | [] => True
  | w :: rest =>
      (Word.startTime w <=? Word.endTime w)%js = true /\
      match rest with
      | [] => True
      | w' :: _ => (Word.endTime w <=? Word.startTime w')%js = true
      end /\
      chronological rest
  end.

(** No segment ends before it starts or starts before the segment before it
    ends. *)
Fixpoint in_order (segs : list SubtitleSegment) : Prop :=
  match segs with
  | [] => True
  | s :: rest =>
      (Seg.startTime s <=? Seg.endTime s)%js = true /\
      match rest with
      | [] => True
      | s' :: _ => (Seg.endTime s <=? Seg.startTime s')%js = true
      end /\
      in_order rest
  end.

(** The text of the segment, white space removed, is the words of the
    segment, white space removed, one after the other. *)
Definition text_of_its_words (seg : SubtitleSegment) : Prop :=
  strip_ws (Seg.text seg)
  = concat (map (fun w => strip_ws (Word.word w)) (Seg.words seg)).



(** [s] holds one of the characters [, ， 、 : ;]. *)
Definition has_break_mark (s : jsstring) : bool :=
  existsb (in_class break_marks) s.

(** No character of [s] from [i] to [j] is a break mark. *)
Definition unmarked (s : jsstring) (i j : nat) : Prop :=
  forall k ch, i <= k < j -> nth_error s k = Some ch ->
               in_class break_marks ch = false.

(** [generateId] never returns the same identifier twice. *)
Definition fresh_ids (id_of_call : nat -> jsstring) : Prop :=
  forall a b, id_of_call a = id_of_call b -> a = b.

(** *** The speech-to-text service, [src/lib/sttService.ts] *)

(** [WhisperWord] *)
Module WWord.
Record WhisperWord : Type := mk {
  word : jsstring;
  start : JSNum;
  end_ : JSNum
}.
End WWord.
Abbreviation WhisperWord := WWord.WhisperWord.

(** [WhisperSegment], with the fields the conversion reads. *)
Module WSeg.
Record WhisperSegment : Type := mk {
  start : JSNum;
  end_ : JSNum;
  text : jsstring;
  no_speech_prob : JSNum
}.
End WSeg.
Abbreviation WhisperSegment := WSeg.WhisperSegment.

(** [WhisperResponse]; [segments] and [words] may be absent. *)
Module Whisper.
Record WhisperResponse : Type := mk {
  task : jsstring;
  language : jsstring;
  duration : JSNum;
  text : jsstring;
  segments : option (list WhisperSegment);
  words : option (list WhisperWord)
}.
End Whisper.
Abbreviation WhisperResponse := Whisper.WhisperResponse.

(** [s.trim().split(/\s+/).filter(w => w.length > 0)] *)
Definition spoken_words (s : jsstring) : list jsstring :=
  filter (fun w => 0 <? length w) (words_of (trim s)).

(** The callback of [forEach((word, index) => ...)] over the words from
    [index] on: each word lasts [wordDuration] and starts [index] times
    [wordDuration] after [base]. *)
Fixpoint spread_words (ws : list jsstring) (index : nat)
    (base wordDuration : JSNum) (confidence : JSNum) : list WordTimestamp :=
  match ws with
  | [] => []
  | word :: rest =>
      Word.mk word
              (base + num_of_nat index * wordDuration)%js
              (base + (num_of_nat index + num_of_nat 1) * wordDuration)%js
              (Some confidence)
      :: spread_words rest (S index) base wordDuration confidence
  end.

(** The words of one segment of the response. *)
Definition segment_words (timeOffset : JSNum) (segment : WhisperSegment)
    : list WordTimestamp :=
  let segmentWords := spoken_words (WSeg.text segment) in
  let segmentDuration := (WSeg.end_ segment - WSeg.start segment)%js in
  let wordDuration :=
    (segmentDuration / num_of_nat (length segmentWords))%js in
  spread_words segmentWords 0 (WSeg.start segment + timeOffset)%js
               wordDuration
               (num_of_nat 1 - WSeg.no_speech_prob segment)%js.

Definition convertWhisperToSTTResult (whisperResponse : WhisperResponse)
    (timeOffset : JSNum) : STTResult :=
  let words :=
    match Whisper.words whisperResponse with
    | Some (w :: ws) =>
        map (fun word =>
               Word.mk (trim (WWord.word word))
                       (WWord.start word + timeOffset)%js
                       (WWord.end_ word + timeOffset)%js
                       (Some (num_of_nat 1)))
            (w :: ws)
    | _ =>
        match Whisper.segments whisperResponse with
        | Some (s :: ss) => flat_map (segment_words timeOffset) (s :: ss)
        | _ =>
            let allWords := spoken_words (Whisper.text whisperResponse) in
            let wordDuration :=
              (Whisper.duration whisperResponse
               / num_of_nat (length allWords))%js in
            spread_words allWords 0 timeOffset wordDuration (num_of_nat 1)
        end
    end in
  STT.mk (Whisper.text whisperResponse) words
         (Whisper.duration whisperResponse)
         (Some (Whisper.language whisperResponse)).

Definition mergeSTTResults (results : list STTResult) : STTResult :=
  match results with
  | [] => STT.mk [] [] num_zero None
  | [r] => r
  | r0 :: _ =>
      STT.mk (join space (map STT.fullText results))
             (flat_map STT.words results)
             (fold_left (fun sum r => (sum + STT.duration r)%js) results
                        num_zero)
             (STT.language r0)
  end.

(** One chunk of audio: what Whisper answered for it and where it starts. *)
Definition transcribed_chunks (chunks : list (WhisperResponse * JSNum))
    : STTResult :=
  mergeSTTResults
    (map (fun c => convertWhisperToSTTResult (fst c) (snd c)) chunks).

(** Every word but the first starts when the one before it ends. *)
Fixpoint back_to_back (ws : list WordTimestamp) : Prop :=
  match ws with
  | a :: tl =>
      match tl with
      | b :: _ => Word.startTime b = Word.endTime a /\ back_to_back tl
      | [] => True
      end
  | [] => True
  end.

(** ** General lemmas *)
(* ================================================================== *)

Lemma bind_ret_step : forall (A B : Type) (m : M A) (f : A -> M B) n a n1,
  m n = Ok (a, n1) -> bind m f n = f a n1.
Proof. intros A B m f n a n1 H. unfold bind. rewrite H. reflexivity. Qed.

Lemma nth_error_skipn_cons : forall (A : Type) (l : list A) i x,
  nth_error l i = Some x -> skipn i l = x :: skipn (S i) l.
Proof.
  intros A l. induction l as [|a l IH]; intros i x H.
  - destruct i; discriminate.
  - destruct i as [|i].
    + simpl in H. injection H as ->. reflexivity.
    + simpl in H. apply IH in H. simpl. exact H.
Qed.

Lemma skipn_cons_nth : forall (A : Type) (l : list A) i x t,
  skipn i l = x :: t -> nth_error l i = Some x /\ skipn (S i) l = t.
Proof.
  intros A l. induction l as [|a l IH]; intros i x t H.
  - rewrite skipn_nil in H. discriminate.
  - destruct i as [|i].
    + cbn in H. injection H as -> ->. split; reflexivity.
    + cbn in H. apply IH in H. exact H.
Qed.

Lemma skipn_nil_nth : forall (A : Type) (l : list A) i,
  skipn i l = [] -> nth_error l i = None.
Proof.
  intros A l. induction l as [|a l IH]; intros i H.
  - destruct i; reflexivity.
  - destruct i as [|i]; [discriminate|]. cbn in H |- *. apply IH. exact H.
Qed.

Lemma nth_error_snoc_last : forall (A : Type) (l : list A) x,
  nth_error (l ++ [x]) (length (l ++ [x]) - 1) = Some x.
Proof.
  intros A l x. rewrite length_app. simpl.
  replace (length l + 1 - 1) with (length l) by lia.
  rewrite nth_error_app2 by lia. rewrite Nat.sub_diag. reflexivity.
Qed.

Lemma firstn_succ_nth : forall (A : Type) (l : list A) i x,
  nth_error l i = Some x -> firstn (S i) l = firstn i l ++ [x].
Proof.
  intros A l. induction l as [|a l IH]; intros i x H.
  - destruct i; discriminate.
  - destruct i as [|i]; simpl in *.
    + injection H as ->. reflexivity.
    + f_equal. apply IH. exact H.
Qed.

(** Induction that follows the pass: two segments at a time. *)
Lemma pair_induction : forall (A : Type) (P : list A -> Prop),
  P [] ->
  (forall a, P [a]) ->
  (forall a b l, P l -> P (b :: l) -> P (a :: b :: l)) ->
  forall l, P l.
Proof.
  intros A P H0 H1 H2 l.
  assert (H : P l /\ forall a, P (a :: l)).
  { induction l as [|b l [IHl IHbl]].
    - split; [exact H0 | exact H1].
    - split; [apply IHbl | intros a; apply H2; [exact IHl | apply IHbl]]. }
  apply H.
Qed.

(* ================================================================== *)
(** ** The loop of [mergeShortSegments] is the greedy pass *)
(* ================================================================== *)

Section MergeFacts.

Variable id_of_call : nat -> jsstring.
Variable opts : RequiredOptions.

Let pass := greedy_pass id_of_call merged_segment opts.

Lemma pass_two : forall current next rest n,
  pass (current :: next :: rest) n =
  if should_merge opts current next then
    (merged_segment (id_of_call n) current next :: fst (pass rest (S n)),
     snd (pass rest (S n)))
  else (current :: fst (pass (next :: rest) n), snd (pass (next :: rest) n)).
Proof.
  intros current next rest n. unfold pass.
  change (greedy_pass id_of_call merged_segment opts
            (current :: next :: rest) n)
    with (if should_merge opts current next then
            let (r, n') :=
              greedy_pass id_of_call merged_segment opts rest (S n) in
            (merged_segment (id_of_call n) current next :: r, n')
          else
            let (r, n') :=
              greedy_pass id_of_call merged_segment opts (next :: rest) n in
            (current :: r, n')).
  destruct (should_merge opts current next).
  - destruct (greedy_pass id_of_call merged_segment opts rest (S n));
      reflexivity.
  - destruct (greedy_pass id_of_call merged_segment opts (next :: rest) n);
      reflexivity.
Qed.

Lemma merge_loop_pass : forall fuel segs i result n rem,
  skipn i segs = rem ->
  length rem < fuel ->
  merge_loop id_of_call fuel segs opts i result n =
  Ok (result ++ fst (pass rem n), snd (pass rem n)).
Proof.
  induction fuel as [|fuel IH]; intros segs i result n rem Hrem Hfuel; [lia|].
  cbn [merge_loop]. destruct rem as [|current [|next rest]].
  - rewrite (skipn_nil_nth _ _ _ Hrem). unfold ret. cbn. rewrite app_nil_r.
    reflexivity.
  - destruct (skipn_cons_nth _ _ _ _ _ Hrem) as [Hcur Htl]. rewrite Hcur.
    replace (i + 1) with (S i) by lia.
    rewrite (skipn_nil_nth _ _ _ Htl).
    rewrite (IH segs (S i) (result ++ [current]) n [] Htl) by (cbn in *; lia).
    cbn. rewrite app_nil_r. reflexivity.
  - destruct (skipn_cons_nth _ _ _ _ _ Hrem) as [Hcur Htl]. rewrite Hcur.
    destruct (skipn_cons_nth _ _ _ _ _ Htl) as [Hnext Hrest].
    replace (i + 1) with (S i) by lia. rewrite Hnext. rewrite pass_two.
    destruct (should_merge opts current next).
    + unfold bind, generateId. replace (i + 2) with (S (S i)) by lia.
      rewrite (IH segs (S (S i)) _ (S n) rest Hrest) by (cbn in *; lia).
      cbn [fst snd]. rewrite <- app_assoc. reflexivity.
    + rewrite (IH segs (S i) _ n (next :: rest) Htl) by (cbn in *; lia).
      cbn [fst snd]. rewrite <- app_assoc. reflexivity.
Qed.

(** The merger always returns, and returns the greedy pass. *)
Lemma mergeShortSegments_cases : forall segs n,
  mergeShortSegments id_of_call segs opts n =
  Ok (if length segs <=? 1 then (segs, n) else pass segs n).
Proof.
  intros segs n. unfold mergeShortSegments.
  destruct (length segs <=? 1) eqn:Hlen; [reflexivity|].
  rewrite (merge_loop_pass (S (length segs)) segs 0 [] n segs eq_refl)
    by (cbn; lia).
  cbn [app]. destruct (pass segs n); reflexivity.
Qed.

Lemma pass_short : forall segs n,
  length segs <= 1 -> pass segs n = (segs, n).
Proof.
  intros [|a [|b l]] n H; simpl in *; try reflexivity; lia.
Qed.

Lemma mergeShortSegments_is_pass : forall segs n,
  mergeShortSegments id_of_call segs opts n = Ok (pass segs n).
Proof.
  intros segs n. rewrite mergeShortSegments_cases.
  destruct (length segs <=? 1) eqn:Hlen; [|reflexivity].
  apply Nat.leb_le in Hlen. rewrite pass_short by exact Hlen. reflexivity.
Qed.

End MergeFacts.

(* ================================================================== *)
(** ** Facts about numbers *)
(* ================================================================== *)

(** [<=] on doubles is transitive: [SFcompare] orders the numbers other than
    [NaN] by sign, then exponent, then mantissa. *)
Lemma num_le_trans : forall a b c,
  (a <=? b)%js = true -> (b <=? c)%js = true -> (a <=? c)%js = true.
Proof.
  intros a b c Hab Hbc. unfold num_le, num_cmp in *.
  destruct a as [sa|sa| |sa ma ea], b as [sb|sb| |sb mb eb],
    c as [sc|sc| |sc mc ec];
    cbn [SFcompare] in *; try discriminate; try reflexivity;
    repeat match goal with s : bool |- _ => destruct s end;
    cbn in *; try discriminate; try reflexivity;
    change (Pos.compare_cont Eq) with Pos.compare in *;
    destruct (Z.compare_spec ea eb), (Z.compare_spec eb ec),
      (Z.compare_spec ea ec);
    try lia; subst; try discriminate; try reflexivity;
    destruct (Pos.compare_spec ma mb), (Pos.compare_spec mb mc),
      (Pos.compare_spec ma mc);
    try lia; subst; cbn in *; try discriminate; try reflexivity.
Qed.

(** *** Whole numbers as doubles

    Natural numbers below [2^53] are doubles, and on them the sum, the
    order and the truncation of doubles are those of the natural numbers. *)

Section WholeNumbers.

Local Open Scope Z_scope.

Lemma dig_bounds : forall p, 2 ^ (dig p - 1) <= Zpos p < 2 ^ dig p.
Proof.
  unfold dig. induction p as [p IH|p IH|]; cbn [digits2_pos].
  - rewrite Pos2Z.inj_succ, (Pos2Z.inj_xI p).
    replace (Z.succ (Zpos (digits2_pos p)) - 1)
      with (Z.succ (Zpos (digits2_pos p) - 1)) by lia.
    rewrite !Z.pow_succ_r by lia.
    set (A := 2 ^ (Zpos (digits2_pos p) - 1)) in *.
    set (B := 2 ^ Zpos (digits2_pos p)) in *. clearbody A B. lia.
  - rewrite Pos2Z.inj_succ, (Pos2Z.inj_xO p).
    replace (Z.succ (Zpos (digits2_pos p)) - 1)
      with (Z.succ (Zpos (digits2_pos p) - 1)) by lia.
    rewrite !Z.pow_succ_r by lia.
    set (A := 2 ^ (Zpos (digits2_pos p) - 1)) in *.
    set (B := 2 ^ Zpos (digits2_pos p)) in *. clearbody A B. lia.
  - cbn. lia.
Qed.

Lemma dig_unique : forall p n,
  2 ^ (n - 1) <= Zpos p < 2 ^ n -> dig p = n.
Proof.
  intros p n [Hlo Hhi]. pose proof (dig_bounds p) as [Dlo Dhi].
  assert (Hd : 0 < dig p) by (unfold dig; lia).
  assert (Hn : 0 < n).
  { destruct (Z.lt_ge_cases 0 n) as [H|H]; [exact H|].
    assert (2 ^ n <= 1).
    { destruct (Z.eq_dec n 0) as [->|]; [cbn; lia|].
      rewrite Z.pow_neg_r by lia. lia. }
    lia. }
  destruct (Z.lt_trichotomy (dig p) n) as [H|[H|H]]; [|exact H|].
  - assert (2 ^ dig p <= 2 ^ (n - 1)) by (apply Z.pow_le_mono_r; lia). lia.
  - assert (2 ^ n <= 2 ^ (dig p - 1)) by (apply Z.pow_le_mono_r; lia). lia.
Qed.

Lemma dig_shift : forall mx p k,
  0 <= k -> Zpos mx = Zpos p * 2 ^ k -> dig mx = dig p + k.
Proof.
  intros mx p k Hk Hmx. apply dig_unique. rewrite Hmx.
  pose proof (dig_bounds p) as [Dlo Dhi].
  assert (Hd : 0 < dig p) by (unfold dig; lia).
  replace (dig p + k - 1) with ((dig p - 1) + k) by lia.
  rewrite !Z.pow_add_r by lia.
  assert (0 < 2 ^ k) by (apply Z.pow_pos_nonneg; lia).
  split; nia.
Qed.

Lemma iter_xO_value : forall p k,
  Zpos (Pos.iter xO p k) = Zpos p * 2 ^ Zpos k.
Proof.
  intros p k. revert p. induction k as [|k IH] using Pos.peano_ind; intros p.
  - cbn [Pos.iter]. rewrite (Pos2Z.inj_xO p). cbn. lia.
  - rewrite Pos.iter_succ, (Pos2Z.inj_xO (Pos.iter xO p k)), IH, Pos2Z.inj_succ,
      Z.pow_succ_r by lia.
    lia.
Qed.

(** [shl_align] keeps the value and reaches the exponent asked for when it
    is lower. *)
Lemma shl_align_value : forall mx ex ex',
  let '(mz, ez) := shl_align mx ex ex' in
  ez = Z.min ex ex' /\ Zpos mz = Zpos mx * 2 ^ (ex - ez).
Proof.
  intros mx ex ex'. unfold shl_align.
  destruct (ex' - ex) as [|d|d] eqn:Hd.
  - split; [lia|]. replace (ex - ex) with 0 by lia. cbn. lia.
  - split; [lia|]. replace (ex - ex) with 0 by lia. cbn. lia.
  - split; [lia|]. rewrite iter_xO_value. f_equal. f_equal. lia.
Qed.

Lemma iter_pos_nat : forall (A : Type) (f : A -> A) n x,
  iter_pos f n x = Nat.iter (Pos.to_nat n) f x.
Proof.
  intros A f. induction n as [n IH|n IH|]; intros x; cbn [iter_pos].
  - rewrite !IH, Pos2Nat.inj_xI, <- Nat.iter_succ_r, <- Nat.iter_add.
    f_equal. lia.
  - rewrite !IH, Pos2Nat.inj_xO, <- Nat.iter_add. f_equal. lia.
  - reflexivity.
Qed.

(** Shifting out zeros loses nothing. *)
Lemma shr_whole : forall n m q,
  Zpos m = Zpos q * 2 ^ Z.of_nat n ->
  Nat.iter n shr_1 (Build_shr_record (Zpos m) false false)
  = Build_shr_record (Zpos q) false false.
Proof.
  induction n as [|n IH]; intros m q H.
  - change (2 ^ Z.of_nat 0) with 1 in H. rewrite Z.mul_1_r in H.
    injection H as ->. reflexivity.
  - rewrite Nat.iter_succ_r. rewrite Nat2Z.inj_succ, Z.pow_succ_r in H by lia.
    replace (Zpos q * (2 * 2 ^ Z.of_nat n))
      with (2 * (Zpos q * 2 ^ Z.of_nat n)) in H by ring.
    set (X := Zpos q * 2 ^ Z.of_nat n) in *.
    destruct m as [m|m|].
    + rewrite (Pos2Z.inj_xI m) in H. lia.
    + cbn [shr_1 orb]. apply IH. rewrite (Pos2Z.inj_xO m) in H. lia.
    + assert (0 < X) by (unfold X; apply Z.mul_pos_pos;
                         [lia | apply Z.pow_pos_nonneg; lia]).
      lia.
Qed.

Lemma fexp_small : forall n, -1021 <= n -> fexp prec emax n = n - 53.
Proof. intros n H. unfold fexp, emin, prec, emax. lia. Qed.

(** A mantissa of 53 digits is kept as it is. *)
Lemma binary_round_aux_canonical : forall s mz ez,
  dig mz = 53 -> -1074 <= ez <= 971 ->
  binary_round_aux prec emax s (Zpos mz) ez loc_Exact = S754_finite s mz ez.
Proof.
  intros s mz ez Hd He. unfold binary_round_aux, shr_fexp.
  cbn [Zdigits2 shr_record_of_loc]. fold (dig mz). rewrite Hd.
  rewrite fexp_small by lia. replace (53 + ez - 53 - ez) with 0 by lia.
  cbn [shr shr_m loc_of_shr_record round_nearest_even Zdigits2
       shr_record_of_loc].
  fold (dig mz). rewrite Hd.
  rewrite fexp_small by lia. replace (53 + ez - 53 - ez) with 0 by lia.
  cbn [shr shr_m]. unfold emax, prec.
  destruct (ez <=? 1024 - 53) eqn:E; [reflexivity|].
  apply Z.leb_gt in E. lia.
Qed.

(** Rounding [p * 2^k] at exponent [-k] gives the double of [p]. *)
Lemma binary_round_whole : forall mx p k,
  0 <= k -> Zpos mx = Zpos p * 2 ^ k -> dig p <= 53 ->
  binary_round prec emax false mx (- k) = whole p.
Proof.
  intros mx p k Hk Hmx Hp.
  assert (Hdp : 0 < dig p) by (unfold dig; lia).
  pose proof (dig_shift mx p k Hk Hmx) as Hdx.
  unfold binary_round. fold (dig mx). rewrite Hdx.
  replace (dig p + k + - k) with (dig p) by lia.
  rewrite fexp_small by lia.
  pose proof (shl_align_value mx (- k) (dig p - 53)) as Hal.
  destruct (shl_align mx (- k) (dig p - 53)) as [mz ez].
  destruct Hal as [Hez Hmz].
  assert (Hpow : 0 < 2 ^ (53 - dig p)) by (apply Z.pow_pos_nonneg; lia).
  destruct (Z.le_gt_cases (dig p - 53) (- k)) as [Hle|Hgt].
  - (* aligned to the exponent of the result *)
    assert (Hez' : ez = dig p - 53) by lia. clear Hez. subst ez.
    assert (Hval : Zpos mz = Zpos p * 2 ^ (53 - dig p)).
    { rewrite Hmz, Hmx, <- Z.mul_assoc, <- Z.pow_add_r by lia.
      f_equal. f_equal. lia. }
    rewrite binary_round_aux_canonical.
    + unfold whole. rewrite <- Hval. reflexivity.
    + rewrite (dig_shift mz p (53 - dig p)) by (lia || exact Hval). lia.
    + lia.
  - (* zeros to shift out *)
    assert (Hez' : ez = - k) by lia. clear Hez. subst ez.
    assert (mz = mx).
    { replace (- k - - k) with 0 in Hmz by lia. cbn in Hmz. lia. }
    subst mz.
    set (n := dig p - 53 + k).
    assert (Hn : 0 < n) by (unfold n; lia).
    unfold binary_round_aux, shr_fexp.
    cbn [Zdigits2 shr_record_of_loc]. fold (dig mx). rewrite Hdx.
    replace (dig p + k + - k) with (dig p) by lia.
    rewrite fexp_small by lia.
    replace (dig p - 53 - - k) with n by (unfold n; lia).
    destruct n as [|np|np] eqn:En; try lia.
    cbn [shr]. rewrite iter_pos_nat.
    set (q := Z.to_pos (Zpos p * 2 ^ (53 - dig p))).
    assert (Hq : Zpos q = Zpos p * 2 ^ (53 - dig p)).
    { unfold q. rewrite Z2Pos.id; lia. }
    rewrite (shr_whole (Pos.to_nat np) mx q).
    2:{ rewrite positive_nat_Z, Hq, Hmx, <- Z.mul_assoc, <- Z.pow_add_r by lia.
        f_equal. f_equal. lia. }
    cbn [shr_m loc_of_shr_record round_nearest_even Zdigits2
         shr_record_of_loc].
    assert (Hdq : dig q = 53).
    { rewrite (dig_shift q p (53 - dig p)) by (lia || exact Hq). lia. }
    fold (dig q). rewrite Hdq.
    replace (- k + Zpos np) with (dig p - 53) by lia.
    rewrite fexp_small by lia.
    replace (53 + (dig p - 53) - 53 - (dig p - 53)) with 0 by lia.
    cbn [shr shr_m]. unfold emax, prec.
    destruct (dig p - 53 <=? 1024 - 53) eqn:E; [reflexivity|].
    apply Z.leb_gt in E. lia.
Qed.

Lemma num_of_Z_whole : forall p,
  dig p <= 53 -> num_of_Z (Zpos p) = whole p.
Proof.
  intros p Hp. unfold num_of_Z. cbn [binary_normalize].
  apply (binary_round_whole p p 0); [lia | cbn; lia | exact Hp].
Qed.

Lemma whole_mantissa : forall p,
  dig p <= 53 ->
  Zpos (Z.to_pos (Zpos p * 2 ^ (53 - dig p))) = Zpos p * 2 ^ (53 - dig p).
Proof.
  intros p Hp. rewrite Z2Pos.id; [reflexivity|].
  apply Z.mul_pos_pos; [lia | apply Z.pow_pos_nonneg; lia].
Qed.

Lemma dig_pos : forall p, 0 < dig p.
Proof. intros p. unfold dig. lia. Qed.

(** Adding two whole numbers is exact as long as the sum is below
    [2^53]. *)
Lemma whole_add : forall a b,
  dig (a + b) <= 53 ->
  (whole a + whole b)%js = whole (a + b).
Proof.
  intros a b Hab.
  pose proof (dig_bounds a) as [Alo Ahi]. pose proof (dig_bounds b) as [Blo Bhi].
  pose proof (dig_bounds (a + b)) as [Slo Shi].
  pose proof (dig_pos a) as Ha0. pose proof (dig_pos b) as Hb0.
  assert (Ha : dig a <= dig (a + b)).
  { destruct (Z.le_gt_cases (dig a) (dig (a + b))) as [H|H]; [exact H|].
    assert (2 ^ dig (a + b) <= 2 ^ (dig a - 1)) by (apply Z.pow_le_mono_r; lia).
    lia. }
  assert (Hb : dig b <= dig (a + b)).
  { destruct (Z.le_gt_cases (dig b) (dig (a + b))) as [H|H]; [exact H|].
    assert (2 ^ dig (a + b) <= 2 ^ (dig b - 1)) by (apply Z.pow_le_mono_r; lia).
    lia. }
  unfold num_add, whole at 1 2. cbn [SFadd cond_Zopp].
  set (ma := Z.to_pos (Zpos a * 2 ^ (53 - dig a))).
  set (mb := Z.to_pos (Zpos b * 2 ^ (53 - dig b))).
  assert (Hma : Zpos ma = Zpos a * 2 ^ (53 - dig a))
    by (apply whole_mantissa; lia).
  assert (Hmb : Zpos mb = Zpos b * 2 ^ (53 - dig b))
    by (apply whole_mantissa; lia).
  set (ez := Z.min (dig a - 53) (dig b - 53)).
  pose proof (shl_align_value ma (dig a - 53) ez) as Hxa.
  pose proof (shl_align_value mb (dig b - 53) ez) as Hxb.
  destruct (shl_align ma (dig a - 53) ez) as [xa e1].
  destruct (shl_align mb (dig b - 53) ez) as [xb e2].
  destruct Hxa as [He1 Hxa]. destruct Hxb as [He2 Hxb]. cbn [fst].
  assert (Hm1 : Z.min (dig a - 53) ez = ez) by (unfold ez; lia).
  assert (Hm2 : Z.min (dig b - 53) ez = ez) by (unfold ez; lia).
  rewrite Hm1 in He1. rewrite Hm2 in He2. subst e1 e2.
  assert (Hsum : Zpos (xa + xb) = Zpos (a + b) * 2 ^ (- ez)).
  { rewrite !Pos2Z.inj_add, Hxa, Hxb, Hma, Hmb.
    rewrite <- !Z.mul_assoc, <- !Z.pow_add_r by (unfold ez; lia).
    replace (53 - dig a + (dig a - 53 - ez)) with (- ez) by lia.
    replace (53 - dig b + (dig b - 53 - ez)) with (- ez) by lia.
    ring. }
  change (Zpos xa + Zpos xb) with (Zpos (xa + xb)). cbn [binary_normalize].
  replace ez with (- - ez) at 1 by lia.
  apply (binary_round_whole (xa + xb) (a + b) (- ez));
    [unfold ez; lia | exact Hsum | exact Hab].
Qed.

Lemma dig_small : forall p, Zpos p < 2 ^ 53 -> dig p <= 53.
Proof.
  intros p Hp. pose proof (dig_bounds p) as [Lo _].
  destruct (Z.le_gt_cases (dig p) 53) as [H|H]; [exact H|].
  assert (2 ^ 53 <= 2 ^ (dig p - 1)) by (apply Z.pow_le_mono_r; lia). lia.
Qed.

Lemma Zpos_of_nat : forall n, (0 < n)%nat -> Zpos (Pos.of_nat n) = Z.of_nat n.
Proof.
  intros [|n] Hn; [lia|].
  rewrite <- Pos.of_nat_succ, Zpos_P_of_succ_nat, Nat2Z.inj_succ. reflexivity.
Qed.

Lemma num_of_nat_whole : forall n,
  0 < Z.of_nat n < 2 ^ 53 -> num_of_nat n = whole (Pos.of_nat n).
Proof.
  intros n Hn. unfold num_of_nat.
  rewrite <- (Zpos_of_nat n) by lia.
  apply num_of_Z_whole. apply dig_small. rewrite Zpos_of_nat by lia. lia.
Qed.

(** [a + b] on the doubles of two natural numbers. *)
Lemma num_of_nat_add : forall a b,
  Z.of_nat (a + b) < 2 ^ 53 ->
  (num_of_nat a + num_of_nat b)%js = num_of_nat (a + b).
Proof.
  intros a b Hab. destruct a as [|a], b as [|b].
  - reflexivity.
  - change (num_of_nat 0) with num_zero. cbn [Nat.add].
    rewrite (num_of_nat_whole (S b)) by lia. reflexivity.
  - rewrite Nat.add_0_r. change (num_of_nat 0) with num_zero.
    rewrite (num_of_nat_whole (S a)) by lia. reflexivity.
  - rewrite !num_of_nat_whole by lia.
    replace (Pos.of_nat (S a + S b)) with (Pos.of_nat (S a) + Pos.of_nat (S b))%positive
      by (rewrite Nat2Pos.inj_add; [reflexivity | lia | lia]).
    apply whole_add. apply dig_small.
    rewrite <- Nat2Pos.inj_add by lia. rewrite Zpos_of_nat by lia. lia.
Qed.

(** The order of the doubles of two natural numbers. *)
Lemma whole_cmp : forall a b,
  dig a <= 53 -> dig b <= 53 ->
  num_cmp (whole a) (whole b) = Some (a ?= b)%positive.
Proof.
  intros a b Ha Hb. unfold num_cmp, whole. cbn [SFcompare]. f_equal.
  pose proof (dig_bounds a) as [Alo Ahi]. pose proof (dig_bounds b) as [Blo Bhi].
  pose proof (dig_pos a) as Ha0. pose proof (dig_pos b) as Hb0.
  destruct (Z.compare_spec (dig a - 53) (dig b - 53)) as [He|He|He].
  - change (Pos.compare_cont Eq) with Pos.compare.
    assert (Hab : dig a = dig b) by lia.
    rewrite <- Hab.
    set (P := 2 ^ (53 - dig a)).
    assert (HP : 0 < P) by (apply Z.pow_pos_nonneg; lia).
    rewrite !Pos2Z.inj_compare.
    assert (H1 : Zpos (Z.to_pos (Zpos a * P)) = Zpos a * P)
      by (rewrite Z2Pos.id; nia).
    assert (H2 : Zpos (Z.to_pos (Zpos b * P)) = Zpos b * P)
      by (rewrite Z2Pos.id; nia).
    rewrite H1, H2.
    destruct (Z.compare_spec (Zpos a * P) (Zpos b * P)),
      (Z.compare_spec (Zpos a) (Zpos b)); try reflexivity; nia.
  - symmetry. apply Pos.compare_lt_iff.
    assert (2 ^ dig a <= 2 ^ (dig b - 1)) by (apply Z.pow_le_mono_r; lia). lia.
  - symmetry. apply Pos.compare_gt_iff.
    assert (2 ^ dig b <= 2 ^ (dig a - 1)) by (apply Z.pow_le_mono_r; lia). lia.
Qed.

Lemma num_of_nat_lt : forall a b,
  Z.of_nat a < 2 ^ 53 -> Z.of_nat b < 2 ^ 53 ->
  (num_of_nat a <? num_of_nat b)%js = (a <? b)%nat.
Proof.
  intros a b Ha Hb. unfold num_lt. destruct a as [|a], b as [|b].
  - reflexivity.
  - change (num_of_nat 0) with num_zero.
    rewrite (num_of_nat_whole (S b)) by lia. reflexivity.
  - change (num_of_nat 0) with num_zero.
    rewrite (num_of_nat_whole (S a)) by lia. reflexivity.
  - rewrite !num_of_nat_whole by lia.
    rewrite whole_cmp.
    + pose proof (Zpos_of_nat (S a) ltac:(lia)) as Za.
      pose proof (Zpos_of_nat (S b) ltac:(lia)) as Zb.
      destruct (Pos.compare_spec (Pos.of_nat (S a)) (Pos.of_nat (S b)))
        as [H|H|H]; symmetry.
      * apply Nat.ltb_ge. rewrite H in Za. lia.
      * apply Nat.ltb_lt. lia.
      * apply Nat.ltb_ge. lia.
    + apply dig_small. rewrite Zpos_of_nat by lia. lia.
    + apply dig_small. rewrite Zpos_of_nat by lia. lia.
Qed.

(** Truncation gives the natural number back. *)
Lemma num_trunc_whole : forall p,
  dig p <= 53 -> num_trunc (whole p) = Zpos p.
Proof.
  intros p Hp. unfold num_trunc, whole, magnitude_floor.
  pose proof (dig_pos p) as Hp0.
  rewrite whole_mantissa by exact Hp.
  destruct (dig p - 53) as [|e|e] eqn:He.
  - replace (53 - dig p) with 0 by lia. cbn. lia.
  - lia.
  - rewrite Z.shiftr_div_pow2 by lia.
    replace (53 - dig p) with (Zpos e) by lia.
    apply Z.div_mul. apply Z.pow_nonzero; lia.
Qed.

Lemma slice_index_of_nat : forall len m,
  Z.of_nat m < 2 ^ 53 -> slice_index len (num_of_nat m) = Nat.min m len.
Proof.
  intros len m Hm. destruct m as [|m]; [reflexivity|].
  rewrite num_of_nat_whole by lia.
  assert (Hd : dig (Pos.of_nat (S m)) <= 53).
  { apply dig_small. rewrite Zpos_of_nat by lia. lia. }
  change (slice_index len (whole (Pos.of_nat (S m))))
    with (let z := num_trunc (whole (Pos.of_nat (S m))) in
          if z <? 0 then Z.to_nat (Z.of_nat len + z)
          else Z.to_nat (Z.min z (Z.of_nat len))).
  cbv zeta. rewrite num_trunc_whole by exact Hd.
  destruct (Zpos (Pos.of_nat (S m)) <? 0) eqn:E; [apply Z.ltb_lt in E; lia|].
  rewrite Zpos_of_nat by lia. lia.
Qed.

End WholeNumbers.

(* ================================================================== *)
(** ** What one pass keeps *)
(* ================================================================== *)

Section PassFacts.

Variable id_of_call : nat -> jsstring.
Variable opts : RequiredOptions.

Let pass := greedy_pass id_of_call merged_segment opts.

Lemma pass_step : forall current next rest n,
  pass (current :: next :: rest) n =
  if should_merge opts current next then
    (merged_segment (id_of_call n) current next :: fst (pass rest (S n)),
     snd (pass rest (S n)))
  else (current :: fst (pass (next :: rest) n), snd (pass (next :: rest) n)).
Proof. intros. apply pass_two. Qed.

Lemma pass_words : forall segs n,
  concat (map Seg.words (fst (pass segs n))) = concat (map Seg.words segs).
Proof.
  intros segs. induction segs as [| a | a b l IHl IHbl] using pair_induction;
    intros n.
  - reflexivity.
  - reflexivity.
  - rewrite pass_step. destruct (should_merge opts a b); cbn [fst map concat].
    + rewrite IHl. cbn. rewrite app_assoc. reflexivity.
    + rewrite IHbl. reflexivity.
Qed.

Lemma pass_length : forall segs n, length (fst (pass segs n)) <= length segs.
Proof.
  intros segs. induction segs as [| a | a b l IHl IHbl] using pair_induction;
    intros n.
  - apply Nat.le_refl.
  - apply Nat.le_refl.
  - rewrite pass_step. destruct (should_merge opts a b); cbn [fst length].
    + specialize (IHl (S n)). lia.
    + specialize (IHbl n). cbn [length] in IHbl. lia.
Qed.

Lemma pass_nonempty : forall a l n, fst (pass (a :: l) n) <> [].
Proof.
  intros a [|b l] n.
  - discriminate.
  - rewrite pass_step. destruct (should_merge opts a b); discriminate.
Qed.

Lemma pass_first_start : forall a l n d,
  Seg.startTime (hd d (fst (pass (a :: l) n))) = Seg.startTime a.
Proof.
  intros a [|b l] n d.
  - reflexivity.
  - rewrite pass_step. destruct (should_merge opts a b); reflexivity.
Qed.

Lemma pass_last_end : forall segs n d,
  segs <> [] ->
  Seg.endTime (last (fst (pass segs n)) d) = Seg.endTime (last segs d).
Proof.
  intros segs. induction segs as [| a | a b l IHl IHbl] using pair_induction;
    intros n d Hne.
  - contradiction.
  - reflexivity.
  - rewrite pass_step. destruct (should_merge opts a b); cbn [fst].
    + destruct l as [|c l].
      * reflexivity.
      * specialize (IHl (S n) d ltac:(discriminate)).
        change (last (a :: b :: c :: l) d) with (last (c :: l) d).
        rewrite <- IHl.
        pose proof (pass_nonempty c l (S n)) as Hn.
        destruct (fst (pass (c :: l) (S n))); [contradiction | reflexivity].
    + specialize (IHbl n d ltac:(discriminate)).
      change (last (a :: b :: l) d) with (last (b :: l) d).
      rewrite <- IHbl.
      pose proof (pass_nonempty b l n) as Hn.
      destruct (fst (pass (b :: l) n)); [contradiction | reflexivity].
Qed.

Lemma merged_under_ceiling : forall id a b,
  (Seg.endTime b - Seg.startTime a <=? Seg.duration a + Seg.duration b)%js
    = true ->
  should_merge opts a b = true ->
  under_ceiling opts (merged_segment id a b).
Proof.
  intros id a b Hspan Hm.
  unfold should_merge in Hm. apply andb_true_iff in Hm as [_ Hsum].
  unfold under_ceiling, merged_segment. cbn [Seg.duration].
  eapply num_le_trans; eassumption.
Qed.

Lemma pass_under_ceiling : forall segs n,
  Forall (under_ceiling opts) segs ->
  spans_within_sums segs ->
  Forall (under_ceiling opts) (fst (pass segs n)).
Proof.
  intros segs. induction segs as [| a | a b l IHl IHbl] using pair_induction;
    intros n Hin Hspans.
  - constructor.
  - exact Hin.
  - rewrite pass_step.
    inversion Hin as [|? ? Hia Hin']; subst.
    inversion Hin' as [|? ? Hib Hil]; subst.
    destruct Hspans as [Hab Hspans'].
    destruct (should_merge opts a b) eqn:Hm; cbn [fst].
    + constructor.
      * apply merged_under_ceiling; assumption.
      * apply IHl; try assumption.
        destruct l as [|c l]; [exact I | apply Hspans'].
    + constructor; [exact Hia|]. apply IHbl; assumption.
Qed.

End PassFacts.

(* ================================================================== *)
(** ** The scan of [splitSubtitles] *)
(* ================================================================== *)

Section ScanFacts.

Variable id_of_call : nat -> jsstring.
Variable opts : RequiredOptions.
Variable words : list WordTimestamp.

Lemma createSegment_snoc : forall buf w start n,
  createSegment id_of_call (buf ++ [w]) start n =
  Ok (Seg.mk (id_of_call n) (trim (words_text (buf ++ [w]))) start
             (Word.endTime w) (buf ++ [w]) (Word.endTime w - start)%js,
      S n).
Proof.
  intros buf w start n. unfold createSegment.
  rewrite nth_error_snoc_last. reflexivity.
Qed.

Lemma createSegment_nonempty : forall ws start n,
  ws <> [] ->
  exists seg,
    createSegment id_of_call ws start n = Ok (seg, S n) /\
    Seg.words seg = ws /\ Seg.startTime seg = start.
Proof.
  intros ws start n Hne.
  destruct (exists_last Hne) as (buf & w & ->).
  rewrite createSegment_snoc. eexists. repeat split.
Qed.

(** Does the step at index [i] close a segment? *)
Let splits (i : nat) (word : WordTimestamp) (st : ScanState) : bool :=
  checkShouldSplit
    (split_params opts (currentWords st ++ [word]) (currentStartTime st) word
                  (nth_error words (i + 1))).

Lemma scan_step_split : forall i word st n,
  splits i word st = true ->
  scan_step id_of_call opts words i word st n =
  Ok (mkScan
        (segments st ++
         [Seg.mk (id_of_call n)
                 (trim (words_text (currentWords st ++ [word])))
                 (currentStartTime st) (Word.endTime word)
                 (currentWords st ++ [word])
                 (Word.endTime word - currentStartTime st)%js])
        []
        (match nth_error words (i + 1) with
         | Some nw => Word.startTime nw
         | None => currentStartTime st
         end),
      S n).
Proof.
  intros i word st n H. unfold scan_step. unfold splits in H. rewrite H.
  unfold bind. rewrite createSegment_snoc. reflexivity.
Qed.

Lemma scan_step_keep : forall i word st n,
  splits i word st = false ->
  scan_step id_of_call opts words i word st n =
  Ok (mkScan (segments st) (currentWords st ++ [word]) (currentStartTime st),
      n).
Proof.
  intros i word st n H. unfold scan_step. unfold splits in H. rewrite H.
  reflexivity.
Qed.

(** The loop returns, and carries any invariant of its step to the end of
    the word list. *)
Lemma scan_loop_invariant : forall (Inv : nat -> ScanState -> Prop),
  (forall i word st n st' n',
      nth_error words i = Some word -> Inv i st ->
      scan_step id_of_call opts words i word st n = Ok (st', n') ->
      Inv (S i) st') ->
  forall k i st n,
    i + k = length words -> Inv i st ->
    exists st' n',
      scan_loop id_of_call k opts words i st n = Ok (st', n') /\
      Inv (length words) st'.
Proof.
  intros Inv Hstep. induction k as [|k IH]; intros i st n Hik Hinv.
  - exists st, n. split; [reflexivity|].
    replace (length words) with i by lia. exact Hinv.
  - cbn [scan_loop].
    destruct (nth_error words i) as [word|] eqn:Hw.
    2:{ apply nth_error_None in Hw. lia. }
    destruct (splits i word st) eqn:Hs.
    + pose proof (scan_step_split i word st n Hs) as Heq.
      rewrite (bind_ret_step _ _ _ _ _ _ _ Heq).
      apply IH; [lia|]. eapply Hstep; eassumption.
    + pose proof (scan_step_keep i word st n Hs) as Heq.
      rewrite (bind_ret_step _ _ _ _ _ _ _ Heq).
      apply IH; [lia|]. eapply Hstep; eassumption.
Qed.

Lemma scan_step_covers : forall i word st n st' n',
  nth_error words i = Some word -> covers words i st ->
  scan_step id_of_call opts words i word st n = Ok (st', n') ->
  covers words (S i) st'.
Proof.
  intros i word st n st' n' Hw Hc Hstep. unfold covers in *.
  rewrite (firstn_succ_nth _ _ _ _ Hw), <- Hc.
  destruct (splits i word st) eqn:Hs.
  - rewrite (scan_step_split i word st n Hs) in Hstep.
    injection Hstep as <- <-. cbn [segments currentWords].
    rewrite map_app, concat_app. cbn. rewrite !app_nil_r.
    rewrite app_assoc. reflexivity.
  - rewrite (scan_step_keep i word st n Hs) in Hstep.
    injection Hstep as <- <-. cbn [segments currentWords].
    rewrite app_assoc. reflexivity.
Qed.

(** What a step that does not split says about the ceilings. *)
Lemma keep_below_ceilings : forall i word st,
  splits i word st = false ->
  below_ceilings opts (currentStartTime st) (currentWords st ++ [word]) word.
Proof.
  intros i word st H. unfold splits, checkShouldSplit, split_params in H.
  cbn [Params.nextWord Params.currentDuration Params.opts Params.word
       Params.currentCharCount Params.currentText] in H.
  destruct (nth_error words (i + 1)) as [nw|]; [|discriminate].
  unfold below_ceilings.
  destruct (num_ge (num_sub (Word.endTime word) (currentStartTime st))
                   (Opts.maxDuration opts)); [discriminate|].
  destruct (num_ge _ (Opts.maxCharacters opts)); [discriminate|].
  split; reflexivity.
Qed.

Lemma snoc_decompose : forall (buf pre rest : list WordTimestamp) word w,
  buf ++ [word] = pre ++ w :: rest ->
  (rest = [] /\ pre = buf /\ w = word) \/
  (exists rest', rest = rest' ++ [word] /\ buf = pre ++ w :: rest').
Proof.
  intros buf pre rest word w H.
  destruct rest as [|r rest] using rev_ind.
  - left. apply app_inj_tail in H as [-> ->]. repeat split.
  - right. exists rest.
    change (pre ++ w :: rest ++ [r]) with (pre ++ (w :: rest) ++ [r]) in H.
    rewrite app_assoc in H. apply app_inj_tail in H as [-> ->].
    split; reflexivity.
Qed.

Lemma scan_step_ceilings : forall i word st n st' n',
  nth_error words i = Some word -> ceilings_inv opts st ->
  scan_step id_of_call opts words i word st n = Ok (st', n') ->
  ceilings_inv opts st'.
Proof.
  intros i word st n st' n' _ [Hsegs Hbuf] Hstep.
  destruct (splits i word st) eqn:Hs.
  - rewrite (scan_step_split i word st n Hs) in Hstep.
    injection Hstep as <- <-. split; cbn [segments currentWords].
    + apply Forall_app. split; [exact Hsegs|]. constructor; [|constructor].
      intros pre w rest Hw Hrest. cbn [Seg.words Seg.startTime] in *.
      destruct (snoc_decompose _ _ _ _ _ Hw) as [[-> _] | (rest' & -> & Hb)];
        [contradiction|].
      eapply Hbuf. exact Hb.
    + intros pre w rest Hnil. destruct pre; discriminate.
  - rewrite (scan_step_keep i word st n Hs) in Hstep.
    injection Hstep as <- <-. split; cbn [segments currentWords currentStartTime].
    + exact Hsegs.
    + intros pre w rest Hw.
      destruct (snoc_decompose _ _ _ _ _ Hw) as [(-> & -> & ->) | (rest' & -> & Hb)].
      * eapply keep_below_ceilings. exact Hs.
      * eapply Hbuf. exact Hb.
Qed.

End ScanFacts.

(* ================================================================== *)
(** ** The segmenter before the merge pass *)
(* ================================================================== *)

Lemma scanWords_result : forall id_of_call w0 ws opts n,
  exists segs n',
    scanWords id_of_call (w0 :: ws) opts n = Ok (segs, n') /\
    concat (map Seg.words segs) = w0 :: ws /\
    Forall (ceilings_before_last opts) segs.
Proof.
  intros id_of_call w0 ws opts n. set (words := w0 :: ws).
  unfold scanWords. cbn [nth_error words].
  destruct (scan_loop_invariant id_of_call opts words
              (fun i st => covers words i st /\ ceilings_inv opts st))
    with (k := length words) (i := 0)
         (st := mkScan [] [] (Word.startTime w0)) (n := n)
    as (st' & n' & Hloop & Hcov & Hsegs & Hbuf).
  - intros i word st m st1 m1 Hw [Hc Hi] Hstep. split.
    + eapply scan_step_covers; eassumption.
    + eapply scan_step_ceilings; eassumption.
  - reflexivity.
  - split; [reflexivity|]. split; [constructor|].
    intros pre w rest H. destruct pre; discriminate.
  - fold words. rewrite (bind_ret_step _ _ _ _ _ _ _ Hloop).
    unfold covers in Hcov. rewrite firstn_all in Hcov.
    destruct (currentWords st') as [|b buf] eqn:Hb.
    + cbn. exists (segments st'), n'. rewrite app_nil_r in Hcov.
      repeat split; assumption.
    + cbn [length Nat.ltb Nat.leb].
      destruct (createSegment_nonempty id_of_call (b :: buf)
                  (currentStartTime st') n' ltac:(discriminate))
        as (seg & Hseg & Hwords & Hstart).
      rewrite (bind_ret_step _ _ _ _ _ _ _ Hseg).
      exists (segments st' ++ [seg]), (S n'). split; [reflexivity|]. split.
      * rewrite map_app, concat_app. cbn. rewrite app_nil_r, Hwords.
        exact Hcov.
      * apply Forall_app. split; [exact Hsegs|]. constructor; [|constructor].
        intros pre w rest Hw _. rewrite Hstart. eapply Hbuf.
        rewrite <- Hwords. exact Hw.
Qed.

Lemma checkShouldSplit_true : forall p,
  checkShouldSplit p = true <->
  match Params.nextWord p with
  | None => True
  | Some next =>
      let elapsed := Params.currentDuration p in
      let opts := Params.opts p in
      (elapsed >=? Opts.maxDuration opts)%js = true
      \/ (Params.currentCharCount p >=? Opts.maxCharacters opts)%js = true
      \/ ((regexp_test (Opts.sentenceDelimiters opts)
                       (Word.word (Params.word p)) = true \/
           regexp_test KOREAN_SENTENCE_ENDINGS
                       (Word.word (Params.word p)) = true) /\
          (elapsed >=? Opts.minDuration opts)%js = true)
      \/ (regexp_test (Opts.naturalBreakPattern opts) (Params.currentText p)
            = true /\
          (elapsed >=? Opts.targetDuration opts)%js = true)
      \/ ((Word.startTime next - Word.endTime (Params.word p) >=? Fin (1 # 2))%js
            = true /\
          (elapsed >=? Opts.minDuration opts)%js = true)
      \/ ((elapsed >=? Opts.targetDuration opts)%js = true /\
          regexp_test CLAUSE_START (Word.word next) = true)
  end.
Proof.
  intros p. unfold checkShouldSplit.
  destruct (Params.nextWord p) as [next|]; [|tauto].
  cbv zeta.
  destruct (num_ge (Params.currentDuration p) (Opts.maxDuration (Params.opts p)));
    [tauto|].
  destruct (num_ge (Params.currentCharCount p)
                   (Opts.maxCharacters (Params.opts p))); [tauto|].
  destruct (regexp_test (Opts.sentenceDelimiters (Params.opts p))
                        (Word.word (Params.word p)));
  destruct (regexp_test KOREAN_SENTENCE_ENDINGS (Word.word (Params.word p)));
  destruct (num_ge (Params.currentDuration p) (Opts.minDuration (Params.opts p)));
  destruct (regexp_test (Opts.naturalBreakPattern (Params.opts p))
                        (Params.currentText p));
  destruct (num_ge (Params.currentDuration p)
                   (Opts.targetDuration (Params.opts p)));
  destruct (num_ge (num_sub (Word.startTime next)
                            (Word.endTime (Params.word p))) (Fin (1 # 2)));
  destruct (regexp_test CLAUSE_START (Word.word next));
  cbn; intuition discriminate.
Qed.

Lemma words_with_silence_scan :
  exists s1 s2,
    scanWords demo_ids words_with_silence DEFAULT_OPTIONS 0 = Ok ([s1; s2], 2)
    /\ Seg.words s1 = [demo_word "a" 0 1; demo_word "b" 5 6]
    /\ Seg.duration s1 = Fin 6
    /\ (Seg.duration s1 <=? Opts.maxDuration DEFAULT_OPTIONS)%js = false.
Proof.
  eexists. eexists. split; [vm_compute; reflexivity|].
  repeat split; vm_compute; reflexivity.
Qed.

(* ================================================================== *)
(** ** Timing re-normalisation *)
(* ================================================================== *)

Lemma nat_Q_plus : forall a b, (nat_Q (a + b) == nat_Q a + nat_Q b)%Q.
Proof.
  intros a b. unfold nat_Q. rewrite Nat2Z.inj_add, inject_Z_plus. reflexivity.
Qed.

Lemma nat_Q_pos : forall n, 0 < n -> (0 < nat_Q n)%Q.
Proof.
  intros n Hn. unfold nat_Q. change 0%Q with (inject_Z 0).
  rewrite <- Zlt_Qlt. lia.
Qed.

Lemma total_chars_cons : forall s segs,
  total_chars (s :: segs) = chars_of s + total_chars segs.
Proof. reflexivity. Qed.

Section Retime.

Variables T D : JSNum.

Let share (s : SubtitleSegment) : JSNum := (segment_chars s / T * D)%js.

Lemma retime_cons : forall s segs t,
  retime (s :: segs) T D t =
  Seg.mk (Seg.id s) (Seg.text s) t (t + share s)%js (Seg.words s) (share s)
  :: retime segs T D (t + share s)%js.
Proof. reflexivity. Qed.






End Retime.



Lemma total_chars_zero : forall s segs,
  total_chars (s :: segs) = 0 -> chars_of s = 0 /\ total_chars segs = 0.
Proof. intros s segs H. rewrite total_chars_cons in H. lia. Qed.

Lemma num_add_NaN : forall a, (a + NaN)%js = NaN.
Proof. intros [s|s| |s m e]; reflexivity. Qed.

(** Without a character to count the total stays [+0]. *)
Lemma totalChars_zero : forall segs,
  total_chars segs = 0 ->
  fold_left (fun sum seg => (sum + segment_chars seg)%js) segs num_zero
  = num_zero.
Proof.
  induction segs as [|s segs IH]; intros Hsum; [reflexivity|].
  apply total_chars_zero in Hsum as [Hs Hrest].
  cbn [fold_left]. unfold segment_chars at 2. fold (chars_of s). rewrite Hs.
  change (num_zero + num_of_nat 0)%js with num_zero. apply IH. exact Hrest.
Qed.

Lemma retime_zero_total : forall segs D t,
  total_chars segs = 0 ->
  Forall (fun u => Seg.endTime u = NaN /\ Seg.duration u = NaN)
         (retime segs num_zero D t).
Proof.
  induction segs as [|s segs IH]; intros D t Hsum; [constructor|].
  apply total_chars_zero in Hsum as [Hs Hrest].
  rewrite retime_cons. unfold segment_chars. fold (chars_of s). rewrite Hs.
  change (num_of_nat 0 / num_zero)%js with NaN.
  change (NaN * D)%js with NaN. rewrite num_add_NaN.
  constructor; [split; reflexivity|]. apply IH. exact Hrest.
Qed.

(** Whatever the total duration, a list of segments without a character
    other than white space comes back with [NaN] as every end time. *)
Lemma recalculateTimings_zero_chars : forall segs D,
  total_chars segs = 0 ->
  Forall (fun u => Seg.endTime u = NaN /\ Seg.duration u = NaN)
         (recalculateTimings segs D).
Proof.
  intros segs D Hsum. unfold recalculateTimings.
  destruct segs as [|s segs]; [constructor|]. cbn [length Nat.eqb].
  rewrite (totalChars_zero (s :: segs) Hsum).
  apply retime_zero_total. exact Hsum.
Qed.

(* ================================================================== *)
(** ** Regular expressions, strings and the duration-based path *)
(* ================================================================== *)

Lemma set_capture_length : forall idx v c,
  length (set_capture idx v c) = length c.
Proof.
  induction idx as [|idx IH]; intros v [|x c]; cbn; try reflexivity.
  rewrite IH. reflexivity.
Qed.

(** Whatever the matcher returns, it got from its continuation at the end of
    a match of the pattern, with as many captures as it was given. *)
Lemma rmatch_sound : forall r s i c k z,
  rmatch r s i c k = Some z ->
  exists j c', matches s r i j /\ length c' = length c /\ k j c' = Some z.
Proof.
  induction r as [p | w | r1 IH1 r2 IH2 | r1 IH1 r2 IH2 | r1 IH1
                  | idx r1 IH1 | p | | | ]; intros s i c k z H; cbn [rmatch] in H.
  - destruct (nth_error s i) as [ch|] eqn:Hch; [|discriminate].
    destruct (p ch) eqn:Hp; [|discriminate].
    exists (S i), c. repeat split; [econstructor; eassumption | exact H].
  - destruct (occurs_at w s i) eqn:Hw; [|discriminate].
    exists (i + length w), c. repeat split; [constructor; exact Hw | exact H].
  - apply IH1 in H as (j & c1 & Hm1 & Hl1 & H).
    apply IH2 in H as (j' & c2 & Hm2 & Hl2 & H).
    exists j', c2. repeat split; [econstructor; eassumption | congruence | exact H].
  - destruct (rmatch r1 s i c k) as [z0|] eqn:H1.
    + injection H as <-. apply IH1 in H1 as (j & c1 & Hm & Hl & H).
      exists j, c1. repeat split; [apply MAltL; exact Hm | exact Hl | exact H].
    + apply IH2 in H as (j & c1 & Hm & Hl & H).
      exists j, c1. repeat split; [apply MAltR; exact Hm | exact Hl | exact H].
  - remember (S (length s)) as fuel eqn:Hfuel. clear Hfuel.
    revert i c H. induction fuel as [|fuel IHf]; intros i c H;
      cbn [star_loop] in H.
    + exists i, c. repeat split; [constructor | exact H].
    + destruct (rmatch r1 s i c _) as [z0|] eqn:H1 in H.
      * injection H as <-. apply IH1 in H1 as (j & c1 & Hm & Hl & H).
        destruct (i <? j) eqn:Hij; [|discriminate].
        apply Nat.ltb_lt in Hij.
        apply IHf in H as (j' & c2 & Hm' & Hl' & H).
        exists j', c2. repeat split;
          [eapply MStarStep; eassumption | congruence | exact H].
      * exists i, c. repeat split; [constructor | exact H].
  - apply IH1 in H as (j & c1 & Hm & Hl & H).
    exists j, (set_capture idx (substring i j s) c1).
    repeat split; [constructor; exact Hm | | exact H].
    rewrite set_capture_length. exact Hl.
  - destruct i as [|i]; [discriminate|].
    destruct (nth_error s i) as [ch|] eqn:Hch; [|discriminate].
    destruct (p ch) eqn:Hp; [|discriminate].
    exists (S i), c. repeat split; [econstructor; eassumption | exact H].
  - destruct (i =? 0) eqn:Hi; [|discriminate]. apply Nat.eqb_eq in Hi. subst i.
    exists 0, c. repeat split; [constructor | exact H].
  - destruct (i =? length s) eqn:Hi; [|discriminate].
    apply Nat.eqb_eq in Hi. subst i.
    exists (length s), c. repeat split; [constructor | exact H].
  - discriminate.
Qed.

Lemma matches_forward : forall s r i j, matches s r i j -> i <= j.
Proof.
  intros s r i j H. induction H; lia.
Qed.

Lemma exec_at_sound : forall re s q e caps,
  exec_at re s q = Some (e, caps) ->
  matches s (pattern re) q e /\ length caps = ngroups re.
Proof.
  intros re s q e caps H. unfold exec_at in H.
  apply rmatch_sound in H as (j & c' & Hm & Hl & H).
  injection H as <- <-. split; [exact Hm|].
  rewrite Hl. apply repeat_length.
Qed.

(** *** What the fixed patterns match *)

(** An alternation of literals matches at [i] when one of them occurs
    there, whatever comes after it succeeding. *)
Lemma rmatch_RWords : forall ws s i c k,
  (forall j c', k j c' <> None) ->
  (exists z, rmatch (RWords ws) s i c k = Some z) <->
  existsb (fun w => occurs_at w s i) ws = true.
Proof.
  induction ws as [|w ws IH]; intros s i c k Hk.
  - cbn. split; [intros [z H]; discriminate | discriminate].
  - destruct ws as [|w' ws].
    + cbn [RWords rmatch existsb]. rewrite orb_false_r.
      destruct (occurs_at w s i).
      * split; [reflexivity|]. intros _.
        destruct (k (i + length w) c) as [z|] eqn:Hz; [exists z; reflexivity|].
        exfalso. eapply Hk. exact Hz.
      * split; [intros [z H]; discriminate | discriminate].
    + change (RWords (w :: w' :: ws)) with (RAlt (RLit w) (RWords (w' :: ws))).
      cbn [rmatch]. cbn [existsb] in IH |- *.
      destruct (occurs_at w s i).
      * destruct (k (i + length w) c) as [z|] eqn:Hz.
        -- split; [reflexivity | intros _; exists z; reflexivity].
        -- exfalso. eapply Hk. exact Hz.
      * rewrite orb_false_l. apply IH. exact Hk.
Qed.

Lemma existsb_seq_succ : forall f n a,
  existsb f (seq (S a) n) = existsb (fun q => f (S q)) (seq a n).
Proof.
  intros f n. induction n as [|n IH]; intros a; [reflexivity|].
  cbn [seq existsb]. rewrite IH. reflexivity.
Qed.

Lemma existsb_seq_shift : forall f n,
  existsb f (seq 1 n) = existsb (fun q => f (S q)) (seq 0 n).
Proof. intros f n. apply existsb_seq_succ. Qed.

(** [CLAUSE_START] matches the strings that begin with a clause starter. *)
Lemma CLAUSE_START_test : forall w,
  regexp_test CLAUSE_START w
  = existsb (fun c => occurs_at c w 0) clause_starters.
Proof.
  intros w. unfold regexp_test. cbn [seq existsb].
  assert (Hrest : existsb
            (fun q => match exec_at CLAUSE_START w q with
                      | Some _ => true | None => false end)
            (seq 1 (length w)) = false).
  { rewrite existsb_seq_shift. induction (seq 0 (length w)) as [|q l IH];
      [reflexivity|]. cbn [existsb]. rewrite IH. reflexivity. }
  rewrite Hrest, orb_false_r.
  unfold exec_at. cbn [pattern ngroups CLAUSE_START rmatch Nat.eqb repeat].
  match goal with
  | |- match rmatch (RWords clause_starters) w 0 ?c ?k with _ => _ end = _ =>
      pose proof (rmatch_RWords clause_starters w 0 c k) as H
  end.
  destruct (existsb (fun c => occurs_at c w 0) clause_starters).
  - destruct H as [_ H]; [discriminate|]. destruct (H eq_refl) as [z ->].
    reflexivity.
  - destruct (rmatch (RWords clause_starters) w 0 _ _) as [z|] eqn:Hz;
      [|reflexivity].
    destruct H as [H _]; [discriminate|].
    specialize (H (ex_intro _ z eq_refl)). discriminate.
Qed.

Lemma existsb_pointwise : forall (A : Type) (f g : A -> bool) l,
  (forall x, f x = g x) -> existsb f l = existsb g l.
Proof.
  intros A f g l H. induction l as [|x l IH]; [reflexivity|].
  cbn [existsb]. rewrite H, IH. reflexivity.
Qed.

(** [sentenceDelimiters] by default matches the strings that hold a
    sentence mark. *)
Lemma DEFAULT_sentenceDelimiters_test : forall w,
  regexp_test DEFAULT_sentenceDelimiters w
  = existsb (in_class sentence_marks) w.
Proof.
  intros w. unfold regexp_test.
  assert (H : forall q,
     match exec_at DEFAULT_sentenceDelimiters w q with
     | Some _ => true | None => false end
     = match nth_error w q with
       | Some ch => in_class sentence_marks ch | None => false end).
  { intros q. unfold exec_at. cbn [pattern DEFAULT_sentenceDelimiters rmatch].
    destruct (nth_error w q) as [ch|]; [|reflexivity].
    destruct (in_class sentence_marks ch); reflexivity. }
  rewrite (existsb_pointwise _ _ _ _ H). clear H.
  induction w as [|ch w IH].
  - reflexivity.
  - cbn [length]. change (seq 0 (S (S (length w))))
      with (0 :: seq 1 (S (length w))).
    cbn [existsb nth_error]. rewrite existsb_seq_shift. cbn [nth_error].
    rewrite IH. reflexivity.
Qed.

(** *** [split] *)

Lemma split_loop_total : forall re s fuel p q acc,
  p <= q ->
  2 * (length s - q) + (if p <? q then 1 else 0) < fuel ->
  exists r, split_loop fuel re s p q acc = Some (acc ++ r) /\ r <> [].
Proof.
  intros re s. induction fuel as [|fuel IH]; intros p q acc Hpq Hfuel; [lia|].
  cbn [split_loop]. destruct (q <? length s) eqn:Hq.
  - apply Nat.ltb_lt in Hq.
    assert (Hnext : exists r,
               split_loop fuel re s p (S q) acc = Some (acc ++ r) /\ r <> []).
    { apply IH; [lia|]. destruct (p <? S q) eqn:E; destruct (p <? q); lia. }
    destruct (exec_at re s q) as [[e0 caps]|] eqn:Hex; [|exact Hnext].
    destruct (Nat.min e0 (length s) =? p) eqn:Hep; [exact Hnext|].
    apply Nat.eqb_neq in Hep.
    apply exec_at_sound in Hex as [Hm _]. apply matches_forward in Hm.
    set (e := Nat.min e0 (length s)) in *.
    destruct (IH e e (acc ++ Some (substring p q s) :: caps)) as (r & Hr & _).
    + lia.
    + rewrite Nat.ltb_irrefl.
      destruct (p <? q) eqn:E; [apply Nat.ltb_lt in E | apply Nat.ltb_ge in E];
        lia.
    + exists (Some (substring p q s) :: caps ++ r). split; [|discriminate].
      rewrite Hr. rewrite <- app_assoc. reflexivity.
  - exists [Some (substring p (length s) s)]. split; [reflexivity | discriminate].
Qed.

(** [split] always returns, and returns at least one piece. *)
Lemma regexp_split_total : forall re s,
  exists r, regexp_split re s = Some r /\ (s <> [] -> r <> []).
Proof.
  intros re s. unfold regexp_split. destruct s as [|ch s].
  - destruct (exec_at re [] 0); eexists; (split; [reflexivity | intros H; contradiction]).
  - destruct (split_loop_total re (ch :: s) (2 * length (ch :: s) + 2) 0 0 [])
      as (r & Hr & Hne); [lia | cbn; lia |].
    exists r. split; [exact Hr | intros _; exact Hne].
Qed.

Lemma substring_all : forall p (s : jsstring),
  substring p (length s) s = skipn p s.
Proof.
  intros p s. unfold substring. rewrite <- (length_skipn p s).
  apply firstn_all.
Qed.

Lemma substring_clamp : forall q e (s : jsstring),
  substring q (Nat.min e (length s)) s = substring q e s.
Proof.
  intros q e s. unfold substring.
  destruct (Nat.le_gt_cases e (length s)) as [H|H].
  - rewrite Nat.min_l by exact H. reflexivity.
  - rewrite Nat.min_r by lia.
    rewrite !firstn_all2; [reflexivity | |]; rewrite length_skipn; lia.
Qed.

Lemma skipn_three : forall p q e (s : jsstring),
  p <= q -> q <= e ->
  skipn p s = substring p q s ++ substring q e s ++ skipn e s.
Proof.
  intros p q e s Hpq Hqe. unfold substring.
  rewrite <- (firstn_skipn (q - p) (skipn p s)) at 1. f_equal.
  rewrite skipn_skipn. replace (q - p + p) with q by lia.
  rewrite <- (firstn_skipn (e - q) (skipn q s)) at 1. f_equal.
  rewrite skipn_skipn. replace (e - q + q) with e by lia. reflexivity.
Qed.

Lemma strip_ws_app : forall a b, strip_ws (a ++ b) = strip_ws a ++ strip_ws b.
Proof. intros a b. apply filter_app. Qed.

(** For a pattern without groups whose matches are blank, the pieces of
    [split] hold the characters of the string other than white space. *)
Lemma split_loop_blank : forall re s,
  ngroups re = 0 -> blank_matches re s ->
  forall fuel p q acc out,
    p <= q ->
    split_loop fuel re s p q acc = Some out ->
    exists r,
      out = acc ++ map Some r /\
      strip_ws (concat r) = strip_ws (skipn p s).
Proof.
  intros re s Hgroups Hblank.
  induction fuel as [|fuel IH]; intros p q acc out Hpq H; [discriminate|].
  cbn [split_loop] in H. destruct (q <? length s) eqn:Hq.
  - apply Nat.ltb_lt in Hq.
    destruct (exec_at re s q) as [[e0 caps]|] eqn:Hex.
    2:{ apply IH in H; [exact H | lia]. }
    destruct (Nat.min e0 (length s) =? p) eqn:Hep.
    { apply IH in H; [exact H | lia]. }
    apply exec_at_sound in Hex as [Hm Hcaps].
    rewrite Hgroups in Hcaps. apply length_zero_iff_nil in Hcaps. subst caps.
    pose proof (matches_forward _ _ _ _ Hm) as Hfw.
    apply Hblank in Hm. unfold blank_between in Hm.
    rewrite <- (substring_clamp q e0 s) in Hm.
    set (e := Nat.min e0 (length s)) in *.
    apply IH in H as (r & -> & Hr); [|lia].
    exists (substring p q s :: r). split.
    + rewrite <- app_assoc. reflexivity.
    + cbn [concat]. rewrite strip_ws_app, Hr.
      rewrite (skipn_three p q e s) by lia.
      rewrite !strip_ws_app, Hm. reflexivity.
  - injection H as <-. exists [substring p (length s) s]. split; [reflexivity|].
    cbn [concat]. rewrite app_nil_r, substring_all. reflexivity.
Qed.

Lemma substring_step : forall (s : jsstring) i j ch,
  nth_error s i = Some ch -> i < j ->
  substring i j s = ch :: substring (S i) j s.
Proof.
  intros s i j ch Hch Hij. unfold substring.
  rewrite (nth_error_skipn_cons _ _ _ _ Hch).
  replace (j - i) with (S (j - S i)) by lia. reflexivity.
Qed.

Lemma star_ws_blank : forall s r i j,
  matches s r i j -> r = RStar ws_class -> blank_between s i j.
Proof.
  intros s r i j H. induction H; intros Hr; try discriminate.
  - unfold blank_between, substring. rewrite Nat.sub_diag. reflexivity.
  - injection Hr as ->. inversion H; subst.
    pose proof (matches_forward _ _ _ _ H1) as Hfw.
    unfold blank_between in *.
    rewrite (substring_step s i k ch) by (assumption || lia).
    unfold strip_ws in *. cbn [filter].
    match goal with Hws : is_ws ch = true |- _ => rewrite Hws end.
    cbn. apply IHmatches2. reflexivity.
Qed.

Lemma SENTENCE_SPLIT_blank : forall s, blank_matches SENTENCE_SPLIT s.
Proof.
  intros s q e H. cbn in H. inversion H; subst.
  match goal with Hb : matches s (RBehind _) _ _ |- _ => inversion Hb; subst end.
  eapply star_ws_blank; [eassumption | reflexivity].
Qed.

Lemma regexp_split_sentences : forall text,
  exists r,
    regexp_split SENTENCE_SPLIT text = Some (map Some r) /\
    strip_ws (concat r) = strip_ws text.
Proof.
  intros text.
  destruct (regexp_split_total SENTENCE_SPLIT text) as (out & Hout & _).
  rewrite Hout. unfold regexp_split in Hout.
  destruct text as [|ch t] eqn:Htext.
  - cbn in Hout. injection Hout as <-. exists [[]]. split; reflexivity.
  - rewrite <- Htext in *.
    apply (split_loop_blank SENTENCE_SPLIT text eq_refl
             (SENTENCE_SPLIT_blank text)) in Hout as (r & -> & Hr); [|lia].
    exists r. split; [reflexivity | exact Hr].
Qed.

(** *** Sentences *)

Lemma strip_ws_trim_start : forall s, strip_ws (trim_start s) = strip_ws s.
Proof.
  induction s as [|c s IH]; [reflexivity|]. cbn [trim_start].
  destruct (is_ws c) eqn:Hc; [|reflexivity].
  rewrite IH. unfold strip_ws. cbn [filter]. rewrite Hc. reflexivity.
Qed.

Lemma strip_ws_rev : forall s, strip_ws (rev s) = rev (strip_ws s).
Proof.
  induction s as [|c s IH]; [reflexivity|].
  cbn [rev]. rewrite strip_ws_app, IH. unfold strip_ws. cbn [filter].
  destruct (is_ws c); cbn; [rewrite app_nil_r|]; reflexivity.
Qed.

Lemma strip_ws_trim : forall s, strip_ws (trim s) = strip_ws s.
Proof.
  intros s. unfold trim.
  rewrite strip_ws_rev, strip_ws_trim_start, strip_ws_rev, rev_involutive.
  apply strip_ws_trim_start.
Qed.

Lemma trim_start_head : forall s c t, trim_start s = c :: t -> is_ws c = false.
Proof.
  induction s as [|x s IH]; intros c t H; [discriminate|].
  cbn [trim_start] in H. destruct (is_ws x) eqn:Hx.
  - eapply IH. exact H.
  - injection H as <- _. exact Hx.
Qed.

(** A string that is not empty once trimmed holds a character other than
    white space. *)
Lemma trim_nonempty_chars : forall s,
  0 < length (trim s) -> 0 < length (strip_ws (trim s)).
Proof.
  intros s H. unfold trim in *.
  destruct (trim_start (rev (trim_start s))) as [|c t] eqn:Hu.
  - cbn in H. lia.
  - apply trim_start_head in Hu.
    rewrite strip_ws_rev, length_rev. unfold strip_ws. cbn [filter].
    rewrite Hu. cbn. lia.
Qed.

Section Sentences.

Variable id_of_call : nat -> jsstring.

Lemma trim_all_some : forall r n,
  trim_all (map Some r) n = Ok (map trim r, n).
Proof.
  induction r as [|p r IH]; intros n; [reflexivity|].
  cbn [map trim_all]. unfold bind. rewrite IH. reflexivity.
Qed.

Lemma splitIntoSentences_eq : forall text n,
  splitIntoSentences text n = Ok (sentences_of text, n).
Proof.
  intros text n. unfold splitIntoSentences, sentences_of.
  destruct (regexp_split_sentences text) as (r & Hr & _).
  rewrite Hr. unfold bind, of_option, ret. rewrite trim_all_some.
  rewrite map_map. reflexivity.
Qed.

Lemma chars_sum_cons : forall s l,
  chars_sum (s :: l) = length (strip_ws s) + chars_sum l.
Proof. reflexivity. Qed.

Lemma chars_sum_pieces : forall r,
  chars_sum (filter (fun s => 0 <? length s) (map trim r))
  = length (strip_ws (concat r)).
Proof.
  induction r as [|p r IH]; [reflexivity|].
  cbn [map filter concat]. rewrite strip_ws_app, length_app, <- IH.
  rewrite <- (strip_ws_trim p).
  destruct (0 <? length (trim p)) eqn:Hp.
  - rewrite chars_sum_cons. reflexivity.
  - apply Nat.ltb_ge in Hp.
    assert (Hnil : trim p = []) by (apply length_zero_iff_nil; lia).
    rewrite Hnil. reflexivity.
Qed.

Lemma sentences_chars : forall text,
  chars_sum (sentences_of text) = length (strip_ws text).
Proof.
  intros text. unfold sentences_of.
  destruct (regexp_split_sentences text) as (r & Hr & Hchars).
  rewrite Hr, map_map. cbn [piece_text or_default].
  rewrite <- Hchars. apply chars_sum_pieces.
Qed.

Lemma sentence_has_char : forall text s,
  In s (sentences_of text) -> s <> [] /\ 0 < length (strip_ws s).
Proof.
  intros text s H. unfold sentences_of in H.
  destruct (regexp_split SENTENCE_SPLIT text) as [pieces|]; [|contradiction].
  apply filter_In in H as [Hin Hlen]. apply Nat.ltb_lt in Hlen.
  apply in_map_iff in Hin as (o & <- & _).
  split.
  - intros Hnil. rewrite Hnil in Hlen. cbn in Hlen. lia.
  - apply trim_nonempty_chars. exact Hlen.
Qed.

End Sentences.

(** *** Chains of segments *)

Section Chains.

Variable D : JSNum.
Variable d : Q.

Lemma mirrors_zero : mirrors D d num_zero 0.
Proof. exact (mirrors_count D d 0). Qed.

Lemma chain_start_eq : forall segs t0 t0' t1,
  (t0 == t0')%Q -> chain D d t0 segs t1 -> chain D d t0' segs t1.
Proof.
  intros [|s segs] t0 t0' t1 Heq H; cbn [chain] in *.
  - rewrite <- Heq. exact H.
  - destruct H as (b & dur & Hs & He & Hd & Hb & Hrest).
    exists b, dur. repeat split; try assumption.
    + eapply mirrors_eq; eassumption.
    + rewrite Hb, Heq. reflexivity.
Qed.

Lemma chain_end_eq : forall segs t0 t1 t1',
  (t1 == t1')%Q -> chain D d t0 segs t1 -> chain D d t0 segs t1'.
Proof.
  induction segs as [|s segs IH]; intros t0 t1 t1' Heq H; cbn [chain] in *.
  - rewrite H. exact Heq.
  - destruct H as (b & dur & Hs & He & Hd & Hb & Hrest).
    exists b, dur. repeat split; try assumption. eapply IH; eassumption.
Qed.

Lemma chain_app : forall l1 l2 t0 t t1,
  chain D d t0 l1 t -> chain D d t l2 t1 -> chain D d t0 (l1 ++ l2) t1.
Proof.
  induction l1 as [|s l1 IH]; intros l2 t0 t t1 H1 H2; cbn [chain app] in *.
  - eapply chain_start_eq; [|exact H2]. symmetry. exact H1.
  - destruct H1 as (b & dur & Hs & He & Hd & Hb & Hrest).
    exists b, dur. repeat split; try assumption. eapply IH; eassumption.
Qed.

(** The durations of a chain add up to its length, up to rounding. *)
Lemma chain_sum : forall segs t0 t1,
  chain D d t0 segs t1 ->
  mirrors D d (sum_durations segs) (t1 - t0).
Proof.
  induction segs as [|s segs IH]; intros t0 t1 H; cbn [chain] in H.
  - cbn [sum_durations fold_right]. eapply mirrors_eq; [apply mirrors_zero|].
    rewrite H. ring.
  - destruct H as (b & dur & Hs & He & Hd & Hb & Hrest).
    cbn [sum_durations fold_right]. fold (sum_durations segs).
    eapply mirrors_eq; [apply mirrors_add; [exact Hd | apply (IH b t1 Hrest)]|].
    rewrite Hb. ring.
Qed.

Lemma chain_one : forall id text t du tq dq,
  mirrors D d t tq -> mirrors D d du dq ->
  chain D d tq [untimed_segment id text t du] (tq + dq).
Proof.
  intros id text t du tq dq Ht Hd. cbn [chain untimed_segment].
  exists (tq + dq)%Q, dq. cbn [Seg.startTime Seg.endTime Seg.duration].
  repeat split; try assumption; try reflexivity.
  apply mirrors_add; assumption.
Qed.

(** The merge pass keeps a chain: a fused segment spans its two parts. *)
Lemma pass_chain : forall id_of_call opts segs n t0 t1,
  chain D d t0 segs t1 ->
  chain D d t0 (fst (greedy_pass id_of_call merged_segment opts segs n)) t1.
Proof.
  intros id_of_call opts segs.
  induction segs as [| a | a b l IHl IHbl] using pair_induction;
    intros n t0 t1 H.
  - exact H.
  - exact H.
  - rewrite pass_two. destruct (should_merge opts a b); cbn [fst].
    + cbn [chain] in H.
      destruct H as (b1 & d1 & Hs1 & He1 & Hd1 & Hb1 & H).
      destruct H as (b2 & d2 & Hs2 & He2 & Hd2 & Hb2 & Hrest).
      cbn [chain merged_segment Seg.startTime Seg.endTime Seg.duration].
      exists b2, (b2 - t0)%Q. repeat split; try assumption.
      * apply mirrors_sub; assumption.
      * ring.
      * apply IHl. exact Hrest.
    + cbn [chain] in H |- *.
      destruct H as (b1 & d1 & Hs1 & He1 & Hd1 & Hb1 & Hrest).
      exists b1, d1. repeat split; try assumption. apply IHbl. exact Hrest.
Qed.

End Chains.

(** *** The cut of a long sentence *)

Lemma split_words_eq : forall s n, split_words s n = Ok (words_of s, n).
Proof.
  intros s n. unfold split_words, words_of.
  destruct (regexp_split_total WHITESPACE_RUN s) as (r & Hr & _).
  rewrite Hr. reflexivity.
Qed.

Lemma words_of_nonempty : forall s, s <> [] -> words_of s <> [].
Proof.
  intros s Hs. unfold words_of.
  destruct (regexp_split_total WHITESPACE_RUN s) as (r & Hr & Hne).
  rewrite Hr. specialize (Hne Hs). destruct r; [contradiction | discriminate].
Qed.

Lemma nat_Q_min_step : forall m w k,
  m < k ->
  (nat_Q (Nat.min (m + w) k) == nat_Q m + nat_Q (Nat.min (m + w) k - m))%Q.
Proof.
  intros m w k H. rewrite <- nat_Q_plus. f_equiv. lia.
Qed.

Section WordCount.

Variable id_of_call : nat -> jsstring.
Variable D : JSNum.
Variable d : Q.
Variable words : list jsstring.
Variable dpw : JSNum.
Variable dq : Q.
Hypothesis dpw_mirrors : mirrors D d dpw dq.
Variable w : nat.
Hypothesis w_pos : 1 <= w.
Hypothesis small : (Z.of_nat (length words + w) < 2 ^ 53)%Z.
Variable t0 : Q.

Let k := length words.

Lemma word_count_loop_chain : forall fuel m t tq segments n,
  m < k + w ->
  k - m < fuel ->
  mirrors D d t tq ->
  chain D d t0 segments tq ->
  (tq == t0 + nat_Q (Nat.min m k) * dq)%Q ->
  exists segs n',
    word_count_loop id_of_call fuel words dpw (num_of_nat w) (num_of_nat m)
                    t segments n = Ok (segs, n') /\
    chain D d t0 segs (t0 + nat_Q k * dq).
Proof.
  induction fuel as [|fuel IH]; intros m t tq segments n Hm Hfuel Ht Hchain Htq;
    [lia|].
  cbn [word_count_loop].
  rewrite (num_of_nat_lt m (length words)) by (fold k; lia). fold k.
  destruct (m <? k) eqn:Hmk.
  - apply Nat.ltb_lt in Hmk. unfold bind, generateId.
    rewrite (num_of_nat_add m w) by (fold k in small; lia).
    set (segmentWords := js_slice words (num_of_nat m) (num_of_nat (m + w))).
    assert (Hlen : length segmentWords = Nat.min (m + w) k - m).
    { unfold segmentWords, js_slice.
      rewrite !slice_index_of_nat by (fold k in small; lia). fold k.
      rewrite length_firstn, length_skipn. fold k. lia. }
    apply (IH (m + w) _ (tq + nat_Q (length segmentWords) * dq)%Q).
    + lia.
    + lia.
    + apply mirrors_add; [exact Ht|].
      apply mirrors_mul; [apply mirrors_count | exact dpw_mirrors].
    + eapply chain_app; [exact Hchain|]. apply chain_one; [exact Ht|].
      apply mirrors_mul; [apply mirrors_count | exact dpw_mirrors].
    + rewrite Htq, Hlen, (Nat.min_l m k) by lia.
      rewrite (nat_Q_min_step m w k Hmk). ring.
  - apply Nat.ltb_ge in Hmk. exists segments, n. split; [reflexivity|].
    eapply chain_end_eq; [|exact Hchain].
    rewrite Htq, Nat.min_r by lia. reflexivity.
Qed.

End WordCount.

Section LongSentences.

Variable id_of_call : nat -> jsstring.
Variable opts : RequiredOptions.
Variable D : JSNum.
Variable d : Q.

(** The cut by word count fills the duration it is given. *)
Lemma splitByWordCount_chain : forall words t tq est ev n,
  words <> [] ->
  mirrors D d t tq -> mirrors D d est ev ->
  whole_steps opts words est ->
  exists segs n',
    splitByWordCount id_of_call words t est opts n = Ok (segs, n') /\
    chain D d tq segs (tq + ev).
Proof.
  intros words t tq est ev n Hne Ht Hest (w & Hw & Hsmall & Hceil).
  unfold splitByWordCount. rewrite Hceil.
  assert (Hk : 0 < length words) by (destruct words; [contradiction | cbn; lia]).
  pose proof (nat_Q_pos _ Hk) as HkQ.
  set (dpw := (est / num_of_nat (length words))%js).
  assert (Hdpw : mirrors D d dpw (ev / nat_Q (length words))).
  { apply mirrors_div; [exact Hest | apply mirrors_count | lra]. }
  destruct (word_count_loop_chain id_of_call D d words dpw _ Hdpw w Hw Hsmall tq
              (S (length words)) 0 t tq [] n)
    as (segs & n' & Hrun & Hchain).
  - lia.
  - lia.
  - exact Ht.
  - cbn [chain]. reflexivity.
  - cbn [Nat.min]. change (nat_Q 0) with 0%Q. lra.
  - exists segs, n'. split; [exact Hrun|].
    eapply chain_end_eq; [|exact Hchain]. field. lra.
Qed.

(** The loop over the parts of a long sentence. *)
Lemma long_sentence_loop_chain :
  forall sentence est ev parts t0 t tq segments n,
    0 < length (strip_ws sentence) ->
    mirrors D d est ev ->
    (forall part, In part parts ->
       0 < length (trim part) /\
       ((part_duration sentence est part >? Opts.maxDuration opts)%js = true ->
        whole_steps opts (words_of part) (part_duration sentence est part))) ->
    mirrors D d t tq ->
    chain D d t0 segments tq ->
    exists segs n',
      long_sentence_loop id_of_call parts
        (num_of_nat (length (strip_ws sentence))) est opts t segments n
      = Ok (segs, n') /\
      chain D d t0 segs
        (tq + nat_Q (chars_sum parts) / nat_Q (length (strip_ws sentence)) * ev).
Proof.
  intros sentence est ev parts t0 t tq segments n Hchars Hest.
  pose proof (nat_Q_pos _ Hchars) as HcQ.
  revert t tq segments n.
  induction parts as [|part parts IH]; intros t tq segments n Hall Ht Hchain.
  - exists segments, n. split; [reflexivity|].
    eapply chain_end_eq; [|exact Hchain].
    change (nat_Q (chars_sum [])) with 0%Q. field. lra.
  - cbn [long_sentence_loop].
    fold (part_duration sentence est part).
    set (pd := part_duration sentence est part).
    set (pq := (nat_Q (length (strip_ws part))
                / nat_Q (length (strip_ws sentence)) * ev)%Q).
    assert (Hpd : mirrors D d pd pq).
    { apply mirrors_mul; [|exact Hest].
      apply mirrors_div; [apply mirrors_count | apply mirrors_count | lra]. }
    destruct (Hall part (or_introl eq_refl)) as [Hpart Hlong].
    assert (Hrest : forall p, In p parts ->
       0 < length (trim p) /\
       ((part_duration sentence est p >? Opts.maxDuration opts)%js = true ->
        whole_steps opts (words_of p) (part_duration sentence est p))).
    { intros p Hin. apply Hall. right. exact Hin. }
    assert (Hend : forall segs,
      chain D d t0 segs
        (tq + pq + nat_Q (chars_sum parts)
                   / nat_Q (length (strip_ws sentence)) * ev) ->
      chain D d t0 segs
        (tq + nat_Q (chars_sum (part :: parts))
              / nat_Q (length (strip_ws sentence)) * ev)).
    { intros segs Hc. eapply chain_end_eq; [|exact Hc].
      rewrite chars_sum_cons, nat_Q_plus. unfold pq. field. lra. }
    destruct (pd >? Opts.maxDuration opts)%js eqn:Hgt.
    + assert (Hne : part <> []).
      { intros ->. cbn in Hpart. lia. }
      destruct (splitByWordCount_chain (words_of part) t tq pd pq n
                  (words_of_nonempty part Hne) Ht Hpd (Hlong Hgt))
        as (sub & n1 & Hsub & Hc).
      assert (Hin :
        bind (bind (split_words part)
                (fun ws => bind (splitByWordCount id_of_call ws t pd opts)
                             (fun subSegments => ret (segments ++ subSegments))))
             (fun segments' =>
                long_sentence_loop id_of_call parts
                  (num_of_nat (length (strip_ws sentence))) est opts
                  (t + pd)%js segments') n
        = long_sentence_loop id_of_call parts
            (num_of_nat (length (strip_ws sentence))) est opts
            (t + pd)%js (segments ++ sub) n1).
      { unfold bind at 1 2. rewrite split_words_eq.
        unfold bind at 1. rewrite Hsub. reflexivity. }
      rewrite Hin.
      destruct (IH (t + pd)%js (tq + pq)%Q (segments ++ sub) n1 Hrest)
        as (segs & n' & Hrun & Hc').
      * apply mirrors_add; assumption.
      * eapply chain_app; eassumption.
      * exists segs, n'. split; [exact Hrun | apply Hend; exact Hc'].
    + unfold bind at 2. unfold generateId. unfold ret at 1. unfold bind.
      destruct (IH (t + pd)%js (tq + pq)%Q
                  (segments ++ [untimed_segment (id_of_call n) (trim part) t pd])
                  (S n) Hrest)
        as (segs & n' & Hrun & Hc').
      * apply mirrors_add; assumption.
      * eapply chain_app; [exact Hchain | apply chain_one; assumption].
      * exists segs, n'. split; [exact Hrun | apply Hend; exact Hc'].
Qed.

(** A long sentence whose cut keeps its time fills its estimated
    duration. *)
Lemma splitLongSentence_chain : forall sentence t tq est ev n,
  sentence <> [] -> 0 < length (strip_ws sentence) ->
  mirrors D d t tq -> mirrors D d est ev ->
  cut_keeps_time opts sentence est ->
  exists segs n',
    splitLongSentence id_of_call sentence t est opts n = Ok (segs, n') /\
    chain D d tq segs (tq + ev).
Proof.
  intros sentence t tq est ev n Hs Hchars Ht Hest (parts & Hparts & Hcut).
  unfold splitLongSentence. rewrite (bind_ret_step _ _ _ _ _ _ _ (Hparts n)).
  destruct (length parts <=? 1).
  - rewrite (bind_ret_step _ _ _ _ _ _ _ (split_words_eq sentence n)).
    apply splitByWordCount_chain; try assumption.
    apply words_of_nonempty. exact Hs.
  - destruct Hcut as [Hsum Hall].
    destruct (long_sentence_loop_chain sentence est ev parts tq t tq [] n
                Hchars Hest Hall Ht)
      as (segs & n' & Hrun & Hchain).
    + cbn [chain]. reflexivity.
    + exists segs, n'. split; [exact Hrun|].
      eapply chain_end_eq; [|exact Hchain].
      rewrite Hsum. pose proof (nat_Q_pos _ Hchars). field. lra.
Qed.

End LongSentences.

(** *** The loop over the sentences *)

Lemma est_sum_total : forall cps sentences,
  (0 < cps)%Q ->
  (est_sum cps sentences == nat_Q (chars_sum sentences) / cps)%Q.
Proof.
  intros cps sentences Hcps. induction sentences as [|s sentences IH].
  - unfold est_sum; cbn [fold_right]. change (nat_Q (chars_sum [])) with 0%Q.
    field. lra.
  - unfold est_sum; cbn [fold_right]. fold (est_sum cps sentences). rewrite IH.
    rewrite chars_sum_cons, nat_Q_plus. field. lra.
Qed.

Section DurationPath.

Variable id_of_call : nat -> jsstring.
Variable opts : RequiredOptions.
Variable D : JSNum.
Variable d : Q.

(** Characters per second, as a double and exactly. *)
Variable cps : JSNum.
Variable cq : Q.
Hypothesis cps_mirrors : mirrors D d cps cq.
Hypothesis cq_pos : (0 < cq)%Q.

(** Every sentence of the loop is taken whole or, when its estimated
    duration is over [maxDuration], cut in a way that keeps its time. *)
Lemma sentence_loop_chain : forall sentences t0 t tq segments n,
  (forall s, In s sentences ->
     s <> [] /\ 0 < length (strip_ws s) /\
     ((num_of_nat (length (strip_ws s)) / cps >? Opts.maxDuration opts)%js
        = true ->
      cut_keeps_time opts s (num_of_nat (length (strip_ws s)) / cps)%js)) ->
  mirrors D d t tq ->
  chain D d t0 segments tq ->
  exists segs n',
    sentence_loop id_of_call sentences cps opts t segments n = Ok (segs, n') /\
    chain D d t0 segs (tq + est_sum cq sentences).
Proof.
  induction sentences as [|s sentences IH];
    intros t0 t tq segments n Hall Ht Hchain.
  - exists segments, n. split; [reflexivity|].
    eapply chain_end_eq; [|exact Hchain]. unfold est_sum; cbn [fold_right]. lra.
  - cbn [sentence_loop].
    destruct (Hall s (or_introl eq_refl)) as (Hs & Hchars & Hlong).
    set (est := (num_of_nat (length (strip_ws s)) / cps)%js) in *.
    set (ev := (nat_Q (length (strip_ws s)) / cq)%Q).
    assert (Hest : mirrors D d est ev).
    { apply mirrors_div; [apply mirrors_count | exact cps_mirrors | lra]. }
    assert (Hrest : forall s', In s' sentences ->
      s' <> [] /\ 0 < length (strip_ws s') /\
      ((num_of_nat (length (strip_ws s')) / cps >? Opts.maxDuration opts)%js
         = true ->
       cut_keeps_time opts s' (num_of_nat (length (strip_ws s')) / cps)%js)).
    { intros s' Hin. apply Hall. right. exact Hin. }
    assert (Hend : forall segs,
      chain D d t0 segs (tq + ev + est_sum cq sentences) ->
      chain D d t0 segs (tq + est_sum cq (s :: sentences))).
    { intros segs Hc. eapply chain_end_eq; [|exact Hc].
      unfold est_sum; cbn [fold_right]. fold (est_sum cq sentences).
      unfold ev. lra. }
    destruct (est >? Opts.maxDuration opts)%js eqn:Hgt.
    + destruct (splitLongSentence_chain id_of_call opts D d s t tq est ev n
                  Hs Hchars Ht Hest (Hlong eq_refl))
        as (sub & n1 & Hsub & Hc).
      assert (Hin :
        bind (splitLongSentence id_of_call s t est opts)
             (fun subSegments => ret (segments ++ subSegments)) n
        = Ok (segments ++ sub, n1)).
      { rewrite (bind_ret_step _ _ _ _ _ _ _ Hsub). reflexivity. }
      rewrite (bind_ret_step _ _ _ _ _ _ _ Hin).
      destruct (IH t0 (t + est)%js (tq + ev)%Q (segments ++ sub) n1 Hrest)
        as (segs & n' & Hrun & Hc').
      * apply mirrors_add; assumption.
      * eapply chain_app; eassumption.
      * exists segs, n'. split; [exact Hrun | apply Hend; exact Hc'].
    + unfold bind at 2. unfold generateId. unfold ret at 1.
      destruct (IH t0 (t + est)%js (tq + ev)%Q
                  (segments ++ [untimed_segment (id_of_call n) (trim s) t est])
                  (S n) Hrest)
        as (segs & n' & Hrun & Hc').
      * apply mirrors_add; assumption.
      * eapply chain_app; [exact Hchain | apply chain_one; assumption].
      * exists segs, n'. split; [unfold bind; exact Hrun | apply Hend; exact Hc'].
Qed.

End DurationPath.

(** The durations of the segments of [splitTextByDuration] mirror the total
    duration when every long sentence is cut in a way that keeps its time. *)
Lemma splitTextByDuration_mirrors_total :
  forall id_of_call text (D : JSNum) (d : Q) options,
    exact_value D = Some d -> (0 < d)%Q ->
    sentences_of text <> [] ->
    (forall s, In s (sentences_of text) ->
       (estimated_duration text D s
        >? Opts.maxDuration (with_defaults options))%js = true ->
       cut_keeps_time (with_defaults options) s
                      (estimated_duration text D s)) ->
    durations_mirror_total id_of_call text D options.
Proof.
  intros id_of_call text D d options HD Hd Hne Hlong n.
  unfold splitTextByDuration.
  rewrite (bind_ret_step _ _ _ _ _ _ _ (splitIntoSentences_eq text n)).
  destruct (sentences_of text) as [|s0 rest] eqn:Hsent; [contradiction|].
  cbn [length Nat.eqb]. rewrite <- Hsent in *.
  set (N := length (strip_ws text)).
  assert (HN : 0 < N).
  { unfold N. rewrite <- sentences_chars, Hsent, chars_sum_cons.
    destruct (sentence_has_char text s0) as [_ H0];
      [rewrite Hsent; left; reflexivity | lia]. }
  pose proof (nat_Q_pos _ HN) as HNQ.
  set (cps := (num_of_nat N / D)%js).
  set (cq := (nat_Q N / d)%Q).
  assert (Hcq : (0 < cq)%Q) by (unfold cq; apply Qlt_shift_div_l; lra).
  assert (Hcps : mirrors D d cps cq).
  { apply mirrors_div; [apply mirrors_count | apply mirrors_total | lra]. }
  destruct (sentence_loop_chain id_of_call (with_defaults options) D d cps cq
              Hcps Hcq (sentences_of text) 0 num_zero 0 [] n)
    as (segs & n1 & Hloop & Hchain).
  - intros s Hin. destruct (sentence_has_char text s Hin) as [Hs Hc].
    split; [exact Hs|]. split; [exact Hc|]. apply (Hlong s Hin).
  - apply mirrors_zero.
  - cbn [chain]. reflexivity.
  - rewrite (bind_ret_step _ _ _ _ _ _ _ Hloop).
    rewrite mergeShortSegments_is_pass.
    pose proof (pass_chain D d id_of_call (with_defaults options) segs n1 _ _
                  Hchain) as Hout.
    destruct (greedy_pass id_of_call merged_segment (with_defaults options)
                          segs n1) as [out n2].
    exists out, n2, d. split; [reflexivity|]. split; [exact HD|].
    cbn [fst] in Hout. apply chain_sum in Hout.
    eapply mirrors_eq; [exact Hout|].
    rewrite est_sum_total by exact Hcq.
    rewrite sentences_chars. fold N. unfold cq. field. lra.
Qed.

(* ================================================================== *)
(** ** The scenarios of section 8 *)
(* ================================================================== *)

(** Six words without punctuation or pause that end after 3.2 s: one
    segment from 0 to 3.2 s. *)
Lemma scenario_single_segment :
  exists seg,
    splitSubtitles demo_ids (STT.mk [] words_hi_there (Fin (32 # 10)) None)
                   Partial.empty 0 = Ok ([seg], 1) /\
    Seg.text seg = js "hi there how are you doing" /\
    Seg.startTime seg = Fin 0 /\
    Seg.endTime seg = Fin (32 # 10) /\
    Seg.words seg = words_hi_there.
Proof.
  eexists. split; [vm_compute; reflexivity|]. repeat split.
Qed.

(** Two segments of 0.8 s and 0.9 s are merged into one of 1.7 s. *)
Lemma scenario_short_pair_merged :
  exists seg,
    mergeShortSegments demo_ids segs_short_pair DEFAULT_OPTIONS 0
    = Ok ([seg], 1) /\
    Seg.text seg = js "a b" /\
    num_eqb (Seg.duration seg) (Fin (17 # 10)) = true.
Proof.
  eexists. split; [vm_compute; reflexivity|]. split; vm_compute; reflexivity.
Qed.

(** Two sentences of six characters over four seconds: two segments of two
    seconds, without words. *)
Lemma scenario_two_sentences :
  exists s1 s2,
    splitTextByDuration demo_ids text_two_sentences (Fin 4) Partial.empty 0
    = Ok ([s1; s2], 2) /\
    Seg.words s1 = [] /\ Seg.words s2 = [] /\
    Seg.startTime s1 = Fin 0 /\
    num_eqb (Seg.endTime s1) (Fin 2) = true /\
    num_eqb (Seg.startTime s2) (Fin 2) = true /\
    num_eqb (Seg.endTime s2) (Fin 4) = true.
Proof.
  eexists. eexists. split; [vm_compute; reflexivity|].
  repeat split; vm_compute; reflexivity.
Qed.

(** The merge across a silence, from the words on: a word of fifty
    characters closes a segment of one second, the next word starts two
    seconds later, and [splitSubtitles] returns one segment of five
    seconds. *)
Lemma splitSubtitles_merges_across_silence :
  exists seg,
    splitSubtitles demo_ids (STT.mk [] words_long_token (Fin 5) None)
                   Partial.empty 0 = Ok ([seg], 3) /\
    Seg.duration seg = Fin 5 /\
    ~ under_ceiling DEFAULT_OPTIONS seg.
Proof.
  eexists. split; [vm_compute; reflexivity|]. split.
  - vm_compute. reflexivity.
  - intros H. vm_compute in H. discriminate.
Qed.

(* ================================================================== *)
(** ** The claims *)
(* ================================================================== *)

(** C1 (coverage).  [splitSubtitles] returns, and the [words] fields of the
    segments it returns after the merge pass, put end to end, are the input
    word list: every word appears once, in its place.  (The order of the
    time stamps plays no part, and the empty list is covered too.) *)
Theorem splitSubtitles_covers_words :
  forall id_of_call (sttResult : STTResult) (options : SplitterOptions) n,
  exists segs n',
    splitSubtitles id_of_call sttResult options n = Ok (segs, n') /\
    concat (map Seg.words segs) = STT.words sttResult.
Proof.
  intros id_of_call sttResult options n. unfold splitSubtitles.
  destruct (STT.words sttResult) as [|w0 ws] eqn:Hwords.
  - exists [], n. split; reflexivity.
  - cbn [length Nat.eqb].
    destruct (scanWords_result id_of_call w0 ws (with_defaults options) n)
      as (segs & n1 & Hscan & Hcat & _).
    rewrite (bind_ret_step _ _ _ _ _ _ _ Hscan).
    rewrite mergeShortSegments_is_pass.
    destruct (greedy_pass id_of_call merged_segment (with_defaults options)
                          segs n1) as [out n2] eqn:Hpass.
    exists out, n2. split; [reflexivity|].
    rewrite <- Hcat.
    rewrite <- (pass_words id_of_call (with_defaults options) segs n1).
    rewrite Hpass. reflexivity.
Qed.

(** C2 (split policy).  At the word of index [i], pushed on the buffer of a
    segment started at [start], the decision of [checkShouldSplit] is
    [true] exactly when the word is the last one, or the elapsed time has
    reached [maxDuration], or the buffered characters other than white space
    have reached [maxCharacters], or the word matches [sentenceDelimiters] or
    the Korean sentence endings and the elapsed time has reached
    [minDuration], or the buffered text matches [naturalBreakPattern] and the
    elapsed time has reached [targetDuration], or the silence before the next
    word is at least half a second and the elapsed time has reached
    [minDuration], or the elapsed time has reached [targetDuration] and the
    next word starts with a clause-starting word. *)
Theorem checkShouldSplit_policy :
  forall opts words i word buffer start,
    nth_error words i = Some word ->
    checkShouldSplit
      (split_params opts (buffer ++ [word]) start word (nth_error words (i + 1)))
    = true
    <-> split_conditions opts words i word (buffer ++ [word]) start.
Proof.
  intros opts words i word buffer start Hw.
  rewrite checkShouldSplit_true. unfold split_params, split_conditions.
  cbn [Params.nextWord Params.currentDuration Params.opts Params.word
       Params.currentCharCount Params.currentText].
  replace (i + 1) with (S i) by lia.
  assert (Hi : i < length words) by (apply nth_error_Some; congruence).
  destruct (nth_error words (S i)) as [next|] eqn:Hnext.
  - assert (Hlt : S i < length words) by (apply nth_error_Some; congruence).
    cbv zeta. rewrite (CLAUSE_START_test (Word.word next)). split.
    + intros [H | [H | [H | [H | [[Hg Hm] | [Ht Hc]]]]]].
      * right; left; exact H.
      * right; right; left; exact H.
      * right; right; right; left; exact H.
      * right; right; right; right; left; exact H.
      * right; right; right; right; right; left.
        exists next. repeat split; assumption.
      * right; right; right; right; right; right.
        split; [exact Ht|]. exists next. split; [reflexivity | exact Hc].
    + intros [H | [H | [H | [H | [H | [(nw & Hnw & Hg & Hm) | [Ht (nw & Hnw & Hc)]]]]]]].
      * lia.
      * left; exact H.
      * right; left; exact H.
      * right; right; left; exact H.
      * right; right; right; left; exact H.
      * injection Hnw as <-. right; right; right; right; left.
        split; assumption.
      * injection Hnw as <-. right; right; right; right; right.
        split; assumption.
  - apply nth_error_None in Hnext. split; [|trivial].
    intros _. left. lia.
Qed.

Lemma checkShouldSplit_policy_witness :
  checkShouldSplit
    (split_params DEFAULT_OPTIONS ([demo_word "a" 0 1] ++ [demo_word "b" 5 6])
                  (Fin 0) (demo_word "b" 5 6)
                  (nth_error words_with_silence (1 + 1)))
  = true
  <-> split_conditions DEFAULT_OPTIONS words_with_silence 1 (demo_word "b" 5 6)
        ([demo_word "a" 0 1] ++ [demo_word "b" 5 6]) (Fin 0).
Proof.
  apply (checkShouldSplit_policy DEFAULT_OPTIONS words_with_silence 1
           (demo_word "b" 5 6) [demo_word "a" 0 1] (Fin 0)).
  reflexivity.
Defined.

(** C3, as stated, fails.  With the default options the words
    a (0-1 s), b (5-6 s), c (6-7 s) give, before the merge pass, a first
    segment "a b" of six seconds: it is over [maxDuration], holds two words
    of one second each and is not the final segment. *)
Lemma hard_ceilings_pre_merge_fails :
  ~ hard_ceilings_pre_merge demo_ids words_with_silence DEFAULT_OPTIONS.
Proof.
  intros H.
  destruct words_with_silence_scan as (s1 & s2 & Hrun & Hwords & _ & Hdur).
  destruct (H 0 [s1; s2] 2 Hrun 0 s1 eq_refl)
    as [[Hd _] | [Hl | [(pre & w & Hw & Hlong) | Hk]]].
  - rewrite Hdur in Hd. discriminate.
  - rewrite Hwords in Hl. discriminate.
  - rewrite Hwords in Hw.
    change [demo_word "a" 0 1; demo_word "b" 5 6]
      with ([demo_word "a" 0 1] ++ [demo_word "b" 5 6]) in Hw.
    apply app_inj_tail in Hw as [_ <-].
    vm_compute in Hlong. discriminate.
  - discriminate.
Qed.

(** C3, amended.  On a non-empty word list the segmenter returns (before
    the merge pass) segments that hold all the words in order, and in each
    segment only the last word can reach a ceiling: at every earlier word
    the elapsed time from the start of the segment is not at or over
    [maxDuration], and the characters other than white space buffered so far
    are not at or over [maxCharacters]. *)
Theorem scanWords_ceilings_before_last :
  forall id_of_call w0 ws opts n,
  exists segs n',
    scanWords id_of_call (w0 :: ws) opts n = Ok (segs, n') /\
    concat (map Seg.words segs) = w0 :: ws /\
    forall seg, In seg segs ->
    forall pre w rest,
      Seg.words seg = pre ++ w :: rest -> rest <> [] ->
      (Word.endTime w - Seg.startTime seg >=? Opts.maxDuration opts)%js = false
      /\
      (num_of_nat (length (strip_ws (words_text (pre ++ [w])))) >=?
         Opts.maxCharacters opts)%js = false.
Proof.
  intros id_of_call w0 ws opts n.
  destruct (scanWords_result id_of_call w0 ws opts n)
    as (segs & n' & Hrun & Hcat & Hceil).
  exists segs, n'. split; [exact Hrun|]. split; [exact Hcat|].
  intros seg Hin pre w rest Hwords Hrest.
  rewrite Forall_forall in Hceil.
  exact (Hceil seg Hin pre w rest Hwords Hrest).
Qed.

(** C4, as stated, fails.  The merger never shortens a segment: given the
    segment "a b" of six seconds followed by "c" of one second (what the
    segmenter hands over for the words above), it keeps the first as it is,
    over the default [maxDuration] of 3.5 s. *)
Lemma merge_respects_ceiling_fails :
  ~ merge_respects_ceiling demo_ids segs_long_first DEFAULT_OPTIONS.
Proof.
  intros H.
  specialize (H 0 segs_long_first 0 eq_refl).
  inversion H as [|s l Hs _]; subst.
  vm_compute in Hs. discriminate.
Qed.

(** C4, amended.  When every input segment has a duration of at most
    [maxDuration] and, for every two segments that follow one another, the
    time from the start of the first to the end of the second is at most the
    sum of their two durations (all as the code computes them, in double
    arithmetic), the merger returns and every segment it returns has a
    duration of at most [maxDuration]. *)
Theorem mergeShortSegments_ceiling :
  forall id_of_call segs opts n,
    Forall (under_ceiling opts) segs ->
    spans_within_sums segs ->
    exists out n',
      mergeShortSegments id_of_call segs opts n = Ok (out, n') /\
      Forall (under_ceiling opts) out.
Proof.
  intros id_of_call segs opts n Hin Hspans.
  rewrite mergeShortSegments_is_pass.
  pose proof (pass_under_ceiling id_of_call opts segs n Hin Hspans) as Hout.
  destruct (greedy_pass id_of_call merged_segment opts segs n) as [out n'].
  exists out, n'. split; [reflexivity | exact Hout].
Qed.

Lemma mergeShortSegments_ceiling_witness :
  exists out n',
    mergeShortSegments demo_ids segs_short_pair DEFAULT_OPTIONS 0
    = Ok (out, n') /\
    Forall (under_ceiling DEFAULT_OPTIONS) out.
Proof.
  apply (mergeShortSegments_ceiling demo_ids segs_short_pair DEFAULT_OPTIONS 0).
  - repeat constructor; vm_compute; reflexivity.
  - simpl. split; [vm_compute; reflexivity | exact I].
Defined.

(** The check that guards a merge adds the two durations and leaves out the
    time between the two segments: segments of one and two seconds that are
    two seconds apart are fused into a segment of five seconds. *)
Lemma merge_across_gap :
  exists m,
    mergeShortSegments demo_ids segs_with_gap DEFAULT_OPTIONS 0 = Ok ([m], 1)
    /\ Forall (under_ceiling DEFAULT_OPTIONS) segs_with_gap
    /\ Seg.duration m = Fin 5
    /\ ~ under_ceiling DEFAULT_OPTIONS m.
Proof.
  eexists. split; [vm_compute; reflexivity|]. split; [|split].
  - repeat constructor; vm_compute; reflexivity.
  - vm_compute. reflexivity.
  - intros Hu. vm_compute in Hu. discriminate.
Qed.

(** The same check is passed by two segments that touch when the sum of
    their durations is rounded down to the ceiling: 0.57-0.7 s and
    0.7-4.07 s have durations that add up to 3.5 in double arithmetic, and
    are fused into a segment whose duration, 4.07 - 0.57, is the next double
    after 3.5. *)
Lemma merge_rounds_over_ceiling :
  exists m,
    mergeShortSegments demo_ids segs_rounding DEFAULT_OPTIONS 0 = Ok ([m], 1)
    /\ Forall (under_ceiling DEFAULT_OPTIONS) segs_rounding
    /\ Forall (fun s => Seg.duration s = (Seg.endTime s - Seg.startTime s)%js)
              segs_rounding
    /\ (sum_durations segs_rounding <=? Opts.maxDuration DEFAULT_OPTIONS)%js
       = true
    /\ Seg.duration m = S754_finite false 7881299347898369 (-51)
    /\ Opts.maxDuration DEFAULT_OPTIONS
       = S754_finite false 7881299347898368 (-51)
    /\ ~ under_ceiling DEFAULT_OPTIONS m.
Proof.
  eexists. split; [vm_compute; reflexivity|].
  split; [repeat constructor; vm_compute; reflexivity|].
  split; [repeat constructor|].
  split; [vm_compute; reflexivity|].
  split; [vm_compute; reflexivity|].
  split; [vm_compute; reflexivity|].
  intros Hu. vm_compute in Hu. discriminate.
Qed.

(** C5, as stated, fails on the text of a fused segment: the code trims it.
    For a first segment without text, the wording gives the text " b", the
    code gives "b". *)
Lemma mergeShortSegments_untrimmed_fails :
  mergeShortSegments demo_ids segs_empty_text DEFAULT_OPTIONS 0
  <> Ok (spec_mergeShort demo_ids segs_empty_text DEFAULT_OPTIONS 0).
Proof. intros H. vm_compute in H. discriminate. Qed.

(** C5, amended.  The merger returns, and what it returns is one greedy
    pass from left to right: a sequence of at most one segment is returned
    as it is; otherwise, at each position, when the current segment is
    shorter than [minDuration], a next segment exists and the two durations
    add up to at most [maxDuration], the pair is replaced by one segment
    (text: the two texts joined by a space, then trimmed; start of the
    first, end of the second; both word lists; a fresh identifier; duration:
    end of the second minus start of the first) and the pass goes on after
    the pair; otherwise the current segment is kept and the pass goes on with
    the next one.  A fused segment is not examined again. *)
Theorem mergeShortSegments_greedy_pass :
  forall id_of_call segs opts n,
    mergeShortSegments id_of_call segs opts n
    = Ok (trimmed_mergeShort id_of_call segs opts n).
Proof.
  intros id_of_call segs opts n. rewrite mergeShortSegments_cases.
  unfold trimmed_mergeShort. reflexivity.
Qed.




(** A cut at a conjunction keeps the time: [split] hands the conjunction
    back as a part of its own, and only white space is lost. *)
Lemma conjunction_cut_keeps_time :
  durations_mirror_total demo_ids text_with_conjunction (Fin 9) Partial.empty.
Proof.
  apply (splitTextByDuration_mirrors_total demo_ids text_with_conjunction
           (Fin 9) 9 Partial.empty).
  - vm_compute. reflexivity.
  - reflexivity.
  - vm_compute. discriminate.
  - intros s Hin. vm_compute in Hin. destruct Hin as [<- | []].
    intros _.
    exists [js "aaaa"; [0xADF8; 0xB9AC; 0xACE0]%N; js "bbbb"]. split.
    + intros n. vm_compute. reflexivity.
    + cbn [length Nat.leb]. split; [vm_compute; reflexivity|].
      intros part Hin. split.
      * destruct Hin as [<- | [<- | [<- | []]]]; vm_compute; lia.
      * intros Hgt. exfalso.
        destruct Hin as [<- | [<- | [<- | []]]]; vm_compute in Hgt;
          discriminate.
Qed.

(** What the amended claim leaves out.  A long sentence is first cut at its
    natural breaks, and [split] drops the separators while the shares are
    still taken from the characters of the whole sentence: with [/,/] as
    pattern, "aaaa,bbbb" over nine seconds gives two segments of four
    seconds. *)
Lemma natural_break_loses_time :
  exists s1 s2,
    splitTextByDuration demo_ids text_with_comma (Fin 9) comma_options 0
    = Ok ([s1; s2], 2) /\
    num_eqb (sum_durations [s1; s2]) (Fin 8) = true.
Proof.
  eexists. eexists. split; [vm_compute; reflexivity|].
  vm_compute. reflexivity.
Qed.

(** With the default pattern, whose second alternative holds a group,
    [split] puts [undefined] in the array for the comma, and the [filter]
    callback throws on it. *)
Lemma default_pattern_throws :
  splitTextByDuration demo_ids text_with_comma (Fin 9) Partial.empty 0
  = Throws TypeError.
Proof. vm_compute. reflexivity. Qed.

(** Whether a sentence is long is decided on the rounded estimate: two
    sentences of seventeen characters over seven seconds are estimated at
    17 / (34 / 7), which in double arithmetic is the next double after 3.5,
    and the first one, which holds a comma, is cut at its natural breaks. *)
Lemma estimate_rounds_over_ceiling :
  estimated_duration text_two_halves (Fin 7) (js "aaaaaaaa,bbbbbbb.")
  = S754_finite false 7881299347898369 (-51)
  /\ splitTextByDuration demo_ids text_two_halves (Fin 7) Partial.empty 0
     = Throws TypeError.
Proof. split; vm_compute; reflexivity. Qed.




(** C8: the code at the failing input.  For two segments whose texts are
    empty and blank and a total duration of ten seconds, the division by
    the total of zero characters is not guarded: every end time and every
    duration returned is [NaN], and so is the second start time. *)
Theorem recalculateTimings_blank_gives_NaN :
  map (fun u => (Seg.startTime u, Seg.endTime u, Seg.duration u))
      (recalculateTimings segs_blank (Fin 10))
  = [(Fin 0, NaN, NaN); (NaN, NaN, NaN)].
Proof. vm_compute. reflexivity. Qed.

(** C9 (emptiness).  Whatever the options, [splitSubtitles] on a result
    whose word list is empty returns the empty sequence; it does not throw
    and draws no identifier. *)
Theorem splitSubtitles_no_words :
  forall id_of_call fullText duration language (options : SplitterOptions) n,
    splitSubtitles id_of_call (STT.mk fullText [] duration language) options n
    = Ok ([], n).
Proof. intros. reflexivity. Qed.

(** C10 (frame).  On a non-empty sequence the merger returns a non-empty
    sequence that is not longer, starts when the input starts and ends when
    the input ends. *)
Theorem mergeShortSegments_span :
  forall id_of_call segs opts n,
    segs <> [] ->
    exists out n',
      mergeShortSegments id_of_call segs opts n = Ok (out, n') /\
      out <> [] /\
      length out <= length segs /\
      (forall d, Seg.startTime (hd d out) = Seg.startTime (hd d segs)) /\
      (forall d, Seg.endTime (last out d) = Seg.endTime (last segs d)).
Proof.
  intros id_of_call segs opts n Hne.
  rewrite mergeShortSegments_is_pass.
  pose proof (pass_length id_of_call opts segs n) as Hlen.
  pose proof (fun d => pass_last_end id_of_call opts segs n d Hne) as Hend.
  destruct segs as [|a l]; [contradiction|].
  pose proof (pass_nonempty id_of_call opts a l n) as Hnonempty.
  pose proof (fun d => pass_first_start id_of_call opts a l n d) as Hstart.
  destruct (greedy_pass id_of_call merged_segment opts (a :: l) n)
    as [out n'].
  exists out, n'. repeat split; assumption.
Qed.

Lemma mergeShortSegments_span_witness :
  exists out n',
    mergeShortSegments demo_ids segs_short_pair DEFAULT_OPTIONS 0
    = Ok (out, n') /\
    out <> [] /\
    length out <= length segs_short_pair /\
    (forall d, Seg.startTime (hd d out)
               = Seg.startTime (hd d segs_short_pair)) /\
    (forall d, Seg.endTime (last out d)
               = Seg.endTime (last segs_short_pair d)).
Proof.
  apply (mergeShortSegments_span demo_ids segs_short_pair DEFAULT_OPTIONS 0).
  discriminate.
Defined.

(** ** Further properties *)

Lemma spans_snoc : forall id text buf w start,
  match buf with
  | [] => start = Word.startTime w
  | first :: _ => start = Word.startTime first
  end ->
  spans_its_words
    (Seg.mk id text start (Word.endTime w) (buf ++ [w])
            (Word.endTime w - start)%js).
Proof.
  intros id text buf w start Hstart. unfold spans_its_words.
  cbn [Seg.words Seg.startTime Seg.endTime Seg.duration].
  destruct buf as [|first buf].
  - exists w, w. repeat split. exact Hstart.
  - exists first, w. rewrite nth_error_snoc_last. repeat split. exact Hstart.
Qed.

Section ScanSpans.

Variable id_of_call : nat -> jsstring.
Variable opts : RequiredOptions.
Variable words : list WordTimestamp.

Lemma scan_step_start : forall i word st n st' n',
  nth_error words i = Some word -> start_inv words i st ->
  scan_step id_of_call opts words i word st n = Ok (st', n') ->
  start_inv words (S i) st'.
Proof.
  intros i word st n st' n' Hw [Hsegs Hstart] Hstep.
  assert (Hfirst : match currentWords st with
                   | [] => currentStartTime st = Word.startTime word
                   | first :: _ => currentStartTime st = Word.startTime first
                   end).
  { destruct (currentWords st); [apply Hstart; exact Hw | exact Hstart]. }
  destruct (checkShouldSplit
              (split_params opts (currentWords st ++ [word])
                 (currentStartTime st) word (nth_error words (i + 1))))
    eqn:Hs.
  - rewrite (scan_step_split id_of_call opts words i word st n Hs) in Hstep.
    injection Hstep as <- <-. split; cbn [segments currentWords currentStartTime].
    + apply Forall_app. split; [exact Hsegs|]. constructor; [|constructor].
      apply spans_snoc. exact Hfirst.
    + intros w Hnext. replace (i + 1) with (S i) by lia. rewrite Hnext.
      reflexivity.
  - rewrite (scan_step_keep id_of_call opts words i word st n Hs) in Hstep.
    injection Hstep as <- <-. split; cbn [segments currentWords currentStartTime].
    + exact Hsegs.
    + destruct (currentWords st); cbn [app]; exact Hfirst.
Qed.

End ScanSpans.

Lemma scanWords_spans : forall id_of_call w0 ws opts n segs n',
  scanWords id_of_call (w0 :: ws) opts n = Ok (segs, n') ->
  Forall spans_its_words segs.
Proof.
  intros id_of_call w0 ws opts n segs n' Hrun. set (words := w0 :: ws) in *.
  unfold scanWords in Hrun. cbn [nth_error words] in Hrun. fold words in Hrun.
  destruct (scan_loop_invariant id_of_call opts words (start_inv words)
              (scan_step_start id_of_call opts words)
              (length words) 0 (mkScan [] [] (Word.startTime w0)) n)
    as (st' & n1 & Hloop & Hsegs & Hstart).
  - reflexivity.
  - split; [constructor|]. cbn. intros w H. injection H as <-. reflexivity.
  - rewrite (bind_ret_step _ _ _ _ _ _ _ Hloop) in Hrun.
    destruct (currentWords st') as [|b buf] eqn:Hb.
    + cbn in Hrun. injection Hrun as <- _. exact Hsegs.
    + cbn [length Nat.ltb Nat.leb] in Hrun.
      destruct (exists_last (l := b :: buf) ltac:(discriminate))
        as (pre & w & Hpre).
      rewrite Hpre in Hrun. unfold bind in Hrun.
      rewrite createSegment_snoc in Hrun. cbn in Hrun.
      injection Hrun as <- _.
      apply Forall_app. split; [exact Hsegs|]. constructor; [|constructor].
      apply spans_snoc. destruct pre as [|p pre].
      * cbn in Hpre. injection Hpre as <- _. exact Hstart.
      * cbn in Hpre. injection Hpre as <- _. exact Hstart.
Qed.

Lemma merged_spans : forall id a b,
  spans_its_words a -> spans_its_words b ->
  spans_its_words (merged_segment id a b).
Proof.
  intros id a b (fa & la & Hfa & Hla & Hsa & Hea & Hda)
    (fb & lb & Hfb & Hlb & Hsb & Heb & Hdb).
  unfold spans_its_words, merged_segment.
  cbn [Seg.words Seg.startTime Seg.endTime Seg.duration].
  exists fa, lb. repeat split; try assumption.
  - destruct (Seg.words a); [discriminate | exact Hfa].
  - assert (Hb : 0 < length (Seg.words b)).
    { destruct (Seg.words b); [discriminate | cbn; lia]. }
    rewrite length_app, nth_error_app2 by lia.
    replace (length (Seg.words a) + length (Seg.words b) - 1
             - length (Seg.words a)) with (length (Seg.words b) - 1) by lia.
    exact Hlb.
Qed.

Lemma pass_spans : forall id_of_call opts segs n,
  Forall spans_its_words segs ->
  Forall spans_its_words
         (fst (greedy_pass id_of_call merged_segment opts segs n)).
Proof.
  intros id_of_call opts segs.
  induction segs as [| a | a b l IHl IHbl] using pair_induction; intros n H.
  - constructor.
  - exact H.
  - rewrite pass_two.
    inversion H as [|? ? Ha H']; subst. inversion H' as [|? ? Hb Hl]; subst.
    destruct (should_merge opts a b); cbn [fst].
    + constructor; [apply merged_spans; assumption | apply IHl; exact Hl].
    + constructor; [exact Ha | apply IHbl; exact H'].
Qed.

Lemma splitSubtitles_result : forall id_of_call sttResult options n,
  exists segs n',
    splitSubtitles id_of_call sttResult options n = Ok (segs, n') /\
    concat (map Seg.words segs) = STT.words sttResult /\
    Forall spans_its_words segs.
Proof.
  intros id_of_call sttResult options n. unfold splitSubtitles.
  destruct (STT.words sttResult) as [|w0 ws].
  - exists [], n. repeat split. constructor.
  - cbn [length Nat.eqb].
    destruct (scanWords_result id_of_call w0 ws (with_defaults options) n)
      as (pre & n1 & Hscan & Hcat & _).
    rewrite (bind_ret_step _ _ _ _ _ _ _ Hscan).
    rewrite mergeShortSegments_is_pass.
    pose proof (pass_spans id_of_call (with_defaults options) pre n1
                  (scanWords_spans _ _ _ _ _ _ _ Hscan)) as Hout.
    pose proof (pass_words id_of_call (with_defaults options) pre n1) as Hw.
    destruct (greedy_pass id_of_call merged_segment (with_defaults options)
                          pre n1) as [out n2].
    exists out, n2. split; [reflexivity|]. split; [|exact Hout].
    cbn [fst] in Hw. rewrite Hw. exact Hcat.
Qed.

(** X1: every segment [splitSubtitles] returns spans its words. *)
Theorem splitSubtitles_segments_span_words :
  forall id_of_call (sttResult : STTResult) (options : SplitterOptions) n,
  exists segs n',
    splitSubtitles id_of_call sttResult options n = Ok (segs, n') /\
    Forall spans_its_words segs.
Proof.
  intros id_of_call sttResult options n.
  destruct (splitSubtitles_result id_of_call sttResult options n)
    as (segs & n' & Hrun & _ & Hspans).
  exists segs, n'. split; assumption.
Qed.

(* ---------- order ---------- *)

Lemma chronological_app : forall l1 l2,
  chronological (l1 ++ l2) -> chronological l1 /\ chronological l2.
Proof.
  induction l1 as [|w l1 IH]; intros l2 H.
  - split; [exact I | exact H].
  - cbn [app chronological] in H. destruct H as (Hw & Hnext & Hrest).
    apply IH in Hrest as [H1 H2]. split; [|exact H2].
    cbn [chronological]. split; [exact Hw|]. split; [|exact H1].
    destruct l1; [exact I | exact Hnext].
Qed.

(** In a chronological run, the first word starts no later than the last
    word ends. *)
Lemma chronological_run : forall l first last,
  chronological l ->
  nth_error l 0 = Some first -> nth_error l (length l - 1) = Some last ->
  (Word.startTime first <=? Word.endTime last)%js = true.
Proof.
  induction l as [|w l IH]; intros first last H Hf Hl; [discriminate|].
  cbn in Hf. injection Hf as <-. destruct H as (Hw & Hnext & Hrest).
  destruct l as [|w' l].
  - cbn in Hl. injection Hl as <-. exact Hw.
  - cbn [length] in Hl. replace (S (S (length l)) - 1) with (S (length l)) in Hl
      by lia.
    cbn [nth_error] in Hl.
    eapply num_le_trans; [exact Hw|]. eapply num_le_trans; [exact Hnext|].
    apply (IH w' last Hrest eq_refl).
    cbn [length]. replace (S (length l) - 1) with (length l) by lia. exact Hl.
Qed.

(** The last word of a run ends no later than the first word after it
    starts. *)
Lemma chronological_junction : forall l1 l2 last first,
  chronological (l1 ++ l2) ->
  nth_error l1 (length l1 - 1) = Some last -> nth_error l2 0 = Some first ->
  (Word.endTime last <=? Word.startTime first)%js = true.
Proof.
  induction l1 as [|w l1 IH]; intros l2 last first H Hl Hf; [discriminate|].
  cbn [app chronological] in H. destruct H as (Hw & Hnext & Hrest).
  destruct l1 as [|w' l1].
  - cbn in Hl. injection Hl as <-. cbn [app] in Hnext.
    destruct l2 as [|f l2]; [discriminate|]. cbn in Hf. injection Hf as <-.
    exact Hnext.
  - apply (IH l2 last first Hrest); [|exact Hf].
    cbn [length] in Hl |- *.
    replace (S (S (length l1)) - 1) with (S (length l1)) in Hl by lia.
    replace (S (length l1) - 1) with (length l1) by lia. exact Hl.
Qed.

Lemma spans_in_order : forall segs,
  Forall spans_its_words segs ->
  chronological (concat (map Seg.words segs)) ->
  in_order segs.
Proof.
  induction segs as [|s segs IH]; intros Hspans Hchron; [exact I|].
  inversion Hspans as [|? ? Hs Hrest]; subst.
  cbn [map concat] in Hchron.
  destruct (chronological_app _ _ Hchron) as [Hrun Htail].
  destruct Hs as (first & last & Hf & Hl & Hstart & Hend & _).
  cbn [in_order]. split; [|split].
  - rewrite Hstart, Hend. exact (chronological_run (Seg.words s) first last Hrun Hf Hl).
  - destruct segs as [|s' segs]; [exact I|].
    inversion Hrest as [|? ? Hs' _]; subst.
    destruct Hs' as (first' & last' & Hf' & _ & Hstart' & _).
    rewrite Hend, Hstart'.
    eapply chronological_junction; [exact Hchron | exact Hl |].
    cbn [map concat]. destruct (Seg.words s'); [discriminate | exact Hf'].
  - apply IH; assumption.
Qed.

(** X2: chronological words give segments in order. *)
Theorem splitSubtitles_in_order :
  forall id_of_call (sttResult : STTResult) (options : SplitterOptions) n,
    chronological (STT.words sttResult) ->
    exists segs n',
      splitSubtitles id_of_call sttResult options n = Ok (segs, n') /\
      in_order segs.
Proof.
  intros id_of_call sttResult options n Hchron.
  destruct (splitSubtitles_result id_of_call sttResult options n)
    as (segs & n' & Hrun & Hcat & Hspans).
  exists segs, n'. split; [exact Hrun|].
  apply spans_in_order; [exact Hspans|]. rewrite Hcat. exact Hchron.
Qed.

Lemma splitSubtitles_in_order_witness :
  exists segs n',
    splitSubtitles demo_ids (STT.mk [] words_with_silence (Fin 7) None)
                   Partial.empty 0 = Ok (segs, n') /\
    in_order segs.
Proof.
  apply (splitSubtitles_in_order demo_ids
           (STT.mk [] words_with_silence (Fin 7) None) Partial.empty 0).
  cbn. repeat split; vm_compute; reflexivity.
Defined.

(* ---------- merge is a no-op on long segments ---------- *)

Lemma pass_no_short : forall id_of_call opts segs n,
  Forall (fun s => (Seg.duration s <? Opts.minDuration opts)%js = false) segs ->
  greedy_pass id_of_call merged_segment opts segs n = (segs, n).
Proof.
  intros id_of_call opts segs.
  induction segs as [| a | a b l IHl IHbl] using pair_induction; intros n H.
  - reflexivity.
  - reflexivity.
  - rewrite pass_two. inversion H as [|? ? Ha H']; subst.
    unfold should_merge. rewrite Ha. cbn [andb].
    rewrite (IHbl n H'). reflexivity.
Qed.

(** X3: the merger leaves a list without short segment as it is. *)
Theorem mergeShortSegments_nothing_short :
  forall id_of_call segs opts n,
    Forall (fun s => (Seg.duration s <? Opts.minDuration opts)%js = false) segs ->
    mergeShortSegments id_of_call segs opts n = Ok (segs, n).
Proof.
  intros id_of_call segs opts n H.
  rewrite mergeShortSegments_is_pass, pass_no_short by exact H. reflexivity.
Qed.

Lemma mergeShortSegments_nothing_short_witness :
  mergeShortSegments demo_ids segs_long_first
                     (Opts.mk (Fin 1) (Fin (5 # 2)) (Fin (7 # 2)) (Fin 50)
                              DEFAULT_sentenceDelimiters
                              DEFAULT_naturalBreakPattern) 0
  = Ok (segs_long_first, 0).
Proof.
  apply mergeShortSegments_nothing_short.
  repeat constructor.
Defined.

Lemma strip_ws_join_space : forall l,
  strip_ws (join space l) = concat (map strip_ws l).
Proof.
  induction l as [|p l IH]; [reflexivity|].
  destruct l as [|p' l].
  - cbn. rewrite app_nil_r. reflexivity.
  - change (join space (p :: p' :: l)) with (p ++ space ++ join space (p' :: l)).
    rewrite !strip_ws_app, IH. reflexivity.
Qed.

Lemma created_text : forall id buf start e d,
  text_of_its_words (Seg.mk id (trim (words_text buf)) start e buf d).
Proof.
  intros id buf start e d. unfold text_of_its_words, words_text.
  cbn [Seg.text Seg.words].
  rewrite strip_ws_trim, strip_ws_join_space, map_map. reflexivity.
Qed.

Lemma merged_text : forall id a b,
  text_of_its_words a -> text_of_its_words b ->
  text_of_its_words (merged_segment id a b).
Proof.
  intros id a b Ha Hb. unfold text_of_its_words, merged_segment in *.
  cbn [Seg.text Seg.words].
  rewrite strip_ws_trim, !strip_ws_app, Ha, Hb, map_app, concat_app.
  reflexivity.
Qed.

Lemma pass_Forall : forall (P : SubtitleSegment -> Prop),
  (forall id a b, P a -> P b -> P (merged_segment id a b)) ->
  forall id_of_call opts segs n,
    Forall P segs ->
    Forall P (fst (greedy_pass id_of_call merged_segment opts segs n)).
Proof.
  intros P Hmerge id_of_call opts segs.
  induction segs as [| a | a b l IHl IHbl] using pair_induction; intros n H.
  - constructor.
  - exact H.
  - rewrite pass_two.
    inversion H as [|? ? Ha H']; subst. inversion H' as [|? ? Hb Hl]; subst.
    destruct (should_merge opts a b); cbn [fst].
    + constructor; [apply Hmerge; assumption | apply IHl; exact Hl].
    + constructor; [exact Ha | apply IHbl; exact H'].
Qed.

Lemma scanWords_text : forall id_of_call w0 ws opts n segs n',
  scanWords id_of_call (w0 :: ws) opts n = Ok (segs, n') ->
  Forall text_of_its_words segs.
Proof.
  intros id_of_call w0 ws opts n segs n' Hrun. set (words := w0 :: ws) in *.
  unfold scanWords in Hrun. cbn [nth_error words] in Hrun. fold words in Hrun.
  destruct (scan_loop_invariant id_of_call opts words
              (fun _ st => Forall text_of_its_words (segments st)))
    with (k := length words) (i := 0)
         (st := mkScan [] [] (Word.startTime w0)) (n := n)
    as (st' & n1 & Hloop & Hsegs).
  - intros i word st m st1 m1 Hw Hinv Hstep.
    destruct (checkShouldSplit
                (split_params opts (currentWords st ++ [word])
                   (currentStartTime st) word (nth_error words (i + 1))))
      eqn:Hs.
    + rewrite (scan_step_split id_of_call opts words i word st m Hs) in Hstep.
      injection Hstep as <- _. cbn [segments].
      apply Forall_app. split; [exact Hinv|]. constructor; [|constructor].
      apply created_text.
    + rewrite (scan_step_keep id_of_call opts words i word st m Hs) in Hstep.
      injection Hstep as <- _. exact Hinv.
  - reflexivity.
  - constructor.
  - rewrite (bind_ret_step _ _ _ _ _ _ _ Hloop) in Hrun.
    destruct (currentWords st') as [|b buf] eqn:Hb.
    + cbn in Hrun. injection Hrun as <- _. exact Hsegs.
    + cbn [length Nat.ltb Nat.leb] in Hrun.
      destruct (exists_last (l := b :: buf) ltac:(discriminate))
        as (pre & w & Hpre).
      rewrite Hpre in Hrun. unfold bind in Hrun.
      rewrite createSegment_snoc in Hrun. cbn in Hrun.
      injection Hrun as <- _.
      apply Forall_app. split; [exact Hsegs|]. constructor; [|constructor].
      apply created_text.
Qed.

(** X4: the text of every segment is made of its words. *)
Theorem splitSubtitles_text_of_words :
  forall id_of_call (sttResult : STTResult) (options : SplitterOptions) n,
  exists segs n',
    splitSubtitles id_of_call sttResult options n = Ok (segs, n') /\
    Forall text_of_its_words segs.
Proof.
  intros id_of_call sttResult options n. unfold splitSubtitles.
  destruct (STT.words sttResult) as [|w0 ws].
  - exists [], n. split; [reflexivity | constructor].
  - cbn [length Nat.eqb].
    destruct (scanWords_result id_of_call w0 ws (with_defaults options) n)
      as (pre & n1 & Hscan & _).
    rewrite (bind_ret_step _ _ _ _ _ _ _ Hscan).
    rewrite mergeShortSegments_is_pass.
    pose proof (pass_Forall text_of_its_words merged_text id_of_call
                  (with_defaults options) pre n1
                  (scanWords_text _ _ _ _ _ _ _ Hscan)) as Hout.
    destruct (greedy_pass id_of_call merged_segment (with_defaults options)
                          pre n1) as [out n2].
    exists out, n2. split; [reflexivity | exact Hout].
Qed.

(* ---------- recalculateTimings ---------- *)

Lemma retime_same_content : forall segs segs' T d t,
  Forall2 (fun s u => Seg.id s = Seg.id u /\ Seg.text s = Seg.text u /\
                      Seg.words s = Seg.words u) segs segs' ->
  retime segs T d t = retime segs' T d t.
Proof.
  induction segs as [|s segs IH]; intros segs' T d t H;
    inversion H as [|? u ? l' (Hi & Ht & Hw) Hrest]; subst; [reflexivity|].
  cbn [retime]. unfold segment_chars. rewrite Hi, Ht, Hw.
  f_equal. apply IH. exact Hrest.
Qed.

Lemma fold_chars_same : forall segs segs' acc,
  Forall2 (fun s u => Seg.id s = Seg.id u /\ Seg.text s = Seg.text u /\
                      Seg.words s = Seg.words u) segs segs' ->
  fold_left (fun sum seg => (sum + segment_chars seg)%js) segs acc
  = fold_left (fun sum seg => (sum + segment_chars seg)%js) segs' acc.
Proof.
  induction segs as [|s segs IH]; intros segs' acc H;
    inversion H as [|? u ? l' (Hi & Ht & Hw) Hrest]; subst; [reflexivity|].
  cbn [fold_left]. unfold segment_chars at 2 4. rewrite Ht.
  apply IH. exact Hrest.
Qed.

Lemma recalculateTimings_same_content :
  forall segs segs' d,
    Forall2 (fun s u => Seg.id s = Seg.id u /\ Seg.text s = Seg.text u /\
                        Seg.words s = Seg.words u) segs segs' ->
    recalculateTimings segs d = recalculateTimings segs' d.
Proof.
  intros segs segs' d H. unfold recalculateTimings.
  rewrite (Forall2_length H).
  destruct (length segs' =? 0); [reflexivity|].
  rewrite (fold_chars_same segs segs' num_zero H).
  apply retime_same_content. exact H.
Qed.

Lemma retime_content : forall segs T d t,
  Forall2 (fun s u => Seg.id s = Seg.id u /\ Seg.text s = Seg.text u /\
                      Seg.words s = Seg.words u) (retime segs T d t) segs.
Proof.
  induction segs as [|s segs IH]; intros T d t; cbn [retime]; constructor.
  - repeat split.
  - apply IH.
Qed.

(** X5: applying [recalculateTimings] twice is applying it once. *)
Theorem recalculateTimings_idempotent : forall segs d,
  recalculateTimings (recalculateTimings segs d) d = recalculateTimings segs d.
Proof.
  intros segs d. apply recalculateTimings_same_content.
  unfold recalculateTimings. destruct (length segs =? 0) eqn:Hl.
  - apply Nat.eqb_eq in Hl. destruct segs; [constructor | discriminate].
  - apply retime_content.
Qed.

Lemma bind_Ok_inv : forall (A B : Type) (m : M A) (f : A -> M B) n b n',
  bind m f n = Ok (b, n') ->
  exists a n1, m n = Ok (a, n1) /\ f a n1 = Ok (b, n').
Proof.
  intros A B m f n b n' H. unfold bind in H.
  destruct (m n) as [[a n1]| |]; try discriminate.
  exists a, n1. split; [reflexivity | exact H].
Qed.

(* ----- sentences ----- *)

Lemma strip_ws_sentences : forall r,
  strip_ws (concat (filter (fun s : jsstring => 0 <? length s) (map trim r)))
  = strip_ws (concat r).
Proof.
  induction r as [|p r IH]; [reflexivity|].
  cbn [map filter concat]. rewrite strip_ws_app, <- IH.
  destruct (0 <? length (trim p)) eqn:Hp.
  - cbn [concat]. rewrite strip_ws_app, strip_ws_trim. reflexivity.
  - apply Nat.ltb_ge in Hp. rewrite <- (strip_ws_trim p).
    destruct (trim p); [reflexivity | cbn in Hp; lia].
Qed.

(** X6: [splitIntoSentences] returns for every text, and loses nothing but
    white space. *)
Theorem splitIntoSentences_keeps_text : forall text n,
  exists sentences,
    splitIntoSentences text n = Ok (sentences, n) /\
    strip_ws (concat sentences) = strip_ws text /\
    Forall (fun s => 0 < length (strip_ws s)) sentences.
Proof.
  intros text n. exists (sentences_of text).
  split; [apply splitIntoSentences_eq|]. split.
  - unfold sentences_of.
    destruct (regexp_split_sentences text) as (r & Hr & Hchars).
    rewrite Hr, map_map. cbn [piece_text or_default].
    rewrite strip_ws_sentences. exact Hchars.
  - apply Forall_forall. intros s Hin.
    apply (sentence_has_char text s Hin).
Qed.

(* ----- the duration-based path attaches no words ----- *)

Section NoWords.

Variable id_of_call : nat -> jsstring.

Let untimed (s : SubtitleSegment) : Prop := Seg.words s = [].

Lemma word_count_loop_no_words :
  forall fuel words dpw wps i t segs n out n',
    Forall untimed segs ->
    word_count_loop id_of_call fuel words dpw wps i t segs n = Ok (out, n') ->
    Forall untimed out.
Proof.
  induction fuel as [|fuel IH]; intros words dpw wps i t segs n out n' Hsegs H;
    [discriminate|].
  cbn [word_count_loop] in H.
  destruct (i <? num_of_nat (length words))%js.
  - unfold bind, generateId in H. eapply IH; [|exact H].
    apply Forall_app. split; [exact Hsegs|]. constructor; [reflexivity|].
    constructor.
  - injection H as <- _. exact Hsegs.
Qed.

Lemma splitByWordCount_no_words : forall words t d opts n out n',
  splitByWordCount id_of_call words t d opts n = Ok (out, n') ->
  Forall untimed out.
Proof.
  intros words t d opts n out n' H. unfold splitByWordCount in H.
  eapply word_count_loop_no_words; [|exact H]. constructor.
Qed.

Lemma long_sentence_loop_no_words :
  forall parts totalChars totalDuration opts t segs n out n',
    Forall untimed segs ->
    long_sentence_loop id_of_call parts totalChars totalDuration opts t segs n
    = Ok (out, n') ->
    Forall untimed out.
Proof.
  induction parts as [|part parts IH];
    intros totalChars totalDuration opts t segs n out n' Hsegs H.
  - injection H as <- _. exact Hsegs.
  - cbn [long_sentence_loop] in H.
    apply bind_Ok_inv in H as (segs' & n1 & Hstep & Hrest).
    eapply IH; [|exact Hrest].
    destruct (_ >? _)%js in Hstep.
    + apply bind_Ok_inv in Hstep as (ws & n2 & _ & Hstep).
      apply bind_Ok_inv in Hstep as (sub & n3 & Hsub & Hret).
      injection Hret as <- _. apply Forall_app. split; [exact Hsegs|].
      eapply splitByWordCount_no_words. exact Hsub.
    + unfold bind, generateId, ret in Hstep. injection Hstep as <- _.
      apply Forall_app. split; [exact Hsegs|]. constructor; [reflexivity|].
      constructor.
Qed.

Lemma splitLongSentence_no_words : forall sentence t d opts n out n',
  splitLongSentence id_of_call sentence t d opts n = Ok (out, n') ->
  Forall untimed out.
Proof.
  intros sentence t d opts n out n' H. unfold splitLongSentence in H.
  apply bind_Ok_inv in H as (parts & n1 & _ & H).
  destruct (length parts <=? 1).
  - apply bind_Ok_inv in H as (ws & n2 & _ & H).
    eapply splitByWordCount_no_words. exact H.
  - eapply long_sentence_loop_no_words; [|exact H]. constructor.
Qed.

Lemma sentence_loop_no_words :
  forall sentences cps opts t segs n out n',
    Forall untimed segs ->
    sentence_loop id_of_call sentences cps opts t segs n = Ok (out, n') ->
    Forall untimed out.
Proof.
  induction sentences as [|s sentences IH];
    intros cps opts t segs n out n' Hsegs H.
  - injection H as <- _. exact Hsegs.
  - cbn [sentence_loop] in H.
    apply bind_Ok_inv in H as (segs' & n1 & Hstep & Hrest).
    eapply IH; [|exact Hrest].
    destruct (_ >? _)%js in Hstep.
    + apply bind_Ok_inv in Hstep as (sub & n3 & Hsub & Hret).
      injection Hret as <- _. apply Forall_app. split; [exact Hsegs|].
      eapply splitLongSentence_no_words. exact Hsub.
    + unfold bind, generateId, ret in Hstep. injection Hstep as <- _.
      apply Forall_app. split; [exact Hsegs|]. constructor; [reflexivity|].
      constructor.
Qed.

End NoWords.

(** X7: the segments of [splitTextByDuration] carry no word. *)
Theorem splitTextByDuration_no_words :
  forall id_of_call text totalDuration options n segs n',
    splitTextByDuration id_of_call text totalDuration options n
    = Ok (segs, n') ->
    Forall (fun s => Seg.words s = []) segs.
Proof.
  intros id_of_call text totalDuration options n segs n' H.
  unfold splitTextByDuration in H.
  apply bind_Ok_inv in H as (sentences & n1 & _ & H).
  destruct (length sentences =? 0).
  - injection H as <- _. constructor.
  - apply bind_Ok_inv in H as (pre & n2 & Hloop & H).
    rewrite mergeShortSegments_is_pass in H. injection H as H.
    assert (Hpre : Forall (fun s => Seg.words s = []) pre).
    { eapply sentence_loop_no_words; [|exact Hloop]. constructor. }
    pose proof (pass_Forall (fun s => Seg.words s = [])
                  ltac:(intros id a b Ha Hb; cbn; rewrite Ha, Hb; reflexivity)
                  id_of_call (with_defaults options) pre n2 Hpre) as Hout.
    rewrite H in Hout. exact Hout.
Qed.

Lemma splitTextByDuration_no_words_witness :
  exists segs n',
    splitTextByDuration demo_ids text_two_sentences (Fin 4) Partial.empty 0
    = Ok (segs, n') /\
    segs <> [] /\
    Forall (fun s => Seg.words s = []) segs.
Proof.
  eexists. eexists. split; [vm_compute; reflexivity|].
  split; [discriminate|].
  eapply (splitTextByDuration_no_words demo_ids text_two_sentences (Fin 4)
            Partial.empty 0).
  vm_compute. reflexivity.
Defined.



Lemma ws_not_break_mark : forall ch,
  is_ws ch = true -> in_class break_marks ch = false.
Proof.
  intros ch Hws. destruct (in_class break_marks ch) eqn:Hb; [|reflexivity].
  unfold in_class, break_marks in Hb. cbn [existsb] in Hb.
  repeat (apply orb_prop in Hb as [Hb|Hb];
          [apply N.eqb_eq in Hb; subst ch; vm_compute in Hws; discriminate|]).
  discriminate.
Qed.

Lemma str_eqb_eq : forall a b, str_eqb a b = true -> a = b.
Proof.
  induction a as [|x a IH]; intros [|y b] H; cbn in H; try discriminate.
  - reflexivity.
  - apply andb_prop in H as [Hx Hab]. apply N.eqb_eq in Hx.
    rewrite Hx, (IH b Hab). reflexivity.
Qed.

Lemma occurs_at_nth : forall w s i k,
  occurs_at w s i = true -> k < length w ->
  nth_error s (i + k) = nth_error w k.
Proof.
  intros w s i k H Hk. unfold occurs_at in H. apply str_eqb_eq in H.
  transitivity (nth_error (firstn (length w) (skipn i s)) k);
    [|rewrite H; reflexivity].
  rewrite nth_error_firstn.
  destruct (k <? length w) eqn:E; [|apply Nat.ltb_ge in E; lia].
  rewrite nth_error_skipn. reflexivity.
Qed.

Lemma unmarked_seq : forall s i j k,
  unmarked s i j -> unmarked s j k -> unmarked s i k.
Proof.
  intros s i j k H1 H2 m ch Hm Hch.
  destruct (Nat.lt_ge_cases m j) as [Hlt|Hge].
  - apply (H1 m ch); [lia | exact Hch].
  - apply (H2 m ch); [lia | exact Hch].
Qed.

Lemma ws_class_unmarked : forall s i j,
  matches s ws_class i j -> unmarked s i j.
Proof.
  intros s i j H. inversion H; subst. intros k ch' Hk Hch.
  assert (k = i) by lia. subst k.
  apply ws_not_break_mark. congruence.
Qed.

Lemma star_ws_unmarked : forall s r i j,
  matches s r i j -> r = RStar ws_class -> unmarked s i j.
Proof.
  intros s r i j H. induction H; intros Hr; try discriminate.
  - intros k ch Hk. lia.
  - injection Hr as ->.
    eapply unmarked_seq; [apply ws_class_unmarked; eassumption|].
    apply IHmatches2. reflexivity.
Qed.

Lemma plus_ws_unmarked : forall s i j,
  matches s (RPlus ws_class) i j -> unmarked s i j.
Proof.
  intros s i j H. inversion H; subst.
  eapply unmarked_seq; [apply ws_class_unmarked; eassumption|].
  eapply star_ws_unmarked; [eassumption | reflexivity].
Qed.

Lemma matches_RWords : forall s ws i j,
  matches s (RWords ws) i j ->
  exists w, In w ws /\ occurs_at w s i = true /\ j = i + length w.
Proof.
  intros s ws. induction ws as [|w ws IH]; intros i j H.
  - inversion H.
  - destruct ws as [|w' ws].
    + inversion H; subst. exists w. repeat split; [left; reflexivity | assumption].
    + change (RWords (w :: w' :: ws)) with (RAlt (RLit w) (RWords (w' :: ws)))
        in H.
      inversion H as [| | |? ? ? ? Hl|? ? ? ? Hr| | | | | |]; subst.
      * inversion Hl; subst.
        exists w. repeat split; [left; reflexivity | assumption].
      * apply IH in Hr as (u & Hin & Hocc & Hj).
        exists u. repeat split; [right; exact Hin | exact Hocc | exact Hj].
Qed.

Lemma conjunctions_unmarked :
  forallb (forallb (fun ch => negb (in_class break_marks ch))) conjunctions
  = true.
Proof. vm_compute. reflexivity. Qed.

Lemma conjunction_unmarked : forall s i j,
  matches s (RWords conjunctions) i j -> unmarked s i j.
Proof.
  intros s i j H. apply matches_RWords in H as (w & Hin & Hocc & ->).
  intros k ch Hk Hch.
  pose proof conjunctions_unmarked as Hall.
  rewrite forallb_forall in Hall. specialize (Hall w Hin).
  rewrite forallb_forall in Hall.
  replace k with (i + (k - i)) in Hch by lia.
  rewrite (occurs_at_nth w s i (k - i) Hocc) in Hch by lia.
  apply nth_error_In in Hch. apply Hall in Hch.
  apply negb_true_iff in Hch. exact Hch.
Qed.

(** A match of the default pattern is one break mark, or holds none. *)
Lemma natural_break_match : forall s q e,
  matches s (pattern DEFAULT_naturalBreakPattern) q e ->
  (exists ch, nth_error s q = Some ch /\ in_class break_marks ch = true)
  \/ unmarked s q e.
Proof.
  intros s q e H. cbn [pattern DEFAULT_naturalBreakPattern] in H.
  inversion H; subst.
  - left. match goal with Hc : matches s (RClass _) q e |- _ =>
      inversion Hc; subst end.
    eexists. split; eassumption.
  - right.
    match goal with Hs : matches s (RSeq _ _) q e |- _ =>
      inversion Hs as [| |? ? ? j1 ? Hws1 Hrest| | | | | | | |]; subst end.
    inversion Hrest as [| |? ? ? j2 ? Hgroup Hws2| | | | | | | |]; subst.
    inversion Hgroup; subst.
    eapply unmarked_seq; [apply plus_ws_unmarked; eassumption|].
    eapply unmarked_seq; [apply conjunction_unmarked; eassumption|].
    apply plus_ws_unmarked. assumption.
Qed.

Lemma first_mark : forall (p : N -> bool) s,
  existsb p s = true ->
  exists c ch,
    nth_error s c = Some ch /\ p ch = true /\
    forall k ch', k < c -> nth_error s k = Some ch' -> p ch' = false.
Proof.
  intros p. induction s as [|x s IH]; intros H; [discriminate|].
  cbn [existsb] in H. destruct (p x) eqn:Hx.
  - exists 0, x. repeat split; [exact Hx|]. intros k ch' Hk. lia.
  - cbn in H. destruct (IH H) as (c & ch & Hc & Hp & Hfirst).
    exists (S c), ch. repeat split; [exact Hc | exact Hp|].
    intros [|k] ch' Hk Hch.
    + cbn in Hch. injection Hch as <-. exact Hx.
    + apply (Hfirst k ch'); [lia | exact Hch].
Qed.

Lemma split_loop_extends : forall re s fuel p q acc out,
  split_loop fuel re s p q acc = Some out -> exists r, out = acc ++ r.
Proof.
  intros re s. induction fuel as [|fuel IH]; intros p q acc out H;
    [discriminate|].
  cbn [split_loop] in H. destruct (q <? length s).
  - destruct (exec_at re s q) as [[e0 caps]|].
    + destruct (Nat.min e0 (length s) =? p).
      * eapply IH. exact H.
      * apply IH in H as (r & ->). rewrite <- app_assoc. eexists. reflexivity.
    + eapply IH. exact H.
  - injection H as <-. eexists. reflexivity.
Qed.

Section BreakMark.

Variable s : jsstring.
Variable c : nat.
Variable mark : N.
Hypothesis mark_at : nth_error s c = Some mark.
Hypothesis mark_class : in_class break_marks mark = true.
Hypothesis mark_first : forall k ch,
  k < c -> nth_error s k = Some ch -> in_class break_marks ch = false.

Lemma exec_at_mark :
  exec_at DEFAULT_naturalBreakPattern s c = Some (S c, [None]).
Proof.
  unfold exec_at.
  cbn [pattern ngroups DEFAULT_naturalBreakPattern rmatch repeat].
  rewrite mark_at, mark_class. reflexivity.
Qed.

Lemma match_before_mark : forall q e,
  q < c -> matches s (pattern DEFAULT_naturalBreakPattern) q e -> e <= c.
Proof.
  intros q e Hq H. apply natural_break_match in H as [(ch & Hch & Hb)|Hun].
  - rewrite (mark_first q ch Hq Hch) in Hb. discriminate.
  - destruct (Nat.le_gt_cases e c) as [Hle|Hgt]; [exact Hle|].
    rewrite (Hun c mark ltac:(lia) mark_at) in mark_class. discriminate.
Qed.

Lemma split_loop_undefined : forall fuel p q acc out,
  p <= q -> q <= c ->
  split_loop fuel DEFAULT_naturalBreakPattern s p q acc = Some out ->
  In None out.
Proof.
  assert (Hlen : c < length s).
  { apply nth_error_Some. rewrite mark_at. discriminate. }
  induction fuel as [|fuel IH]; intros p q acc out Hpq Hqc H; [discriminate|].
  cbn [split_loop] in H.
  destruct (q <? length s) eqn:Hq; [|apply Nat.ltb_ge in Hq; lia].
  destruct (Nat.eq_dec q c) as [->|Hne].
  - rewrite exec_at_mark in H.
    rewrite (Nat.min_l (S c) (length s)) in H by lia.
    destruct (S c =? p) eqn:E; [apply Nat.eqb_eq in E; lia|].
    apply split_loop_extends in H as (r & ->).
    apply in_or_app. left. apply in_or_app. right. right. left. reflexivity.
  - destruct (exec_at DEFAULT_naturalBreakPattern s q) as [[e0 caps]|] eqn:Hex.
    + apply exec_at_sound in Hex as [Hm _].
      pose proof (matches_forward _ _ _ _ Hm) as Hfw.
      apply match_before_mark in Hm; [|lia].
      destruct (Nat.min e0 (length s) =? p).
      * apply IH in H; [exact H | lia | lia].
      * apply IH in H; [exact H | lia | lia].
    + apply IH in H; [exact H | lia | lia].
Qed.

End BreakMark.

Lemma regexp_split_undefined : forall s,
  has_break_mark s = true ->
  exists pieces,
    regexp_split DEFAULT_naturalBreakPattern s = Some pieces /\
    In None pieces.
Proof.
  intros s H. apply first_mark in H as (c & mark & Hc & Hm & Hfirst).
  destruct (regexp_split_total DEFAULT_naturalBreakPattern s)
    as (pieces & Hsplit & _).
  exists pieces. split; [exact Hsplit|].
  unfold regexp_split in Hsplit. destruct s as [|ch s]; [destruct c; discriminate|].
  eapply (split_loop_undefined (ch :: s) c mark Hc Hm Hfirst);
    [| |exact Hsplit]; lia.
Qed.

Lemma filter_nonblank_undefined : forall pieces n,
  In None pieces -> filter_nonblank pieces n = Throws TypeError.
Proof.
  induction pieces as [|[p|] pieces IH]; intros n H.
  - contradiction.
  - destruct H as [H|H]; [discriminate|].
    cbn [filter_nonblank]. unfold bind. rewrite (IH n H). reflexivity.
  - reflexivity.
Qed.

(** X8: with the default [naturalBreakPattern], a long sentence holding a
    break mark makes [splitLongSentence] throw. *)
Theorem splitLongSentence_break_mark_throws :
  forall id_of_call sentence startTime totalDuration opts n,
    Opts.naturalBreakPattern opts = DEFAULT_naturalBreakPattern ->
    has_break_mark sentence = true ->
    splitLongSentence id_of_call sentence startTime totalDuration opts n
    = Throws TypeError.
Proof.
  intros id_of_call sentence startTime totalDuration opts n Hpat Hmark.
  unfold splitLongSentence, natural_parts. rewrite Hpat.
  destruct (regexp_split_undefined sentence Hmark) as (pieces & Hsplit & Hin).
  rewrite Hsplit. unfold bind, of_option, ret.
  rewrite (filter_nonblank_undefined pieces n Hin). reflexivity.
Qed.

Lemma splitLongSentence_break_mark_throws_witness :
  splitLongSentence demo_ids text_with_comma (Fin 0) (Fin 9) DEFAULT_OPTIONS 0
  = Throws TypeError.
Proof.
  apply (splitLongSentence_break_mark_throws demo_ids text_with_comma (Fin 0)
           (Fin 9) DEFAULT_OPTIONS 0).
  - reflexivity.
  - reflexivity.
Defined.

Section ScanIds.

Variable id_of_call : nat -> jsstring.
Variable opts : RequiredOptions.
Variable words : list WordTimestamp.



End ScanIds.





Lemma demo_ids_fresh : fresh_ids demo_ids.
Proof.
  intros a b H. unfold demo_ids in H. apply app_inv_head in H.
  assert (H' : N.of_nat (48 + a) = N.of_nat (48 + b)) by congruence.
  apply Nat2N.inj in H'. lia.
Qed.


(** X10: [recalculateTimings] reads the identifiers, texts and words only. *)
Theorem recalculateTimings_ignores_times :
  forall segs segs' d,
    Forall2 (fun s u => Seg.id s = Seg.id u /\ Seg.text s = Seg.text u /\
                        Seg.words s = Seg.words u) segs segs' ->
    recalculateTimings segs d = recalculateTimings segs' d.
Proof. exact recalculateTimings_same_content. Qed.

Lemma recalculateTimings_ignores_times_witness :
  recalculateTimings segs_blank (Fin 10)
  = recalculateTimings [demo_segment "" 5 6; demo_segment " " 0 1] (Fin 10).
Proof.
  apply recalculateTimings_ignores_times.
  repeat constructor.
Defined.

(* ----- a step of zero words ----- *)

Lemma word_count_loop_stuck : forall id_of_call fuel words dpw s t segs n,
  words <> [] -> (Z.of_nat (length words) < 2 ^ 53)%Z ->
  word_count_loop id_of_call fuel words dpw (S754_zero s) num_zero t segs n
  = OutOfFuel.
Proof.
  intros id_of_call fuel words dpw s. induction fuel as [|fuel IH];
    intros t segs n Hne Hsmall; [reflexivity|].
  cbn [word_count_loop].
  change num_zero with (num_of_nat 0) at 1.
  rewrite num_of_nat_lt by (cbn; lia).
  destruct words as [|w0 ws]; [contradiction|]. cbn [length Nat.ltb Nat.leb].
  unfold bind, generateId.
  replace (num_zero + S754_zero s)%js with num_zero by (destruct s; reflexivity).
  apply IH; assumption.
Qed.

(** X11: with a step of zero words the loop of [splitByWordCount] never
    ends. *)
Theorem splitByWordCount_zero_step :
  forall id_of_call words startTime totalDuration opts n s,
    words <> [] -> (Z.of_nat (length words) < 2 ^ 53)%Z ->
    num_ceil (Opts.targetDuration opts
              / (totalDuration / num_of_nat (length words)))%js
    = S754_zero s ->
    splitByWordCount id_of_call words startTime totalDuration opts n
    = OutOfFuel /\
    forall fuel,
      word_count_loop id_of_call fuel words
        (totalDuration / num_of_nat (length words))%js
        (num_ceil (Opts.targetDuration opts
                   / (totalDuration / num_of_nat (length words)))%js)
        num_zero startTime [] n
      = OutOfFuel.
Proof.
  intros id_of_call words startTime totalDuration opts n s Hne Hsmall Hceil.
  split.
  - unfold splitByWordCount. rewrite Hceil.
    apply word_count_loop_stuck; assumption.
  - intros fuel. rewrite Hceil. apply word_count_loop_stuck; assumption.
Qed.

Lemma splitByWordCount_zero_step_witness :
  let opts := Opts.mk (Fin (3 # 2)) (Fin 0) (Fin (7 # 2)) (Fin 50)
                      DEFAULT_sentenceDelimiters DEFAULT_naturalBreakPattern in
  splitByWordCount demo_ids [js "a"; js "b"] (Fin 0) (Fin 4) opts 0
  = OutOfFuel /\
  forall fuel,
    word_count_loop demo_ids fuel [js "a"; js "b"]
      (Fin 4 / num_of_nat (length [js "a"; js "b"]))%js
      (num_ceil (Opts.targetDuration opts
                 / (Fin 4 / num_of_nat (length [js "a"; js "b"])))%js)
      num_zero (Fin 0) [] 0
    = OutOfFuel.
Proof.
  apply (splitByWordCount_zero_step demo_ids [js "a"; js "b"] (Fin 0) (Fin 4)
           (Opts.mk (Fin (3 # 2)) (Fin 0) (Fin (7 # 2)) (Fin 50)
                    DEFAULT_sentenceDelimiters DEFAULT_naturalBreakPattern)
           0 false).
  - discriminate.
  - vm_compute. reflexivity.
  - vm_compute. reflexivity.
Defined.

(* ----- the speech-to-text service ----- *)

Lemma mergeSTTResults_words : forall results,
  STT.words (mergeSTTResults results) = concat (map STT.words results).
Proof.
  intros [|r0 [|r1 rest]].
  - reflexivity.
  - cbn. rewrite app_nil_r. reflexivity.
  - cbn [mergeSTTResults STT.words]. apply flat_map_concat_map.
Qed.

(** X12: the subtitles of a recording cut in chunks hold the words of every
    chunk, in order. *)
Theorem splitSubtitles_covers_chunks :
  forall id_of_call (chunks : list (WhisperResponse * JSNum))
         (options : SplitterOptions) n,
  exists segs n',
    splitSubtitles id_of_call (transcribed_chunks chunks) options n
    = Ok (segs, n') /\
    concat (map Seg.words segs)
    = concat (map (fun c => STT.words
                              (convertWhisperToSTTResult (fst c) (snd c)))
                  chunks).
Proof.
  intros id_of_call chunks options n.
  destruct (splitSubtitles_result id_of_call (transcribed_chunks chunks)
              options n) as (segs & n' & Hrun & Hcat & _).
  exists segs, n'. split; [exact Hrun|].
  rewrite Hcat. unfold transcribed_chunks.
  rewrite mergeSTTResults_words, map_map. reflexivity.
Qed.

Lemma spread_words_back_to_back : forall ws index base wd c,
  (Z.of_nat (index + length ws) < 2 ^ 53)%Z ->
  back_to_back (spread_words ws index base wd c).
Proof.
  induction ws as [|w ws IH]; intros index base wd c Hsmall; [exact I|].
  cbn [spread_words]. destruct ws as [|w' ws]; [exact I|].
  cbn [spread_words back_to_back Word.startTime Word.endTime]. split.
  - rewrite num_of_nat_add by (cbn [length] in Hsmall; lia).
    rewrite Nat.add_1_r. reflexivity.
  - apply (IH (S index) base wd c). cbn [length] in Hsmall |- *. lia.
Qed.

(** X13: the words made up for a segment of the response follow one another
    without gap. *)
Theorem segment_words_back_to_back :
  forall timeOffset (segment : WhisperSegment),
    (Z.of_nat (length (spoken_words (WSeg.text segment))) < 2 ^ 53)%Z ->
    back_to_back (segment_words timeOffset segment).
Proof.
  intros timeOffset segment Hsmall. unfold segment_words.
  apply spread_words_back_to_back. exact Hsmall.
Qed.

Lemma segment_words_back_to_back_witness :
  back_to_back
    (segment_words (Fin 30)
       (WSeg.mk (Fin (1 # 10)) (Fin (8 # 10)) (js " one two  three ")
                (Fin (1 # 100)))).
Proof.
  apply segment_words_back_to_back.
  vm_compute. reflexivity.
Defined.
